(** * llm-deployment: the /build webhook of [main.py], embedded and verified

    The program is one FastAPI handler ([build_app]) that orchestrates three
    external services: an LLM completion API, the GitHub REST API and a
    caller-supplied callback URL.  The embedding is shallow:

    - Python [str] values are [string]s, one character per code point (the
      code points below 256); [len] is [String.length].
    - Parsed JSON is the inductive [json]; a [dict] is an association list
      in insertion order whose keys are distinct.
    - Effects are threaded through an explicit state ([St]): the GitHub
      account (a [gmap] of repositories, each a [gmap] of files plus its
      commit log), the local working directory, the wall clock, the console,
      and the ordered trace of outbound calls.
    - The behaviour of the outside world (what the LLM answers, what the
      callback endpoint and the Pages site return) is a record of
      deterministic oracles ([World]).
    - Exceptions are the [Raised] outcome of the monad [M]; the unbounded
      retry loop takes fuel and [Diverged] is the outcome when it runs out.
    - [print] and [logger.warning] append a line to the console; the
      decorative symbols that open the messages and the text of caught
      exceptions are left out of the lines. *)

From Stdlib Require Import ZArith Ascii String List Lia Bool.
From stdpp Require Import base gmap strings pretty list fin_maps.

Local Open Scope Z_scope.
Set Warnings "-register-all".

(* ===================================================================== *)
(** ** Python string operations used by the source *)
(* ===================================================================== *)

Module PyStr.

Definition code (c : ascii) : N := N_of_ascii c.

(** [str.isspace] on code points below 256. *)
Definition isspace (c : ascii) : bool :=
  let n := code c in
  ((9 <=? n) && (n <=? 13) || (28 <=? n) && (n <=? 32)
   || (n =? 133) || (n =? 160))%N.

(** [str.isprintable] on code points below 256: controls, the no-break
    space and the soft hyphen are not printable; the ASCII space is. *)
Definition isprintable (c : ascii) : bool :=
  let n := code c in
  negb ((n <? 32) || (127 <=? n) && (n <=? 160) || (n =? 173))%N.

(** [str.lower] on one code point below 256. *)
Definition lower_char (c : ascii) : ascii :=
  let n := code c in
  if ((65 <=? n) && (n <=? 90)
      || (192 <=? n) && (n <=? 222) && negb (n =? 215))%N
  then ascii_of_N (n + 32) else c.

Fixpoint lower (s : string) : string :=
  match s with
  | EmptyString => EmptyString
  | String c r => String (lower_char c) (lower r)
  end.

Definition len (s : string) : Z := Z.of_nat (String.length s).

Fixpoint startswith (s p : string) : bool :=
  match p, s with
  | EmptyString, _ => true
  | String _ _, EmptyString => false
  | String a p', String b s' => if ascii_dec a b then startswith s' p' else false
  end.

(** [p in s] *)
Fixpoint contains (p s : string) : bool :=
  startswith s p ||
  match s with
  | EmptyString => false
  | String _ r => contains p r
  end.

Fixpoint rev_onto (s acc : string) : string :=
  match s with
  | EmptyString => acc
  | String c r => rev_onto r (String c acc)
  end.

Definition rev (s : string) : string := rev_onto s EmptyString.

Definition endswith (s p : string) : bool := startswith (rev s) (rev p).

Fixpoint lstrip (s : string) : string :=
  match s with
  | EmptyString => EmptyString
  | String c r => if isspace c then lstrip r else s
  end.

Fixpoint rstrip (s : string) : string :=
  match s with
  | EmptyString => EmptyString
  | String c r =>
      match rstrip r with
      | EmptyString => if isspace c then EmptyString else String c EmptyString
      | r' => String c r'
      end
  end.

Definition strip (s : string) : string := rstrip (lstrip s).

(** [s.replace(old, new)] for a non-empty [old]: left to right, without
    overlap.  [skip] counts the characters of a match still to drop. *)
Fixpoint replace_from (old new s : string) (skip : nat) : string :=
  match s with
  | EmptyString => EmptyString
  | String c r =>
      match skip with
      | S k => replace_from old new r k
      | O =>
          if startswith s old
          then new +:+ replace_from old new r (Nat.pred (String.length old))
          else String c (replace_from old new r O)
      end
  end.

(** With an empty [old], Python inserts [new] before every character and
    at the end. *)
Fixpoint intersperse (new s : string) : string :=
  match s with
  | EmptyString => new
  | String c r => new +:+ String c (intersperse new r)
  end.

Definition replace (s old new : string) : string :=
  match old with
  | EmptyString => intersperse new s
  | _ => replace_from old new s O
  end.

(** [s[:n]] *)
Fixpoint take (n : nat) (s : string) : string :=
  match n, s with
  | O, _ => EmptyString
  | _, EmptyString => EmptyString
  | S k, String c r => String c (take k r)
  end.

Fixpoint filter (f : ascii -> bool) (s : string) : string :=
  match s with
  | EmptyString => EmptyString
  | String c r => if f c then String c (filter f r) else filter f r
  end.

(** [s.split(",", 1)] unpacked into two names: [None] stands for the
    [ValueError] raised when there is no separator. *)
Fixpoint split_comma (s : string) : option (string * string) :=
  match s with
  | EmptyString => None
  | String c r =>
      if ascii_dec c ","%char then Some (EmptyString, r)
      else match split_comma r with
           | Some (h, t) => Some (String c h, t)
           | None => None
           end
  end.

End PyStr.

(* ===================================================================== *)
(** ** Parsed JSON and the Python operations applied to it *)
(* ===================================================================== *)

(** The value [json.loads] / [request.json()] returns.  Numbers are the
    integers; a [dict] keeps insertion order and has distinct keys. *)
Inductive json : Type :=
| JNull
| JBool (b : bool)
| JInt (z : Z)
| JStr (s : string)
| JArr (l : list json)
| JObj (d : list (string * json)).

Definition dict := list (string * json).

Inductive exn : Type :=
| KeyError (key : string)
| AttributeError
| TypeError
| ValueError
| Base64Error
| IndexError
| GithubException (status : Z)   (* UnknownObjectException is status 404 *)
| LLMError.                      (* the completion call or json.loads raised *)

Definition UnknownObjectException : exn := GithubException 404.

Definition is_GithubException (e : exn) : bool :=
  match e with GithubException _ => true | _ => false end.

Definition is_UnknownObjectException (e : exn) : bool :=
  match e with GithubException s => s =? 404 | _ => false end.

Definition is_Exception (e : exn) : bool := true.

Fixpoint dict_lookup (k : string) (d : dict) : option json :=
  match d with
  | [] => None
  | (k', v) :: r => if String.eqb k k' then Some v else dict_lookup k r
  end.

(** [d.get(k)] and [d.get(k, default)] *)
Definition dict_get (d : dict) (k : string) : json :=
  match dict_lookup k d with Some v => v | None => JNull end.

Definition dict_get_default (d : dict) (k : string) (default : json) : json :=
  match dict_lookup k d with Some v => v | None => default end.

(** [k in d] and [d.pop(k, None)] *)
Definition dict_mem (k : string) (d : dict) : bool :=
  match dict_lookup k d with Some _ => true | None => false end.

Fixpoint dict_pop (k : string) (d : dict) : dict :=
  match d with
  | [] => []
  | (k', v) :: r => if String.eqb k k' then dict_pop k r else (k', v) :: dict_pop k r
  end.

(** [v == n] for an [int] literal [n]: Python compares [bool] as 0/1 and
    nothing else that JSON produces equals an integer. *)
Definition py_eq_int (v : json) (n : Z) : bool :=
  match v with
  | JInt z => z =? n
  | JBool b => (if b then 1 else 0) =? n
  | _ => false
  end.

(** The value of an optional environment variable as a Python object. *)
Definition of_env (o : option string) : json :=
  match o with Some s => JStr s | None => JNull end.

(** [v != os.getenv(...)]: the right-hand side is a [str] or [None]. *)
Definition py_ne_env (v : json) (o : option string) : bool :=
  match v, o with
  | JStr s, Some s' => negb (String.eqb s s')
  | JNull, None => false
  | _, _ => true
  end.

(** Truthiness ([if attachments:]). *)
Definition py_truthy (v : json) : bool :=
  match v with
  | JNull => false
  | JBool b => b
  | JInt z => negb (z =? 0)
  | JStr s => negb (String.eqb s EmptyString)
  | JArr l => match l with [] => false | _ => true end
  | JObj d => match d with [] => false | _ => true end
  end.

(** [for x in v]: a list yields its items, a dict its keys, a str its
    characters; anything else is not iterable. *)
Definition py_iter (v : json) : exn + list json :=
  match v with
  | JArr l => inr l
  | JObj d => inr (map (fun kv => JStr (fst kv)) d)
  | JStr s => inr (map (fun c => JStr (String c EmptyString)) (list_ascii_of_string s))
  | _ => inl TypeError
  end.

(** [v[k]] for a [str] key [k]. *)
Definition py_getitem (v : json) (k : string) : exn + json :=
  match v with
  | JObj d => match dict_lookup k d with Some x => inr x | None => inl (KeyError k) end
  | _ => inl TypeError
  end.

(** [v.get(k)]: only a dict has the method. *)
Definition py_get (v : json) (k : string) : exn + json :=
  match v with
  | JObj d => inr (dict_get d k)
  | _ => inl AttributeError
  end.

(* ===================================================================== *)
(** ** The outside world and the state of a run *)
(* ===================================================================== *)

Record Commit := mkCommit { c_path : string; c_msg : string; c_content : string }.

(** A repository on the hosting platform: its description, its files by
    path, and its commits, newest first. *)
Record Repo := mkRepo {
  r_description : string;
  r_files : gmap string string;
  r_commits : list Commit
}.

(** The body of the evaluation callback. *)
Record Payload := mkPayload {
  p_email : json; p_task : json; p_round : json; p_nonce : json;
  p_repo_url : string; p_commit_sha : string; p_pages_url : option string
}.

(** Outbound calls and local writes, in the order they are issued. *)
Inductive event : Type :=
| LlmGenerate (brief : json) (checks attachments : json)
| LlmEdit (role task new_brief old_content : string)
| GhGetRepo (name : string)
| GhDeleteRepo (name : string)
| GhCreateRepo (name description : string)
| GhGetContents (repo path : string)
| GhCreateFile (repo path msg content : string)
| GhUpdateFile (repo path msg content : string)
| GhEdit (repo : string)
| GhEnablePages (repo : string)
| GhGetCommits (repo : string)
| HttpPost (url : json) (payload : Payload) (timeout : Z)
| HttpGet (url : string) (timeout : Z)
| Sleep (seconds : Z)
| WriteFile (name data : string).

(** Why the platform refuses an update that its arguments allow: the
    [sha] is stale (409), the token may not write (403), or the service
    fails (5xx). *)
Inductive refusal : Type := Conflict | Forbidden | ServerError.

Definition refusal_status (why : refusal) : Z :=
  match why with Conflict => 409 | Forbidden => 403 | ServerError => 500 end.

(** What the external services answer.  The LLM oracles take what the
    prompt is built from; [None] stands for a raised exception.
    [update_refused] takes the calls made so far, the update being the last
    of them, and says whether the platform refuses it; [delete_lag] is the
    number of lookups after its deletion that still see a repository. *)
Record World := mkWorld {
  user_login : string;
  user_name : string;
  github_mit_license : string;
  sha_of : list Commit -> string;
  llm_generate : json -> json -> json -> option json;
  llm_edit : string -> string -> string -> string -> option string;
  b64decode : string -> option string;
  utf8_decode_ignore : string -> string;
  pages_enable_status : option Z;
  post_status : json -> nat -> option Z;
  get_status : string -> nat -> option Z * nat;
  update_refused : list event -> option refusal;
  delete_lag : string -> nat
}.

(** Mutable state: the GitHub account, the files written locally, the
    clock in milliseconds, the console and the trace. *)
Record St := mkSt {
  gh : gmap string Repo;
  disk : list (string * string);
  now : Z;
  console : list string;
  trace : list event
}.

Inductive outcome (A : Type) : Type :=
| Ret (a : A)
| Raised (e : exn)
| Diverged.
Arguments Ret {A} a.
Arguments Raised {A} e.
Arguments Diverged {A}.

Definition M (A : Type) : Type := St -> outcome A * St.

Definition ret {A} (a : A) : M A := fun st => (Ret a, st).
Definition raise {A} (e : exn) : M A := fun st => (Raised e, st).
Definition diverge {A} : M A := fun st => (Diverged, st).

Definition bind {A B} (m : M A) (f : A -> M B) : M B :=
  fun st =>
    match m st with
    | (Ret a, st') => f a st'
    | (Raised e, st') => (Raised e, st')
    | (Diverged, st') => (Diverged, st')
    end.

Notation "'let*' x ':=' m 'in' k" := (bind m (fun x => k))
  (at level 10, x pattern, m at level 100, k at level 200).
Notation "m ;;; k" := (bind m (fun _ => k))
  (at level 100, k at level 200, right associativity).

(** [try: m except <catches> as e: h e] *)
Definition try_except {A} (m : M A) (catches : exn -> bool) (h : exn -> M A) : M A :=
  fun st =>
    match m st with
    | (Raised e, st') => if catches e then h e st' else (Raised e, st')
    | r => r
    end.

Definition lift {A} (r : exn + A) : M A :=
  match r with inl e => raise e | inr a => ret a end.

(** The four ways a step changes the state. *)
Definition log (e : event) (st : St) : St :=
  mkSt (gh st) (disk st) (now st) (console st) (trace st ++ [e]).

Definition say (msg : string) (st : St) : St :=
  mkSt (gh st) (disk st) (now st) (console st ++ [msg]) (trace st).

Definition with_gh (g : gmap string Repo) (st : St) : St :=
  mkSt g (disk st) (now st) (console st) (trace st).

Definition tick (ms : Z) (st : St) : St :=
  mkSt (gh st) (disk st) (now st + ms) (console st) (trace st).

Definition emit (e : event) : M unit := fun st => (Ret tt, log e st).

Definition print (msg : string) : M unit := fun st => (Ret tt, say msg st).

Definition set_gh (g : gmap string Repo) : M unit := fun st => (Ret tt, with_gh g st).

Definition get_gh : M (gmap string Repo) := fun st => (Ret (gh st), st).

Definition get_trace : M (list event) := fun st => (Ret (trace st), st).

Definition time_time : M Z := fun st => (Ret (now st), st).

Definition advance (ms : Z) : M unit := fun st => (Ret tt, tick ms st).

(** [time.sleep(seconds)] *)
Definition time_sleep (seconds : Z) : M unit :=
  emit (Sleep seconds) ;;; advance (seconds * 1000).

(** [open(name, "wb").write(data)] *)
Definition write_file (name data : string) : M unit :=
  emit (WriteFile name data) ;;;
  fun st => (Ret tt, mkSt (gh st) (disk st ++ [(name, data)]) (now st) (console st) (trace st)).

Definition when (b : bool) (m : M unit) : M unit := if b then m else ret tt.

(** A request field used as text. *)
Definition as_str (e : exn) (v : json) : M string :=
  match v with JStr s => ret s | _ => raise e end.

(* ===================================================================== *)
(** ** The hosting platform (PyGithub calls) *)
(* ===================================================================== *)

(** The repository after one commit that writes [content] at [path]. *)
Definition committed (r : Repo) (path msg content : string) : Repo :=
  mkRepo (r_description r) (<[path := content]> (r_files r))
         (mkCommit path msg content :: r_commits r).

(** The platform is modelled as a store.  A lookup or a creation fails
    only for the reason its arguments give (404 for a missing repository or
    path, 422 for a name or path that is already taken); an update can also
    be refused by the platform, and a deletion takes effect some lookups
    after it was accepted. *)
Section Platform.

Variable w : World.

Definition html_url (repo : string) : string :=
  "https://github.com/" +:+ user_login w +:+ "/" +:+ repo.

(** [user.get_repo(name)]: the handle is the name. *)
Definition get_repo (name : string) : M string :=
  emit (GhGetRepo name) ;;;
  let* g := get_gh in
  match g !! name with
  | Some _ => ret name
  | None => raise UnknownObjectException
  end.

Definition the_repo (repo : string) : M Repo :=
  let* g := get_gh in
  match g !! repo with
  | Some r => ret r
  | None => raise UnknownObjectException
  end.

(** [repo.delete()]: the platform accepts the deletion; the
    repository disappears [delete_lag w repo] lookups later. *)
Definition repo_delete (repo : string) : M unit :=
  emit (GhDeleteRepo repo) ;;;
  let* _ := the_repo repo in
  ret tt.

(** The platform just before the [k]-th lookup (from 0) that follows the
    deletion of [repo]: the deletion shows once the lag has passed. *)
Definition deletion_shows (repo : string) (k : nat) : M unit :=
  let* g := get_gh in
  when (delete_lag w repo <=? k)%nat (set_gh (delete repo g)).

(** [user.create_repo(name, private=False, description=..,
    license_template="mit")]: the platform writes the LICENSE of the
    template in an initial commit. *)
Definition create_repo (name description : string) : M string :=
  emit (GhCreateRepo name description) ;;;
  let* g := get_gh in
  match g !! name with
  | Some _ => raise (GithubException 422)
  | None =>
      let lic := github_mit_license w in
      set_gh (<[name := mkRepo description {["LICENSE" := lic]}
                          [mkCommit "LICENSE" "Initial commit" lic]]> g) ;;;
      ret name
  end.

Definition commit (repo path msg content : string) (r : Repo) : M unit :=
  let* g := get_gh in
  set_gh (<[repo := committed r path msg content]> g).

(** [repo.get_contents(path)]: the decoded text of the file. *)
Definition get_contents (repo path : string) : M string :=
  emit (GhGetContents repo path) ;;;
  let* r := the_repo repo in
  match r_files r !! path with
  | Some c => ret c
  | None => raise UnknownObjectException
  end.

(** [repo.create_file(path, msg, content)] *)
Definition create_file (repo path msg content : string) : M unit :=
  emit (GhCreateFile repo path msg content) ;;;
  let* r := the_repo repo in
  match r_files r !! path with
  | Some _ => raise (GithubException 422)
  | None => commit repo path msg content r
  end.

(** [repo.update_file(path, msg, content, sha)], [sha] being the one
    just read: a [GithubException] with the status of the refusal when
    the platform refuses the update. *)
Definition update_file (repo path msg content : string) : M unit :=
  emit (GhUpdateFile repo path msg content) ;;;
  let* r := the_repo repo in
  match r_files r !! path with
  | Some _ =>
      let* calls := get_trace in
      match update_refused w calls with
      | Some why => raise (GithubException (refusal_status why))
      | None => commit repo path msg content r
      end
  | None => raise UnknownObjectException
  end.

(** [repo.get_commits()[0].sha] *)
Definition latest_commit_sha (repo : string) : M string :=
  emit (GhGetCommits repo) ;;;
  let* r := the_repo repo in
  match r_commits r with
  | [] => raise IndexError
  | cs => ret (sha_of w cs)
  end.

End Platform.

(* ===================================================================== *)
(** ** [wait_for_pages_ready] and the callback loop *)
(* ===================================================================== *)

Section Loops.

Variable w : World.

(** [r.status_code == 200], where [None] is a request that raised. *)
Definition is_200 (r : option Z) : bool :=
  match r with Some s => s =? 200 | None => false end.

Definition is_Some_b (r : option Z) : bool :=
  match r with Some _ => true | None => false end.

(** [requests.get(pages_url, timeout=5)] as the [k]-th fetch of the
    poll: the status, or [None] for a [RequestException]; the clock
    moves by the time the fetch took. *)
Definition requests_get (url : string) (k : nat) : M (option Z) :=
  emit (HttpGet url 5) ;;;
  let '(r, ms) := get_status w url k in
  advance (Z.of_nat ms) ;;;
  ret r.

(** The [while time.time() - start < max_wait] loop, with the
    [return False] that follows it. *)
Fixpoint pages_poll (fuel : nat) (pages_url : string) (start max_wait : Z)
    (k : nat) : M bool :=
  match fuel with
  | O => diverge
  | S fuel' =>
      let* t := time_time in
      if t - start <? max_wait * 1000 then
        let* r := requests_get pages_url k in
        if is_200 r then
          print ("GitHub Pages is live: " +:+ pages_url) ;;;
          ret true
        else
          time_sleep 3 ;;;
          pages_poll fuel' pages_url start max_wait (S k)
      else
        print "GitHub Pages did not become live within the timeout window." ;;;
        ret false
  end.

(** Every iteration sleeps 3 seconds, so the loop body runs at most
    [max_wait / 3 + 1] times. *)
Definition poll_bound (max_wait : Z) : nat := Z.to_nat (max_wait / 3) + 2.

Definition wait_for_pages_ready_within (pages_url : string) (max_wait : Z)
    : M bool :=
  print ("Waiting for GitHub Pages to go live at " +:+ pages_url) ;;;
  let* start := time_time in
  pages_poll (poll_bound max_wait) pages_url start max_wait O.

(** [max_wait=60] *)
Definition wait_for_pages_ready (pages_url : string) : M bool :=
  wait_for_pages_ready_within pages_url 60.

(** [requests.post(evaluation_url, json=payload, timeout=10)] as the
    [k]-th attempt: the status, or [None] for an exception. *)
Definition requests_post (url : json) (payload : Payload) (k : nat) : M (option Z) :=
  emit (HttpPost url payload 10) ;;;
  ret (post_status w url k).

(** The [while True] loop of both rounds (lines 113-122 and 141-150). *)
Fixpoint callback_loop (fuel : nat) (evaluation_url : json) (payload : Payload)
    (k : nat) (delay : Z) : M unit :=
  match fuel with
  | O => diverge
  | S fuel' =>
      let* r := requests_post evaluation_url payload k in
      if is_200 r then ret tt
      else
        when (negb (is_Some_b r)) (print "Retrying evaluation callback") ;;;
        time_sleep delay ;;;
        callback_loop fuel' evaluation_url payload (S k) (Z.min (delay * 2) 60)
  end.

Definition notify (fuel : nat) (evaluation_url : json) (payload : Payload) : M unit :=
  callback_loop fuel evaluation_url payload O 1.

End Loops.

(* ===================================================================== *)
(** ** [generate_minimal_app] and the Round 1 publisher *)
(* ===================================================================== *)

Definition nl : string := String "010"%char EmptyString.
Definition cr : string := String "013"%char EmptyString.

Definition safe_task (task : string) : string :=
  PyStr.replace (PyStr.replace task " " "-") "/" "-".

(** [get_mit_license(name)] *)
Definition get_mit_license (name : string) : string :=
  "MIT License" +:+ nl +:+
  "Copyright (c) 2025 " +:+ name +:+ nl +:+
  "Permission is hereby granted, free of charge, to any person obtaining a copy..."
  +:+ nl.

Definition clean_description (brief : string) : string :=
  PyStr.take 350
    (PyStr.strip
       (PyStr.replace (PyStr.replace (PyStr.filter PyStr.isprintable brief) nl " ")
                      cr " ")).

(** [p in v] for a [str] [p]: substring of a str, item of a list, key of
    a dict; anything else is not iterable. *)
Definition py_in_str (p : string) (v : json) : exn + bool :=
  match v with
  | JStr s => inr (PyStr.contains p s)
  | JArr l => inr (existsb (fun x => match x with JStr s => String.eqb s p | _ => false end) l)
  | JObj d => inr (dict_mem p d)
  | _ => inl TypeError
  end.

(** [v.replace(old, new)]: only a str has the method. *)
Definition py_replace (v : json) (old new : string) : exn + json :=
  match v with
  | JStr s => inr (JStr (PyStr.replace s old new))
  | _ => inl AttributeError
  end.

(** Bytes of [content.encode("utf-8")]: one per code point below 128,
    two above; only the former can be control bytes. *)
Fixpoint utf8_len (s : string) : Z :=
  match s with
  | EmptyString => 0
  | String c r => (if (PyStr.code c <? 128)%N then 1 else 2) + utf8_len r
  end.

Fixpoint has_control_byte (s : string) : bool :=
  match s with
  | EmptyString => false
  | String c r =>
      let b := PyStr.code c in
      ((b <? 9) || (13 <? b) && (b <? 32))%N || has_control_byte r
  end.

Section Round1.

Variable w : World.

Fixpoint attachment_names (l : list json) : exn + list string :=
  match l with
  | [] => inr []
  | a :: r =>
      match py_getitem a "name", attachment_names r with
      | inl e, _ => inl e
      | inr _, inl e => inl e
      | inr (JStr n), inr ns => inr (n :: ns)
      | inr _, inr _ => inl TypeError          (* ', '.join(names) *)
      end
  end.

(** The prompt is a function of the three arguments, and the answer a
    function of the prompt; [json.loads] is part of the oracle. *)
Definition generate_minimal_app (brief checks attachments : json) : M json :=
  let* _ := lift (py_iter checks) in
  let* _ := (if py_truthy attachments
             then let* l := lift (py_iter attachments) in lift (attachment_names l)
             else ret []) in
  emit (LlmGenerate brief checks attachments) ;;;
  match llm_generate w brief checks attachments with
  | Some files => ret files
  | None => raise LLMError
  end.

(** One attachment of [process_attachments]. *)
Definition process_attachment (repo : string) (att : json) : M unit :=
  let* name := lift (py_get att "name") in
  let* url := lift (py_get att "url") in
  if negb (py_truthy name && py_truthy url) then ret tt
  else
    let* u := as_str AttributeError url in
    if negb (PyStr.startswith u "data:") then ret tt
    else
      try_except
        (match PyStr.split_comma u with
         | None => raise ValueError
         | Some (header, encoded) =>
             match b64decode w encoded with
             | None => raise Base64Error
             | Some data =>
                 let* n := as_str TypeError name in
                 create_file repo n ("Add attachment " +:+ n)
                             (utf8_decode_ignore w data) ;;;
                 print ("Uploaded attachment: " +:+ n)
             end
         end)
        is_Exception
        (fun e => print "Failed to process attachment").

Fixpoint process_each (repo : string) (l : list json) : M unit :=
  match l with
  | [] => ret tt
  | att :: r => process_attachment repo att ;;; process_each repo r
  end.

Definition process_attachments (attachments : json) (repo : string) : M unit :=
  let* l := lift (py_iter attachments) in
  process_each repo l.

(** The [for _ in range(120)] wait of [delete_repo_if_exists]: [n]
    iterations are left and [k] lookups were made; [true] is the early
    [return]. *)
Fixpoint deletion_wait (n k : nat) (repo_name : string) : M unit :=
  match n with
  | O => ret tt
  | S n' =>
      time_sleep 5 ;;;
      deletion_shows w repo_name k ;;;
      let* gone :=
        try_except (get_repo repo_name ;;; ret false)
                   is_UnknownObjectException
                   (fun _ => print "Repo deletion confirmed." ;;;
                             time_sleep 15 ;;; ret true) in
      if gone then ret tt
      else print "Waiting for repo deletion..." ;;; deletion_wait n' (S k) repo_name
  end.

Definition delete_repo_if_exists (repo_name : string) : M unit :=
  try_except
    (let* repo := get_repo repo_name in
     repo_delete repo ;;;
     print ("Deleted existing repo: " +:+ repo_name) ;;;
     deletion_wait 120 0 repo_name)
    is_UnknownObjectException
    (fun _ => ret tt).

(** One entry of [fix_common_ci_errors]. *)
Definition fix_entry (fname : string) (content : json) : M json :=
  if PyStr.endswith fname ".yml" || PyStr.endswith fname ".yaml" then
    let* a := lift (py_in_str "ruff ." content) in
    let* b := (if a then lift (py_in_str "ruff check ." content) else ret true) in
    let* content :=
      (if a && negb b
       then print "Auto-fixing invalid Ruff syntax in workflow." ;;;
            lift (py_replace content "ruff ." "ruff check . || true")
       else ret content) in
    let* a' := lift (py_in_str "ruff --fix ." content) in
    let* b' := (if a' then lift (py_in_str "ruff check . --fix" content) else ret true) in
    if a' && negb b'
    then lift (py_replace content "ruff --fix ." "ruff check . --fix || true")
    else ret content
  else ret content.

Fixpoint fix_common_ci_errors (app_code : dict) : M dict :=
  match app_code with
  | [] => ret []
  | (fname, content) :: r =>
      let* c := fix_entry fname content in
      let* r' := fix_common_ci_errors r in
      ret ((fname, c) :: r')
  end.

(** The body of the upload loop; [seen] is the set of lower-cased names. *)
Definition upload_one (repo : string) (seen : gset string)
    (filename : string) (content : json) : M (gset string) :=
  if PyStr.startswith filename "```" || String.eqb (PyStr.strip filename) EmptyString
  then ret seen
  else
    let* c1 := lift (py_replace content "```html" EmptyString) in
    let* c2 := lift (py_replace c1 "```" EmptyString) in
    let* content := as_str AttributeError c2 in
    let content := PyStr.strip content in
    let clean := PyStr.strip filename in
    when (negb (String.eqb clean filename))
         (print ("Filename '" +:+ filename +:+
                 "' has hidden whitespace - normalized to '" +:+ clean +:+ "'")) ;;;
    when (bool_decide (PyStr.lower clean ∈ seen))
         (print ("Duplicate filename detected: " +:+ clean)) ;;;
    let seen := {[PyStr.lower clean]} ∪ seen in
    when (has_control_byte content)
         (print ("Non-printable bytes found in " +:+ filename)) ;;;
    when (800000 <? utf8_len content)
         (print ("Large file detected (" +:+ pretty (utf8_len content) +:+
                 " bytes): " +:+ filename)) ;;;
    create_file repo filename ("Add " +:+ filename) content ;;;
    print ("Uploaded: " +:+ filename) ;;;
    ret seen.

Fixpoint upload_all (repo : string) (seen : gset string) (app_code : dict) : M unit :=
  match app_code with
  | [] => ret tt
  | (filename, content) :: r =>
      let* seen' := upload_one repo seen filename content in
      upload_all repo seen' r
  end.

(** [if "LICENSE" in app_code: app_code.pop("LICENSE", None)], then
    [.items()]: only a dict gets through. *)
Definition strip_license (app_code : json) : M dict :=
  match app_code with
  | JObj d =>
      if dict_mem "LICENSE" d
      then print "Removing LICENSE from app_code - handled separately later." ;;;
           ret (dict_pop "LICENSE" d)
      else ret d
  | _ =>
      let* has := lift (py_in_str "LICENSE" app_code) in
      match app_code with
      | JArr _ => if has then raise TypeError else raise AttributeError
      | _ => raise AttributeError
      end
  end.

Definition write_license (repo : string) : M unit :=
  let mit_text := get_mit_license (user_name w) in
  try_except
    (let* _ := get_contents repo "LICENSE" in
     update_file w repo "LICENSE" "Update MIT License" mit_text ;;;
     print "LICENSE file updated.")
    is_UnknownObjectException
    (fun _ => create_file repo "LICENSE" "Add MIT License" mit_text ;;;
              print "LICENSE file created.").

Definition pages_url_of (repo : string) : string :=
  "https://" +:+ user_login w +:+ ".github.io/" +:+ repo +:+ "/".

Definition enable_pages (repo : string) : M (option string) :=
  try_except
    (emit (GhEdit repo) ;;;
     emit (GhEnablePages repo) ;;;
     match pages_enable_status w with
     | Some s =>
         if (s =? 200) || (s =? 201)
         then ret (Some (pages_url_of repo))
         else raise ValueError             (* raise Exception("Failed to enable Pages") *)
     | None => raise ValueError            (* the POST itself raised *)
     end)
    is_Exception
    (fun _ => print "Failed to enable GitHub Pages" ;;; ret None).

(** [create_and_deploy_repo(task, app_code, brief, attachments=None)];
    [JNull] is [None]. *)
Definition create_and_deploy_repo (task : string) (app_code : json)
    (brief : string) (attachments : json) : M (string * string * option string) :=
  let repo_name := safe_task task in
  try_except
    (let* stale := get_repo repo_name in delete_repo_if_exists stale)
    is_UnknownObjectException
    (fun _ => ret tt) ;;;
  print ("Creating repository: " +:+ repo_name) ;;;
  let* repo := create_repo w repo_name (clean_description brief) in
  let* app_code := strip_license app_code in
  let* app_code := fix_common_ci_errors app_code in
  upload_all repo ∅ app_code ;;;
  when (py_truthy attachments) (process_attachments attachments repo) ;;;
  emit (GhGetContents repo EmptyString) ;;;
  let* r := the_repo repo in
  print ("LICENSE exists? " +:+
         (if bool_decide (is_Some (r_files r !! "LICENSE")) then "True" else "False")) ;;;
  write_license repo ;;;
  let* pages_url := enable_pages repo in
  let* commit_sha := latest_commit_sha w repo in
  print ("Repo ready: " +:+ html_url w repo) ;;;
  print ("Pages: " +:+ match pages_url with Some u => u | None => "Not enabled" end) ;;;
  match pages_url with
  | Some u => (if String.eqb u EmptyString then ret tt
               else wait_for_pages_ready w u ;;; ret tt)
  | None => ret tt
  end ;;;
  ret (html_url w repo, commit_sha, pages_url).

End Round1.

(* ===================================================================== *)
(** ** The Round 2 updater *)
(* ===================================================================== *)

(** The acceptance test of the three asset steps:
    [len(updated.strip()) < len(old) * 0.5 or updated == old].  The float
    product is exact, so the comparison is the integer one. *)
Definition llm_update_insufficient (updated old : string) : bool :=
  (2 * PyStr.len (PyStr.strip updated) <? PyStr.len old) || String.eqb updated old.

Section Round2.

Variable w : World.
Variables task new_brief : string.

(** [llm_update_file]: the prompt is a function of the role, the task,
    the brief and the old content. *)
Definition llm_update_file (filename old_content role extension : string) : M string :=
  emit (LlmEdit role task new_brief old_content) ;;;
  match llm_edit w role task new_brief old_content with
  | None => raise LLMError
  | Some content =>
      let updated := PyStr.strip content in
      ret (PyStr.strip
             (PyStr.replace (PyStr.replace updated ("```" +:+ extension) EmptyString) "```" EmptyString))
  end.

Definition update_file_safely (repo filename new_content commit_msg : string) : M unit :=
  try_except
    (let* _ := get_contents repo filename in
     update_file w repo filename commit_msg new_content ;;;
     print ("Updated " +:+ filename))
    is_GithubException
    (fun e =>
       if is_UnknownObjectException e
       then create_file repo filename commit_msg new_content ;;;
            print ("Created " +:+ filename)
       else raise e).

Definition merged_html (old_html : string) : string :=
  if PyStr.contains "colorful" (PyStr.lower new_brief)
     || PyStr.contains "theme" (PyStr.lower new_brief)
  then PyStr.replace
         (PyStr.replace old_html "<body>"
            "<body><div style='border: 3px solid #00bcd4; padding: 20px; border-radius: 10px;'>")
         "</body>" "</div></body>"
  else old_html +:+ nl +:+ "<!-- Update: " +:+ new_brief +:+ " -->".

Definition merge_html_update (repo : string) : M unit :=
  try_except
    (let* old_html := get_contents repo "index.html" in
     update_file w repo "index.html" ("Guaranteed HTML update for " +:+ task)
                 (merged_html old_html) ;;;
     print "Guaranteed HTML update applied.")
    is_GithubException
    (fun e =>
       if is_UnknownObjectException e
       then create_file repo "index.html" "Initial HTML" "<h1>Hello World</h1>" ;;;
            print "Created new HTML since none existed."
       else raise e).

Definition merged_css (old_css : string) : string :=
  old_css +:+
  (if PyStr.contains "dark" (PyStr.lower new_brief)
   then nl +:+ "body { background-color: #121212; color: #ffffff; }" +:+ nl
   else if PyStr.contains "colorful" (PyStr.lower new_brief)
   then nl +:+ ".box { border: 3px solid #ff69b4; background: linear-gradient(45deg, #ff9a9e, #fad0c4); }" +:+ nl
   else nl +:+ "/* Round 2 visual update applied */" +:+ nl).

Definition merge_css_update (repo : string) : M unit :=
  try_except
    (let* old_css := get_contents repo "style.css" in
     update_file w repo "style.css" ("Guaranteed CSS update for " +:+ task)
                 (merged_css old_css) ;;;
     print "Guaranteed CSS update applied.")
    is_GithubException
    (fun e =>
       if is_UnknownObjectException e
       then create_file repo "style.css" "Add CSS" "body { font-family: sans-serif; }" ;;;
            print "Created default CSS since none existed."
       else raise e).

Definition merged_js (old_js : string) : string :=
  old_js +:+
  (if PyStr.contains "button" (PyStr.lower new_brief)
   then nl +:+ "document.querySelectorAll('button').forEach(btn => btn.addEventListener('click', () => alert('Updated in Round 2!')));" +:+ nl
   else nl +:+ "console.log('Round 2 logic applied');" +:+ nl).

Definition merge_js_update (repo : string) : M unit :=
  try_except
    (let* old_js := get_contents repo "script.js" in
     update_file w repo "script.js" ("Guaranteed JS update for " +:+ task)
                 (merged_js old_js) ;;;
     print "Guaranteed JS update applied.")
    is_GithubException
    (fun e =>
       if is_UnknownObjectException e
       then create_file repo "script.js" "Add JS" "console.log('Initial script');" ;;;
            print "Created default JS since none existed."
       else raise e).

(** Lines 535-536: the check after the commit. *)
Definition html_check (updated_html : string) : M unit :=
  when (negb (PyStr.contains "<html" (PyStr.lower updated_html)))
       (print "Invalid HTML, restoring previous file.").

(** Lines 527-533: the accept-or-fall-back commit. *)
Definition html_commit (repo old_html : string) : M string :=
  let* updated_html := llm_update_file "index.html" old_html "HTML" "html" in
  let updated_html :=
    PyStr.strip (PyStr.replace (PyStr.replace updated_html "```html" EmptyString) "```" EmptyString) in
  (if llm_update_insufficient updated_html old_html
   then print "LLM HTML update insufficient - applying guaranteed merge." ;;;
        merge_html_update repo
   else update_file_safely repo "index.html" updated_html "Round 2: Updated HTML") ;;;
  ret updated_html.

Definition update_index_html (repo : string) : M unit :=
  try_except
    (let* old_html := get_contents repo "index.html" in
     let* updated_html := html_commit repo old_html in
     html_check updated_html)
    is_GithubException
    (fun _ => merge_html_update repo).

Definition update_style_css (repo : string) : M unit :=
  try_except
    (let* old_css := get_contents repo "style.css" in
     let* updated_css := llm_update_file "style.css" old_css "CSS" "css" in
     let updated_css :=
       PyStr.strip (PyStr.replace (PyStr.replace updated_css "```css" EmptyString) "```" EmptyString) in
     if llm_update_insufficient updated_css old_css
     then print "LLM CSS update insufficient - applying guaranteed merge." ;;;
          merge_css_update repo
     else update_file_safely repo "style.css" updated_css "Round 2: Updated CSS")
    is_GithubException
    (fun _ => merge_css_update repo).

Definition update_script_js (repo : string) : M unit :=
  try_except
    (let* old_js := get_contents repo "script.js" in
     let* updated_js := llm_update_file "script.js" old_js "JavaScript" "javascript" in
     let updated_js :=
       PyStr.strip
         (PyStr.replace
            (PyStr.replace (PyStr.replace updated_js "```javascript" EmptyString) "```" EmptyString)
            "```js" EmptyString) in
     if llm_update_insufficient updated_js old_js
     then print "LLM JS update insufficient - applying guaranteed merge." ;;;
          merge_js_update repo
     else update_file_safely repo "script.js" updated_js "Round 2: Updated JS")
    is_GithubException
    (fun _ => merge_js_update repo).

Definition update_readme (repo : string) : M unit :=
  try_except
    (let* _ := get_contents repo "README.md" in
     update_file w repo "README.md" "Update README for Round 2"
       ("## Round 2 Update" +:+ nl +:+ nl +:+ new_brief +:+ nl +:+ nl +:+
        "This round adds all new features, design tweaks, and logic changes described in the brief."))
    is_GithubException
    (fun _ => create_file repo "README.md" "Add README"
                ("# " +:+ task +:+ nl +:+ nl +:+ new_brief)).

Definition update_existing_repo : M (string * string * option string) :=
  let* repo := get_repo (safe_task task) in
  update_index_html repo ;;;
  update_style_css repo ;;;
  update_script_js repo ;;;
  update_readme repo ;;;
  let pages_url := pages_url_of w repo in
  let* _ := wait_for_pages_ready w pages_url in
  let* commit_sha := latest_commit_sha w repo in
  ret (html_url w repo, commit_sha, Some pages_url).

End Round2.

(* ===================================================================== *)
(** ** The handler [build_app] *)
(* ===================================================================== *)

Record Response := mkResponse { status : string; message : string }.

Definition invalid_secret : Response := mkResponse "error" "Invalid secret".
Definition round1_complete : Response := mkResponse "ok" "Round 1 build complete".
Definition round2_complete : Response := mkResponse "ok" "Round 2 update complete".

Section Handler.

Variable w : World.
(** [STUDENT_SECRET = os.getenv("STUDENT_SECRET")] *)
Variable STUDENT_SECRET : option string.

(** Step 3, one attachment: a [data:image] url is decoded into a local
    file.  The file name is text; [open(name, "wb")] has created the
    empty file by the time the decoding raises. *)
Definition save_attachment (file : json) : M unit :=
  let* name := lift (py_getitem file "name") in
  let* uri := lift (py_getitem file "url") in
  let* u := as_str AttributeError uri in
  if PyStr.startswith u "data:image" then
    match PyStr.split_comma u with
    | None => raise ValueError
    | Some (_, b64data) =>
        let* n := as_str TypeError name in
        match b64decode w b64data with
        | None => write_file n EmptyString ;;; raise Base64Error
        | Some bytes => write_file n bytes
        end
    end
  else ret tt.

Fixpoint save_attachments (l : list json) : M unit :=
  match l with
  | [] => ret tt
  | file :: r => save_attachment file ;;; save_attachments r
  end.

(** Lines 113-122 / 141-150 with the payload of lines 102-110 / 130-138. *)
Definition report (fuel : nat) (email task round_ nonce evaluation_url : json)
    (result : string * string * option string) : M unit :=
  let '(repo_url, commit_sha, pages_url) := result in
  notify w fuel evaluation_url
         (mkPayload email task round_ nonce repo_url commit_sha pages_url).

(** [data[k]] *)
Definition item (d : dict) (k : string) : M json :=
  match dict_lookup k d with Some v => ret v | None => raise (KeyError k) end.

(** Everything after the secret check.  [None] is the Python [None] the
    handler returns by falling off its end.  [task] and [brief] are text
    in every request of the form; where they are not, the model raises at
    the head of the branch that uses them as text. *)
Definition pipeline (fuel : nat) (data : dict) : M (option Response) :=
  let* email := item data "email" in
  let* task := item data "task" in
  let* brief := item data "brief" in
  let attachments := dict_get_default data "attachments" (JArr []) in
  let* round_ := item data "round" in
  let* nonce := item data "nonce" in
  let* evaluation_url := item data "evaluation_url" in
  let* files := lift (py_iter (dict_get_default data "attachments" (JArr []))) in
  save_attachments files ;;;
  let attachments := dict_get_default data "attachments" (JArr []) in
  let* app_code :=
    generate_minimal_app w brief (dict_get_default data "checks" (JArr [])) attachments in
  if py_eq_int round_ 1 then
    let* t := as_str AttributeError task in
    let* b := as_str TypeError brief in
    let* result := create_and_deploy_repo w t app_code b JNull in
    report fuel email task round_ nonce evaluation_url result ;;;
    ret (Some round1_complete)
  else if py_eq_int round_ 2 then
    let* t := as_str AttributeError task in
    let* b := as_str AttributeError brief in
    let* result := update_existing_repo w t b in
    report fuel email task round_ nonce evaluation_url result ;;;
    ret (Some round2_complete)
  else ret None.

(** [data = await request.json()]: only a JSON object has [.get]. *)
Definition build_app (fuel : nat) (data : json) : M (option Response) :=
  match data with
  | JObj d =>
      if py_ne_env (dict_get d "secret") STUDENT_SECRET
      then ret (Some invalid_secret)
      else pipeline fuel d
  | _ => raise AttributeError
  end.

End Handler.

(* ===================================================================== *)
(** ** Vocabulary of the properties *)
(* ===================================================================== *)

(** [emits P m]: whatever [m] does, it only appends events satisfying [P]
    to the trace.  [keeps_gh m]: it leaves the hosting platform as it was.
    [returns Q m]: a value [m] returns satisfies [Q].  [finishes m]: [m]
    needs no fuel. *)
Definition emits {A} (P : event -> Prop) (m : M A) : Prop :=
  forall st, exists evs, trace (snd (m st)) = trace st ++ evs /\ Forall P evs.

Definition keeps_gh {A} (m : M A) : Prop :=
  forall st, gh (snd (m st)) = gh st.

Definition returns {A} (Q : A -> Prop) (m : M A) : Prop :=
  forall st a st', m st = (Ret a, st') -> Q a.

Definition finishes {A} (m : M A) : Prop :=
  forall st, fst (m st) <> Diverged.

(** [halts m st]: run from [st], [m] returns a value. *)
Definition halts {A} (m : M A) (st : St) : Prop :=
  exists a st', m st = (Ret a, st').

(** A request passes the secret check. *)
Definition authenticated (S : option string) (d : dict) : Prop :=
  py_ne_env (dict_get d "secret") S = false.

(** The responses the handler constructs after the secret check. *)
Definition ok_response (r : option Response) : Prop :=
  r = None \/ r = Some round1_complete \/ r = Some round2_complete.


Definition is_write (e : event) : Prop :=
  match e with WriteFile _ _ => True | _ => False end.

(** Events that reach neither the hosting platform nor the callback. *)
Definition local_event (e : event) : Prop :=
  match e with
  | WriteFile _ _ | LlmGenerate _ _ _ => True
  | _ => False
  end.

Definition local_step {A} (m : M A) : Prop :=
  emits local_event m /\ keeps_gh m /\ finishes m.


(** Calls of the Round 2 updater: lookups, edits by the model and commits
    in the repository, and the readiness poll. *)
Definition updater_event (e : event) : Prop :=
  match e with
  | GhGetRepo _ | GhGetContents _ _ | LlmEdit _ _ _ _
  | GhCreateFile _ _ _ _ | GhUpdateFile _ _ _ _
  | HttpGet _ _ | Sleep _ | GhGetCommits _ => True
  | _ => False
  end.



(** Writes to the path LICENSE carry the text [mit]. *)
Definition license_event (mit : string) (e : event) : Prop :=
  match e with
  | GhCreateFile _ path _ c | GhUpdateFile _ path _ c => path = "LICENSE" -> c = mit
  | _ => True
  end.

Definition has_license (mit repo : string) (st : St) : Prop :=
  exists r, gh st !! repo = Some r /\ r_files r !! "LICENSE" = Some mit.

Definition has_file (repo path : string) (st : St) : bool :=
  match gh st !! repo with
  | Some r => bool_decide (is_Some (r_files r !! path))
  | None => false
  end.


(** *** The callback loop *)

(** Seconds slept before the [k]-th retry, [k >= 1]. *)
Definition retry_delay (k : nat) : Z := Z.min (2 ^ (Z.of_nat k - 1)) 60.

(** The trace of [n] failed attempts, the first of them being attempt [k]
    (counted from 0): a POST with the 10 second timeout, then the sleep
    before the next attempt. *)
Fixpoint failed_attempts (url : json) (p : Payload) (k n : nat) : list event :=
  match n with
  | O => []
  | S n' => HttpPost url p 10 :: Sleep (retry_delay (S k)) :: failed_attempts url p (S k) n'
  end.

(** *** The readiness poll *)

(** [n] rounds of the poll that did not see a 200: a fetch, then a sleep
    of 3 seconds. *)
Fixpoint poll_rounds (url : string) (n : nat) : list event :=
  match n with
  | O => []
  | S n' => HttpGet url 5 :: Sleep 3 :: poll_rounds url n'
  end.

Definition fetch_status (w : World) (url : string) (k : nat) : option Z :=
  fst (get_status w url k).

Definition fetch_ms (w : World) (url : string) (k : nat) : Z :=
  Z.of_nat (snd (get_status w url k)).

(** Milliseconds between the start of the poll and its [k]-th fetch. *)
Fixpoint elapsed (w : World) (url : string) (k : nat) : Z :=
  match k with
  | O => 0
  | S j => elapsed w url j + fetch_ms w url j + 3000
  end.

(** *** The Round 2 asset steps *)

(** The text the asset steps compare and commit, from the raw answer of
    the model: [llm_update_file] strips it and removes the fences, and the
    step does so once more. *)
Definition cleaned (extension raw : string) : string :=
  PyStr.strip
    (PyStr.replace
       (PyStr.replace
          (PyStr.strip
             (PyStr.replace
                (PyStr.replace (PyStr.strip raw) ("```" +:+ extension) EmptyString)
                "```" EmptyString))
          ("```" +:+ extension) EmptyString)
       "```" EmptyString).


(** Message and content of the commit of an asset step. *)
Definition asset_commit (updated old fallback_msg fallback accept_msg : string)
  : string * string :=
  if llm_update_insufficient updated old
  then (fallback_msg, fallback)
  else (accept_msg, updated).

Inductive asset : Type := IndexHtml | StyleCss | ScriptJs.

Definition asset_path (a : asset) : string :=
  match a with
  | IndexHtml => "index.html" | StyleCss => "style.css" | ScriptJs => "script.js"
  end.

Definition asset_role (a : asset) : string :=
  match a with
  | IndexHtml => "HTML" | StyleCss => "CSS" | ScriptJs => "JavaScript"
  end.

Definition asset_step (w : World) (task new_brief : string) (a : asset)
  : string -> M unit :=
  match a with
  | IndexHtml => update_index_html w task new_brief
  | StyleCss => update_style_css w task new_brief
  | ScriptJs => update_script_js w task new_brief
  end.


(** Commit message and content of the scripted fallback, and of the
    accepted LLM output. *)
Definition fallback_commit (task new_brief : string) (a : asset) (old : string)
  : string * string :=
  match a with
  | IndexHtml => ("Guaranteed HTML update for " +:+ task, merged_html new_brief old)
  | StyleCss => ("Guaranteed CSS update for " +:+ task, merged_css new_brief old)
  | ScriptJs => ("Guaranteed JS update for " +:+ task, merged_js new_brief old)
  end.

Definition llm_commit (a : asset) (updated : string) : string * string :=
  match a with
  | IndexHtml => ("Round 2: Updated HTML", updated)
  | StyleCss => ("Round 2: Updated CSS", updated)
  | ScriptJs => ("Round 2: Updated JS", updated)
  end.

(** The scripted fallback of an asset, and the line an asset step prints
    before it falls back. *)
Definition asset_fallback (w : World) (task new_brief : string) (a : asset)
  : string -> M unit :=
  match a with
  | IndexHtml => merge_html_update w task new_brief
  | StyleCss => merge_css_update w task new_brief
  | ScriptJs => merge_js_update w task new_brief
  end.

Definition asset_warning (a : asset) : string :=
  match a with
  | IndexHtml => "LLM HTML update insufficient - applying guaranteed merge."
  | StyleCss => "LLM CSS update insufficient - applying guaranteed merge."
  | ScriptJs => "LLM JS update insufficient - applying guaranteed merge."
  end.

(** The accept-or-fall-back commit of an asset step (lines 529-533,
    561-565 and 590-594). *)
Definition asset_attempt (w : World) (task new_brief : string) (a : asset)
    (repo old updated : string) : M unit :=
  if llm_update_insufficient updated old
  then print (asset_warning a) ;;; asset_fallback w task new_brief a repo
  else update_file_safely w repo (asset_path a) updated (fst (llm_commit a updated)).

(** What an asset step commits first: the scripted fallback when the test
    rejects the LLM output, the output otherwise. *)
Definition first_commit (task new_brief : string) (a : asset) (old updated : string)
  : string * string :=
  if llm_update_insufficient updated old
  then fallback_commit task new_brief a old
  else llm_commit a updated.

(** The calls of an asset step that starts in [st], up to the commit [c]
    it makes once the model has answered; the update is the last of them. *)
Definition commit_calls (st : St) (task new_brief repo : string) (a : asset)
    (old : string) (c : string * string) : list event :=
  trace st ++
  [GhGetContents repo (asset_path a); LlmEdit (asset_role a) task new_brief old;
   GhGetContents repo (asset_path a); GhUpdateFile repo (asset_path a) (fst c) (snd c)].




(** *** A concrete world, for the examples *)

(** The model answers the generation call with an index.html and a
    LICENSE of its own, and every edit call with a short paragraph; the
    callback endpoint answers 500 twice and then 200; the Pages site
    answers 404 three times and then 200, 100 ms per fetch; the platform
    refuses no update and shows a deletion at once. *)
Definition demo_world : World := {|
  user_login := "alice";
  user_name := "Alice";
  github_mit_license := "MIT License (template)";
  sha_of := fun cs => match cs with c :: _ => c_msg c | [] => EmptyString end;
  llm_generate := fun _ _ _ =>
    Some (JObj [("index.html", JStr "<html>hi</html>"); ("LICENSE", JStr "All rights reserved")]);
  llm_edit := fun _ _ _ _ => Some "<p>xy</p>";
  b64decode := fun s => Some s;
  utf8_decode_ignore := fun s => s;
  pages_enable_status := Some 201;
  post_status := fun _ k => if (k <? 2)%nat then Some 500 else Some 200;
  get_status := fun _ k => (if (k <? 3)%nat then Some 404 else Some 200, 100%nat);
  update_refused := fun _ => None;
  delete_lag := fun _ => 0%nat
|}.



Definition demo_secret : option string := Some "s3cret".

Definition demo_attachments : json :=
  JArr [JObj [("name", JStr "notes.txt");
              ("url", JStr "data:text/plain;base64,aGVsbG8=")]].

Definition demo_request (secret : string) (round_ : Z) : dict :=
  [("secret", JStr secret); ("email", JStr "a@b.c"); ("task", JStr "demo");
   ("brief", JStr "more"); ("round", JInt round_); ("nonce", JStr "n1");
   ("evaluation_url", JStr "https://eval.example/notify");
   ("attachments", demo_attachments)].

Definition empty_state : St := mkSt ∅ [] 0 [] [].

(** An index.html followed by twelve spaces. *)
Definition padded_html : string := "<p>x</p>            ".

Definition demo_repo : Repo :=
  mkRepo "demo" {["index.html" := padded_html]}
         [mkCommit "index.html" "Add index.html" padded_html].

Definition demo_state : St := mkSt {["demo" := demo_repo]} [] 0 [] [].

Definition demo_payload : Payload :=
  mkPayload (JStr "a@b.c") (JStr "demo") (JInt 1) (JStr "n1")
            "https://github.com/alice/demo" "sha" None.

(* ===================================================================== *)
(** ** Further parts of the program: [load_secrets], [repo_belongs_to_task],
       and the vocabulary of their properties *)
(* ===================================================================== *)

Inductive io_error : Type := FileNotFoundError (file_path : string).

(** [s.split(sep, 1)] for a one-character [sep]: the text before and
    after the first [sep]; [None] when [sep] does not occur. *)
Fixpoint split_first (sep : ascii) (s : string) : option (string * string) :=
  match s with
  | EmptyString => None
  | String c r =>
      if ascii_dec c sep then Some (EmptyString, r)
      else match split_first sep r with
           | Some (h, t) => Some (String c h, t)
           | None => None
           end
  end.

(** The body of the loop of [load_secrets] for one line of the file: the
    entry it adds, or [None] when the line is skipped. *)
Definition secret_line (line : string) : option (string * string) :=
  let line := PyStr.strip line in
  if String.eqb line EmptyString || PyStr.startswith line "#" then None
  else match split_first "="%char line with
       | None => None
       | Some (key, value) => Some (PyStr.strip key, PyStr.strip value)
       end.

Fixpoint load_lines (lines : list string) (secrets : gmap string string)
  : gmap string string :=
  match lines with
  | [] => secrets
  | line :: rest =>
      load_lines rest
        (match secret_line line with
         | Some (key, value) => <[key := value]> secrets
         | None => secrets
         end)
  end.

(** [load_secrets(file_path)]: [file] is the lines of the file, [None]
    when the path does not exist. *)
Definition load_secrets (file_path : string) (file : option (list string))
  : io_error + gmap string string :=
  match file with
  | None => inl (FileNotFoundError file_path)
  | Some lines => inr (load_lines lines ∅)
  end.

Fixpoint all_chars (f : ascii -> bool) (s : string) : bool :=
  match s with
  | EmptyString => true
  | String c r => f c && all_chars f r
  end.

Definition not_eq_char (a : ascii) (c : ascii) : bool :=
  if ascii_dec c a then false else true.

(** What a list of lines makes of the entry of [k]. *)
Definition defines (k : string) (line : string) : Prop :=
  exists v, secret_line line = Some (k, v).

(** [\d] on code points below 256. *)
Definition is_digit (c : ascii) : bool :=
  let n := PyStr.code c in ((48 <=? n) && (n <=? 57))%N.

(** Does [s] match [\d*$]?  [$] matches at the end of the string and
    before a newline that ends it; the result is what is left unmatched,
    nothing or that newline. *)
Fixpoint digits_to_end (s : string) : option string :=
  match s with
  | EmptyString => Some EmptyString
  | String c r =>
      if is_digit c then digits_to_end r
      else if String.eqb s nl then Some nl
      else None
  end.

(** Does [-\d+$] match at the start of [s]? *)
Definition numeric_suffix (s : string) : option string :=
  match s with
  | String c (String d r) =>
      if ascii_dec c "-"%char then
        if is_digit d then digits_to_end r else None
      else None
  | _ => None
  end.

(** [re.sub(r"-\d+$", "", s)]: the leftmost match is removed, and after
    it there is no further one. *)
Fixpoint strip_numeric_suffix (s : string) : string :=
  match s with
  | EmptyString => EmptyString
  | String c r =>
      match numeric_suffix s with
      | Some rest => rest
      | None => String c (strip_numeric_suffix r)
      end
  end.

Definition repo_belongs_to_task (repo_name task : string) : bool :=
  String.eqb (strip_numeric_suffix repo_name) task.

(** [s.replace(c, d)] for single characters. *)
Fixpoint map_chars (f : ascii -> ascii) (s : string) : string :=
  match s with
  | EmptyString => EmptyString
  | String c r => String (f c) (map_chars f r)
  end.

Definition subst_char (c d x : ascii) : ascii := if ascii_dec c x then d else x.

(** A character a repository name derived from a task never contains. *)
Definition name_char (c : ascii) : bool :=
  negb (Ascii.eqb c " " || Ascii.eqb c "/").

(** [gh_inv J m]: [m] keeps the property [J] of the hosting platform,
    whatever its outcome. *)
Definition gh_inv {A} (J : gmap string Repo -> Prop) (m : M A) : Prop :=
  forall st, J (gh st) -> J (gh (snd (m st))).

(** Invariants kept by every commit to the repository [repo]. *)
Definition commit_closed (J : gmap string Repo -> Prop) (repo : string) : Prop :=
  forall g r path msg c,
    J g -> g !! repo = Some r -> J (<[repo := committed r path msg c]> g).

(** Invariants also kept when [repo] is deleted or created afresh. *)
Definition repo_closed (J : gmap string Repo -> Prop) (repo : string) : Prop :=
  commit_closed J repo
  /\ (forall g, J g -> J (delete repo g))
  /\ (forall g r, J g -> J (<[repo := r]> g)).

(** What Round 2 keeps of a repository [r]. *)
Definition extends_repo (repo : string) (r : Repo) (g : gmap string Repo) : Prop :=
  exists r', g !! repo = Some r'
             /\ r_description r' = r_description r
             /\ (forall p, is_Some (r_files r !! p) -> is_Some (r_files r' !! p))
             /\ r_commits r `suffix_of` r_commits r'.

(** Message and content of the file an asset step creates when the asset
    is missing. *)
Definition default_commit (a : asset) : string * string :=
  match a with
  | IndexHtml => ("Initial HTML", "<h1>Hello World</h1>")
  | StyleCss => ("Add CSS", "body { font-family: sans-serif; }")
  | ScriptJs => ("Add JS", "console.log('Initial script');")
  end.

(** The README of Round 2. *)
Definition readme_commit (task new_brief : string) (exists_ : bool) : string * string :=
  if exists_
  then ("Update README for Round 2",
        "## Round 2 Update" +:+ nl +:+ nl +:+ new_brief +:+ nl +:+ nl +:+
        "This round adds all new features, design tweaks, and logic changes described in the brief.")
  else ("Add README", "# " +:+ task +:+ nl +:+ nl +:+ new_brief).


(** [enable_pages] succeeded. *)
Definition pages_ok (w : World) : bool :=
  match pages_enable_status w with
  | Some s => (s =? 200) || (s =? 201)
  | None => false
  end.

(** The world [w] with another answer to the request that enables
    Pages. *)
Definition with_pages_status (s : option Z) (w : World) : World := {|
  user_login := user_login w;
  user_name := user_name w;
  github_mit_license := github_mit_license w;
  sha_of := sha_of w;
  llm_generate := llm_generate w;
  llm_edit := llm_edit w;
  b64decode := b64decode w;
  utf8_decode_ignore := utf8_decode_ignore w;
  pages_enable_status := s;
  post_status := post_status w;
  get_status := get_status w;
  update_refused := update_refused w;
  delete_lag := delete_lag w
|}.

(** The fields [build_app] reads with [data[...]], in the order it reads
    them (lines 76-82). *)
Definition required_fields : list string :=
  ["email"; "task"; "brief"; "round"; "nonce"; "evaluation_url"].

Definition first_missing (d : dict) : option string :=
  List.find (fun k => negb (dict_mem k d)) required_fields.

(** The repository [r] is as [create_repo] made it, but for commits
    added since. *)
Definition started_fresh (w : World) (description : string) (r : Repo) : Prop :=
  r_description r = description
  /\ List.last (r_commits r) (mkCommit EmptyString EmptyString EmptyString)
     = mkCommit "LICENSE" "Initial commit" (github_mit_license w).

Definition fresh_inv (w : World) (repo description : string)
    (g : gmap string Repo) : Prop :=
  exists r, g !! repo = Some r /\ started_fresh w description r.

(** An attachment [process_attachments] can read: an object whose url,
    when it and the name are set, is text. *)
Definition readable_attachment (att : json) : Prop :=
  match att with
  | JObj d =>
      py_truthy (dict_get d "name") && py_truthy (dict_get d "url") = true ->
      exists u, dict_get d "url" = JStr u
  | _ => False
  end.

(** What [create_file] alone keeps of a repository [r]: every file, with
    its content. *)
Definition keeps_files (repo : string) (r : Repo) (g : gmap string Repo) : Prop :=
  exists r', g !! repo = Some r'
             /\ forall p c, r_files r !! p = Some c -> r_files r' !! p = Some c.

(** What the upload loop commits for the generated text [v]
    (line 308). *)
Definition upload_content (v : string) : string :=
  PyStr.strip (PyStr.replace (PyStr.replace v "```html" EmptyString) "```" EmptyString).

(** The calls of the upload loop over [app_code]: the creation of a file
    that is an entry of [app_code]. *)
Definition upload_event (repo : string) (app_code : dict) (e : event) : Prop :=
  match e with
  | GhCreateFile r path msg c =>
      r = repo /\ msg = "Add " +:+ path
      /\ PyStr.startswith path "```" = false
      /\ PyStr.strip path <> EmptyString
      /\ exists v, In (path, JStr v) app_code /\ c = upload_content v
  | _ => False
  end.

(** [fname.endswith((".yml", ".yaml"))] *)
Definition is_workflow (fname : string) : bool :=
  PyStr.endswith fname ".yml" || PyStr.endswith fname ".yaml".

(** Text with neither of the two Ruff calls [fix_common_ci_errors]
    looks for. *)
Definition no_ruff_call (content : json) : Prop :=
  exists s, content = JStr s
            /\ PyStr.contains "ruff ." s = false
            /\ PyStr.contains "ruff --fix ." s = false.

Definition entry_kept (kv kv' : string * json) : Prop :=
  fst kv' = fst kv
  /\ (is_workflow (fst kv) = false \/ no_ruff_call (snd kv) -> snd kv' = snd kv).

(* ===================================================================== *)
(** ** The string operations on examples *)
(* ===================================================================== *)

Example strip_ex : PyStr.strip "  ab c
 " = "ab c".
Proof. reflexivity. Qed.

Example replace_ex : PyStr.replace "a```html b``` c" "```" EmptyString = "ahtml b c".
Proof. reflexivity. Qed.

Example replace_overlap_ex : PyStr.replace "aaaa" "aa" "b" = "bb".
Proof. reflexivity. Qed.

Example lower_ex : PyStr.lower "<HTML Lang>" = "<html lang>".
Proof. reflexivity. Qed.


(* ===================================================================== *)
(** ** Reasoning about runs *)
(* ===================================================================== *)

Lemma bind_Ret {A B} (m : M A) (f : A -> M B) st b st' :
  bind m f st = (Ret b, st') ->
  exists a st1, m st = (Ret a, st1) /\ f a st1 = (Ret b, st').
Proof.
  unfold bind. destruct (m st) as [[a | e |] st1]; intros H; try discriminate.
  eauto.
Qed.

Lemma bind_run {A B} (m : M A) (f : A -> M B) st a st1 :
  m st = (Ret a, st1) -> bind m f st = f a st1.
Proof. intros H. unfold bind. now rewrite H. Qed.

Lemma bind_raised {A B} (m : M A) (f : A -> M B) st e st1 :
  m st = (Raised e, st1) -> bind m f st = (Raised e, st1).
Proof. intros H. unfold bind. now rewrite H. Qed.

Lemma try_run {A} (m : M A) c h st a st1 :
  m st = (Ret a, st1) -> try_except m c h st = (Ret a, st1).
Proof. intros H. unfold try_except. now rewrite H. Qed.

Lemma try_caught {A} (m : M A) c h st e st1 :
  m st = (Raised e, st1) -> c e = true -> try_except m c h st = h e st1.
Proof. intros H Hc. unfold try_except. now rewrite H, Hc. Qed.

Section RunLemmas.

Context {A B : Type}.
Variable P : event -> Prop.

Lemma emits_nothing (m : M A) :
  (forall st, trace (snd (m st)) = trace st) -> emits P m.
Proof. intros H st. exists []. rewrite H, app_nil_r. auto. Qed.

Lemma emits_ret (a : A) : emits P (ret a).
Proof. now apply emits_nothing. Qed.

Lemma emits_raise e : emits P (@raise A e).
Proof. now apply emits_nothing. Qed.

Lemma emits_diverge : emits P (@diverge A).
Proof. now apply emits_nothing. Qed.

Lemma emits_lift (r : exn + A) : emits P (lift r).
Proof. destruct r; now apply emits_nothing. Qed.

Lemma emits_bind (m : M A) (f : A -> M B) :
  emits P m -> (forall a, emits P (f a)) -> emits P (bind m f).
Proof.
  intros Hm Hf st. unfold bind.
  destruct (Hm st) as (evs & Ht & HP).
  destruct (m st) as [[a | e |] st1]; simpl in *; eauto.
  destruct (Hf a st1) as (evs' & Ht' & HP').
  exists (evs ++ evs'). rewrite Ht', Ht, app_assoc. split; [done |].
  apply Forall_app; auto.
Qed.

Lemma emits_try (m : M A) c h :
  emits P m -> (forall e, emits P (h e)) -> emits P (try_except m c h).
Proof.
  intros Hm Hh st. unfold try_except.
  destruct (Hm st) as (evs & Ht & HP).
  destruct (m st) as [[a | e |] st1]; simpl in *; eauto.
  destruct (c e); simpl; eauto.
  destruct (Hh e st1) as (evs' & Ht' & HP').
  exists (evs ++ evs'). rewrite Ht', Ht, app_assoc. split; [done |].
  apply Forall_app; auto.
Qed.

Lemma keeps_ret (a : A) : keeps_gh (ret a).
Proof. now intros st. Qed.

Lemma keeps_raise e : keeps_gh (@raise A e).
Proof. now intros st. Qed.

Lemma keeps_lift (r : exn + A) : keeps_gh (lift r).
Proof. destruct r; now intros st. Qed.

Lemma keeps_bind (m : M A) (f : A -> M B) :
  keeps_gh m -> (forall a, keeps_gh (f a)) -> keeps_gh (bind m f).
Proof.
  intros Hm Hf st. unfold bind. specialize (Hm st).
  destruct (m st) as [[a | e |] st1]; simpl in *; auto.
  now rewrite Hf.
Qed.

Lemma keeps_try (m : M A) c h :
  keeps_gh m -> (forall e, keeps_gh (h e)) -> keeps_gh (try_except m c h).
Proof.
  intros Hm Hh st. unfold try_except. specialize (Hm st).
  destruct (m st) as [[a | e |] st1]; simpl in *; auto.
  destruct (c e); simpl; auto. now rewrite Hh.
Qed.

Lemma finishes_ret (a : A) : finishes (ret a).
Proof. now intros st. Qed.

Lemma finishes_raise e : finishes (@raise A e).
Proof. now intros st. Qed.

Lemma finishes_lift (r : exn + A) : finishes (lift r).
Proof. destruct r; now intros st. Qed.

Lemma finishes_bind (m : M A) (f : A -> M B) :
  finishes m -> (forall a, finishes (f a)) -> finishes (bind m f).
Proof.
  intros Hm Hf st. unfold bind. specialize (Hm st).
  destruct (m st) as [[a | e |] st1]; simpl in *; auto. apply Hf.
Qed.

Lemma finishes_try (m : M A) c h :
  finishes m -> (forall e, finishes (h e)) -> finishes (try_except m c h).
Proof.
  intros Hm Hh st. unfold try_except. specialize (Hm st).
  destruct (m st) as [[a | e |] st1]; simpl in *; auto.
  destruct (c e); simpl; auto. apply Hh.
Qed.

Lemma returns_bind (Q : B -> Prop) (m : M A) (f : A -> M B) :
  (forall a, returns Q (f a)) -> returns Q (bind m f).
Proof.
  intros Hf st b st' H. apply bind_Ret in H as (a & st1 & _ & H).
  exact (Hf a st1 b st' H).
Qed.

End RunLemmas.

Lemma emits_emit P e : P e -> emits P (emit e).
Proof. intros H st. exists [e]. simpl. auto. Qed.

Lemma emits_print P msg : emits P (print msg).
Proof. now apply emits_nothing. Qed.

Lemma emits_when P b m : emits P m -> emits P (when b m).
Proof. destruct b; simpl; auto using emits_ret. Qed.

Lemma emits_as_str P e v : emits P (as_str e v).
Proof. destruct v; now apply emits_nothing. Qed.

Lemma emits_weaken {A} (P Q : event -> Prop) (m : M A) :
  (forall e, P e -> Q e) -> emits P m -> emits Q m.
Proof.
  intros HPQ Hm st. destruct (Hm st) as (evs & Ht & HP).
  exists evs. split; [done |]. eapply Forall_impl; eauto.
Qed.

Lemma keeps_emit e : keeps_gh (emit e).
Proof. now intros st. Qed.

Lemma keeps_print msg : keeps_gh (print msg).
Proof. now intros st. Qed.

Lemma keeps_when b m : keeps_gh m -> keeps_gh (when b m).
Proof. destruct b; simpl; auto using keeps_ret. Qed.

Lemma keeps_as_str e v : keeps_gh (as_str e v).
Proof. destruct v; now intros st. Qed.

Lemma finishes_emit e : finishes (emit e).
Proof. now intros st. Qed.

Lemma finishes_print msg : finishes (print msg).
Proof. now intros st. Qed.

Lemma finishes_as_str e v : finishes (as_str e v).
Proof. destruct v; now intros st. Qed.

Lemma bind_ret_l {A B} (a : A) (f : A -> M B) : bind (ret a) f = f a.
Proof. reflexivity. Qed.

Lemma returns_ret {A} (Q : A -> Prop) a : Q a -> returns Q (ret a).
Proof. intros H st b st' E. inversion E. now subst. Qed.

Lemma returns_raise {A} (Q : A -> Prop) e : returns Q (raise e).
Proof. intros st b st' E. discriminate. Qed.

Lemma emits_bind_r {A B} P (Q : A -> Prop) (m : M A) (f : A -> M B) :
  returns Q m -> emits P m -> (forall a, Q a -> emits P (f a)) -> emits P (bind m f).
Proof.
  intros HQ Hm Hf st. unfold bind.
  destruct (Hm st) as (evs & Ht & HP).
  destruct (m st) as [[a | e |] st1] eqn:E; simpl in *; eauto.
  destruct (Hf a (HQ _ _ _ E) st1) as (evs' & Ht' & HP').
  exists (evs ++ evs'). rewrite Ht', Ht, app_assoc. split; [done |].
  apply Forall_app; auto.
Qed.

Lemma emits_get_gh P : emits P get_gh.
Proof. now apply emits_nothing. Qed.
Lemma emits_get_trace P : emits P get_trace.
Proof. now apply emits_nothing. Qed.
Lemma emits_set_gh P g : emits P (set_gh g).
Proof. now apply emits_nothing. Qed.
Lemma emits_time_time P : emits P time_time.
Proof. now apply emits_nothing. Qed.
Lemma emits_advance P ms : emits P (advance ms).
Proof. now apply emits_nothing. Qed.

Lemma keeps_get_gh : keeps_gh get_gh.
Proof. now intros st. Qed.
Lemma keeps_get_trace : keeps_gh get_trace.
Proof. now intros st. Qed.
Lemma keeps_time_time : keeps_gh time_time.
Proof. now intros st. Qed.
Lemma keeps_advance ms : keeps_gh (advance ms).
Proof. now intros st. Qed.

(** Decompose [emits P m] along the structure of [m]; what is left are
    the goals [P e] of the events [m] can emit, and the loops. *)
Ltac emits_step :=
  first
    [ apply emits_ret | apply emits_raise | apply emits_diverge
    | apply emits_print | apply emits_lift | apply emits_as_str
    | apply emits_get_gh | apply emits_set_gh | apply emits_get_trace
    | apply emits_time_time | apply emits_advance
    | apply emits_when
    | apply emits_bind; [| intros ?]
    | apply emits_try; [| intros ?]
    | apply emits_emit
    | match goal with
      | |- emits _ (if ?b then _ else _) => destruct b
      | |- emits _ (match ?x with _ => _ end) => destruct x
      end ].

Ltac emits_tac := repeat emits_step.

Ltac keeps_step :=
  first
    [ apply keeps_ret | apply keeps_raise
    | apply keeps_print | apply keeps_lift | apply keeps_as_str
    | apply keeps_get_gh | apply keeps_get_trace
    | apply keeps_time_time | apply keeps_advance
    | apply keeps_emit | apply keeps_when
    | apply keeps_bind; [| intros ?]
    | apply keeps_try; [| intros ?]
    | match goal with
      | |- keeps_gh (if ?b then _ else _) => destruct b
      | |- keeps_gh (match ?x with _ => _ end) => destruct x
      end ].

Ltac keeps_tac := repeat keeps_step.

Section Emits.

Variable w : World.
Variable P : event -> Prop.

Hypothesis P_sleep : forall s, P (Sleep s).

Lemma emits_time_sleep s : emits P (time_sleep s).
Proof. unfold time_sleep. emits_tac. apply P_sleep. Qed.

Lemma emits_pages_poll url (Hget : P (HttpGet url 5)) fuel : forall start max_wait k,
  emits P (pages_poll w fuel url start max_wait k).
Proof.
  induction fuel as [| fuel IH]; intros start max_wait k; simpl.
  - apply emits_diverge.
  - apply emits_bind; [apply emits_time_time | intros t].
    destruct (t - start <? max_wait * 1000); [| emits_tac].
    apply emits_bind.
    + unfold requests_get. destruct (get_status w url k). emits_tac. exact Hget.
    + intros r. destruct (is_200 r); [emits_tac |].
      apply emits_bind; [apply emits_time_sleep | intros _; apply IH].
Qed.

Lemma emits_wait_for_pages_ready url (Hget : P (HttpGet url 5)) :
  emits P (wait_for_pages_ready w url).
Proof.
  unfold wait_for_pages_ready, wait_for_pages_ready_within.
  apply emits_bind; [apply emits_print | intros _].
  apply emits_bind; [apply emits_time_time | intros start].
  now apply emits_pages_poll.
Qed.


Lemma emits_get_repo name (Hp : P (GhGetRepo name)) : emits P (get_repo name).
Proof. unfold get_repo. emits_tac. exact Hp. Qed.

Lemma emits_the_repo repo : emits P (the_repo repo).
Proof. unfold the_repo. emits_tac. Qed.

Lemma emits_get_contents repo path (Hp : P (GhGetContents repo path)) :
  emits P (get_contents repo path).
Proof. unfold get_contents, the_repo. emits_tac. exact Hp. Qed.

Lemma emits_create_file repo path msg c (Hp : P (GhCreateFile repo path msg c)) :
  emits P (create_file repo path msg c).
Proof. unfold create_file, the_repo, commit. emits_tac. exact Hp. Qed.

Lemma emits_update_file repo path msg c (Hp : P (GhUpdateFile repo path msg c)) :
  emits P (update_file w repo path msg c).
Proof. unfold update_file, the_repo, commit. emits_tac. exact Hp. Qed.

Lemma emits_latest_commit_sha repo (Hp : P (GhGetCommits repo)) :
  emits P (latest_commit_sha w repo).
Proof. unfold latest_commit_sha, the_repo. emits_tac. exact Hp. Qed.

Lemma emits_deletion_wait name (Hp : P (GhGetRepo name)) n : forall k,
  emits P (deletion_wait w n k name).
Proof.
  induction n as [| n IH]; intros k; simpl; [apply emits_ret |].
  apply emits_bind; [apply emits_time_sleep | intros _].
  apply emits_bind; [unfold deletion_shows; emits_tac | intros _].
  apply emits_bind.
  - apply emits_try.
    + apply emits_bind; [now apply emits_get_repo | intros; apply emits_ret].
    + intros e. apply emits_bind; [apply emits_print | intros _].
      apply emits_bind; [apply emits_time_sleep | intros; apply emits_ret].
  - intros gone. destruct gone; [apply emits_ret |].
    apply emits_bind; [apply emits_print | intros _; apply IH].
Qed.

Lemma emits_fix_common_ci_errors d : emits P (fix_common_ci_errors d).
Proof.
  induction d as [| [fname content] d IH]; simpl; [apply emits_ret |].
  apply emits_bind; [| intros c; apply emits_bind; [exact IH | intros; apply emits_ret]].
  unfold fix_entry. emits_tac.
Qed.

End Emits.

Lemma dict_pop_lookup k d : dict_lookup k (dict_pop k d) = None.
Proof.
  induction d as [| [k' v] d IH]; simpl; [done |].
  destruct (String.eqb_spec k k'); simpl; [done |].
  destruct (String.eqb_spec k k'); [done | exact IH].
Qed.

Lemma dict_lookup_None_keys k d :
  dict_lookup k d = None -> Forall (fun kv => fst kv <> k) d.
Proof.
  induction d as [| [k' v] d IH]; simpl; intros H; [constructor |].
  destruct (String.eqb_spec k k'); [discriminate |].
  constructor; [simpl; congruence | auto].
Qed.

Lemma dict_keys_lookup_None k d :
  Forall (fun kv => fst kv <> k) d -> dict_lookup k d = None.
Proof.
  induction 1 as [| [k' v] d Hk _ IH]; simpl; [done |].
  destruct (String.eqb_spec k k'); [| exact IH]. simpl in Hk. congruence.
Qed.

Lemma same_keys_lookup_None k (d d' : dict) :
  map fst d' = map fst d -> dict_lookup k d = None -> dict_lookup k d' = None.
Proof.
  intros Hk Hd. apply dict_keys_lookup_None.
  apply (proj1 (List.Forall_map fst (fun x => x <> k) d')).
  rewrite Hk. apply List.Forall_map. now apply dict_lookup_None_keys.
Qed.

Lemma strip_license_lookup app_code :
  returns (fun d => dict_lookup "LICENSE" d = None) (strip_license app_code).
Proof.
  intros st d st' H.
  destruct app_code; simpl in H; try discriminate.
  - unfold bind in H. destruct (existsb _ l); discriminate.
  - unfold dict_mem in H.
    destruct (dict_lookup "LICENSE" d0) eqn:Hl.
    + inversion H. subst. apply dict_pop_lookup.
    + inversion H. now subst.
Qed.

Lemma strip_license_keys app_code :
  returns (fun d => Forall (fun kv => fst kv <> "LICENSE") d) (strip_license app_code).
Proof.
  intros st d st' H. apply dict_lookup_None_keys.
  exact (strip_license_lookup app_code st d st' H).
Qed.

Lemma fix_common_ci_errors_keys d :
  returns (fun d' => map fst d' = map fst d) (fix_common_ci_errors d).
Proof.
  induction d as [| [fname content] d IH]; simpl.
  - apply returns_ret. reflexivity.
  - intros st d' st' H.
    apply bind_Ret in H as (c & s1 & _ & H).
    apply bind_Ret in H as (r' & s2 & Hr & H).
    inversion H. subst. simpl. f_equal. exact (IH _ _ _ Hr).
Qed.

Section License.

Variable w : World.
Let mit := get_mit_license (user_name w).
Let P := license_event mit.

Lemma P_sleep s : P (Sleep s).
Proof. exact I. Qed.

Lemma emits_upload_all repo d :
  Forall (fun kv => fst kv <> "LICENSE") d ->
  forall seen, emits P (upload_all repo seen d).
Proof.
  induction 1 as [| [filename content] d Hk Hd IH]; intros seen; simpl.
  - apply emits_ret.
  - apply emits_bind; [| intros seen'; apply IH].
    unfold upload_one.
    destruct (_ || _); [apply emits_ret |].
    repeat (apply emits_bind; [first [apply emits_lift | apply emits_as_str] | intros ?]).
    repeat (apply emits_bind; [apply emits_when; apply emits_print | intros ?]).
    apply emits_bind; [| intros ?; emits_tac].
    apply emits_create_file. simpl in *. intros Hl. contradiction.
Qed.

Lemma emits_write_license repo : emits P (write_license w repo).
Proof.
  unfold write_license. apply emits_try.
  - apply emits_bind; [now apply emits_get_contents | intros _].
    apply emits_bind; [| intros; apply emits_print].
    apply emits_update_file. now intros _.
  - intros _. apply emits_bind; [| intros; apply emits_print].
    apply emits_create_file. now intros _.
Qed.

Lemma emits_enable_pages repo : emits P (enable_pages w repo).
Proof. unfold enable_pages. emits_tac; exact I. Qed.

Lemma emits_delete_repo_if_exists name : emits P (delete_repo_if_exists w name).
Proof.
  unfold delete_repo_if_exists. apply emits_try; [| intros; apply emits_ret].
  apply emits_bind; [now apply emits_get_repo | intros repo].
  apply emits_bind; [unfold repo_delete, the_repo; emits_tac; exact I | intros _].
  apply emits_bind; [apply emits_print | intros _].
  apply emits_deletion_wait; [exact P_sleep | exact I].
Qed.

Lemma emits_create_and_deploy_repo task app_code brief :
  emits P (create_and_deploy_repo w task app_code brief JNull).
Proof.
  unfold create_and_deploy_repo.
  apply emits_bind.
  { apply emits_try; [| intros; apply emits_ret].
    apply emits_bind; [now apply emits_get_repo | intros; apply emits_delete_repo_if_exists]. }
  intros _. apply emits_bind; [apply emits_print | intros _].
  apply emits_bind; [unfold create_repo; emits_tac; exact I | intros repo].
  eapply emits_bind_r; [apply strip_license_keys | | intros d Hd].
  { unfold strip_license. emits_tac. }
  eapply emits_bind_r;
    [apply fix_common_ci_errors_keys | apply emits_fix_common_ci_errors | intros d' Hd'].
  apply emits_bind.
  { apply emits_upload_all.
    apply (proj1 (List.Forall_map fst (fun k => k <> "LICENSE") d')).
    rewrite Hd'. now apply List.Forall_map. }
  intros _. simpl when.
  apply emits_bind; [apply emits_ret | intros _].
  apply emits_bind; [now apply emits_emit | intros _].
  apply emits_bind; [apply emits_the_repo | intros r].
  apply emits_bind; [apply emits_print | intros _].
  apply emits_bind; [apply emits_write_license | intros _].
  apply emits_bind; [apply emits_enable_pages | intros pages_url].
  apply emits_bind; [now apply emits_latest_commit_sha | intros sha].
  apply emits_bind; [apply emits_print | intros _].
  apply emits_bind; [apply emits_print | intros _].
  apply emits_bind; [| intros; apply emits_ret].
  destruct pages_url as [u |]; [| apply emits_ret].
  destruct (String.eqb u EmptyString); [apply emits_ret |].
  apply emits_bind; [| intros; apply emits_ret].
  apply emits_wait_for_pages_ready; [exact P_sleep | exact I].
Qed.

End License.

Lemma keeps_sleep s : keeps_gh (time_sleep s).
Proof. unfold time_sleep. keeps_tac. Qed.

Lemma keeps_pages_poll w url fuel : forall start max_wait k,
  keeps_gh (pages_poll w fuel url start max_wait k).
Proof.
  induction fuel as [| fuel IH]; intros start max_wait k; simpl.
  - now intros st.
  - apply keeps_bind; [apply keeps_time_time | intros t].
    destruct (t - start <? max_wait * 1000); [| keeps_tac].
    apply keeps_bind.
    + unfold requests_get. destruct (get_status w url k). keeps_tac.
    + intros r. destruct (is_200 r); [keeps_tac |].
      apply keeps_bind; [apply keeps_sleep | intros _; apply IH].
Qed.

Lemma keeps_wait_for_pages_ready w url : keeps_gh (wait_for_pages_ready w url).
Proof.
  unfold wait_for_pages_ready, wait_for_pages_ready_within.
  apply keeps_bind; [apply keeps_print | intros _].
  apply keeps_bind; [apply keeps_time_time | intros start].
  apply keeps_pages_poll.
Qed.

Lemma keeps_the_repo repo : keeps_gh (the_repo repo).
Proof. unfold the_repo. keeps_tac. Qed.

Lemma keeps_enable_pages w repo : keeps_gh (enable_pages w repo).
Proof. unfold enable_pages. keeps_tac. Qed.

Lemma keeps_latest_commit_sha w repo : keeps_gh (latest_commit_sha w repo).
Proof. unfold latest_commit_sha, the_repo. keeps_tac. Qed.

Lemma keeps_run {A} (m : M A) st o st' : keeps_gh m -> m st = (o, st') -> gh st' = gh st.
Proof. intros Hk E. specialize (Hk st). now rewrite E in Hk. Qed.

Lemma update_file_post w repo path msg c st st' :
  update_file w repo path msg c st = (Ret tt, st') ->
  exists r, gh st' !! repo = Some r /\ r_files r !! path = Some c.
Proof.
  unfold update_file, bind, emit, the_repo, get_gh, get_trace, commit. cbn.
  destruct (gh st !! repo) as [r |]; cbn; [| discriminate].
  destruct (r_files r !! path); cbn; [| discriminate].
  destruct (update_refused w _); cbn; [discriminate |].
  intros [= <-]. cbn. rewrite lookup_insert_eq. eexists. split; [done |].
  cbn. apply lookup_insert_eq.
Qed.

Lemma create_file_post repo path msg c st st' :
  create_file repo path msg c st = (Ret tt, st') ->
  exists r, gh st' !! repo = Some r /\ r_files r !! path = Some c.
Proof.
  unfold create_file, bind, emit, the_repo, get_gh, commit. cbn.
  destruct (gh st !! repo) as [r |]; cbn; [| discriminate].
  destruct (r_files r !! path); cbn; [discriminate |].
  intros [= <-]. cbn. rewrite lookup_insert_eq. eexists. split; [done |].
  cbn. apply lookup_insert_eq.
Qed.

Lemma create_repo_returns w name desc :
  returns (fun repo => repo = name) (create_repo w name desc).
Proof.
  intros st a st'. unfold create_repo, bind, emit, get_gh. cbn.
  destruct (gh st !! name); cbn; [discriminate |]. now intros [= <- _].
Qed.

Lemma write_license_post w repo st st' :
  write_license w repo st = (Ret tt, st') ->
  has_license (get_mit_license (user_name w)) repo st'.
Proof.
  unfold write_license, try_except.
  destruct (bind (get_contents repo "LICENSE") _ st) as [[[] | e |] s1] eqn:E1.
  - intros [= <-].
    apply bind_Ret in E1 as (c & s2 & _ & E1).
    apply bind_Ret in E1 as ([] & s3 & Hu & E1).
    inversion E1. subst. apply update_file_post in Hu. exact Hu.
  - destruct (is_UnknownObjectException e); [| discriminate].
    intros H. apply bind_Ret in H as ([] & s3 & Hc & H).
    inversion H. subst. apply create_file_post in Hc. exact Hc.
  - discriminate.
Qed.

Ltac inv_bind H :=
  lazymatch type of H with
  | bind _ _ _ = (Ret _, _) =>
      let a := fresh "a" in
      let s := fresh "s" in
      let E := fresh "Hrun" in
      apply bind_Ret in H as (a & s & E & H); inv_bind H
  | _ => idtac
  end.

Lemma create_and_deploy_repo_license w task app_code brief atts st res st' :
  create_and_deploy_repo w task app_code brief atts st = (Ret res, st') ->
  has_license (get_mit_license (user_name w)) (safe_task task) st'.
Proof.
  intros H. unfold create_and_deploy_repo in H. inv_bind H.
  inversion H. subst. clear H.
  repeat match goal with u : unit |- _ => destruct u end.
  match goal with
  | H : create_repo _ _ _ _ = _ |- _ => apply create_repo_returns in H; subst
  end.
  match goal with
  | H : write_license _ _ _ = _ |- _ =>
      apply write_license_post in H; destruct H as (r & Hr & Hl)
  end.
  assert (Hwait : forall (pages_url : option string) x o x',
             match pages_url with
             | Some u => if String.eqb u EmptyString then ret tt
                         else wait_for_pages_ready w u ;;; ret tt
             | None => ret tt
             end x = (o, x') -> gh x' = gh x).
  { intros pages_url x o x' Hm. refine (keeps_run _ _ _ _ _ Hm).
    destruct pages_url as [u |]; [| apply keeps_ret].
    destruct (String.eqb u EmptyString); [apply keeps_ret |].
    apply keeps_bind; [apply keeps_wait_for_pages_ready | intros; apply keeps_ret]. }
  repeat match goal with
         | H : enable_pages _ _ _ = _ |- _ =>
             apply (keeps_run _ _ _ _ (keeps_enable_pages _ _)) in H
         | H : latest_commit_sha _ _ _ = _ |- _ =>
             apply (keeps_run _ _ _ _ (keeps_latest_commit_sha _ _)) in H
         | H : print _ _ = _ |- _ =>
             apply (keeps_run _ _ _ _ (keeps_print _)) in H
         | H : match _ with Some _ => _ | None => _ end _ = _ |- _ =>
             apply Hwait in H
         end.
  exists r. split; [| exact Hl]. rewrite <- Hr. f_equal. congruence.
Qed.

(* ===================================================================== *)
(** ** The secret check and the dispatch on the round *)
(* ===================================================================== *)

Lemma py_ne_env_spec v o : py_ne_env v o = true <-> v <> of_env o.
Proof.
  destruct v, o; simpl; try (split; [discriminate | reflexivity]);
    try (split; [intros _; discriminate | reflexivity]);
    try (split; [discriminate | congruence]).
  - destruct (String.eqb_spec s s0); simpl; split; try congruence.
Qed.

Lemma pipeline_responses w fuel d : returns ok_response (pipeline w fuel d).
Proof.
  unfold pipeline.
  repeat (apply returns_bind; intros).
  repeat match goal with
         | |- returns _ (if ?b then _ else _) => destruct b
         | |- returns _ (bind _ _) => apply returns_bind; intros
         | |- returns _ (ret _) => apply returns_ret; unfold ok_response; auto
         end.
Qed.

Lemma reject_run w S fuel d st :
  py_ne_env (dict_get d "secret") S = true ->
  build_app w S fuel (JObj d) st = (Ret (Some invalid_secret), st).
Proof. intros H. unfold build_app. now rewrite H. Qed.

Lemma local_bind {A B} (m : M A) (f : A -> M B) :
  local_step m -> (forall a, local_step (f a)) -> local_step (bind m f).
Proof.
  intros (H1 & H2 & H3) Hf. split; [| split].
  - apply emits_bind; [done | intros a; apply Hf].
  - apply keeps_bind; [done | intros a; apply Hf].
  - apply finishes_bind; [done | intros a; apply Hf].
Qed.

Lemma local_ret {A} (a : A) : local_step (ret a).
Proof. split; [| split]; [apply emits_ret | apply keeps_ret | apply finishes_ret]. Qed.

Lemma local_raise {A} e : local_step (@raise A e).
Proof. split; [| split]; [apply emits_raise | apply keeps_raise | apply finishes_raise]. Qed.

Lemma local_lift {A} (r : exn + A) : local_step (lift r).
Proof. destruct r; [apply local_raise | apply local_ret]. Qed.

Lemma local_as_str e v : local_step (as_str e v).
Proof. destruct v; simpl; auto using local_raise, local_ret. Qed.

Lemma local_item d k : local_step (item d k).
Proof. unfold item. destruct (dict_lookup k d); auto using local_raise, local_ret. Qed.

Lemma local_emit e : local_event e -> local_step (emit e).
Proof.
  intros H. split; [| split]; [now apply emits_emit | apply keeps_emit | apply finishes_emit].
Qed.

Lemma local_write_file n b : local_step (write_file n b).
Proof.
  unfold write_file. apply local_bind; [now apply local_emit |].
  intros _. split; [| split]; try now intros st.
  now apply emits_nothing.
Qed.

Ltac local_tac :=
  repeat match goal with
         | |- local_step (bind _ _) => apply local_bind; [| intros]
         | |- local_step (ret _) => apply local_ret
         | |- local_step (raise _) => apply local_raise
         | |- local_step (lift _) => apply local_lift
         | |- local_step (as_str _ _) => apply local_as_str
         | |- local_step (item _ _) => apply local_item
         | |- local_step (write_file _ _) => apply local_write_file
         | |- local_step (emit _) => apply local_emit; exact I
         | |- local_step (if ?b then _ else _) => destruct b
         | |- local_step (match ?x with _ => _ end) => destruct x
         end.

Lemma local_save_attachments w l : local_step (save_attachments w l).
Proof.
  induction l as [| file l IH]; simpl; [apply local_ret |].
  apply local_bind; [| intros; exact IH].
  unfold save_attachment. local_tac.
Qed.

Lemma local_generate w brief checks atts :
  local_step (generate_minimal_app w brief checks atts).
Proof. unfold generate_minimal_app. local_tac. Qed.


(* ===================================================================== *)
(** ** The callback loop and the readiness poll *)
(* ===================================================================== *)

Lemma is_200_false r : r <> Some 200 -> is_200 r = false.
Proof.
  destruct r as [s |]; simpl; [| done].
  intros H. apply Z.eqb_neq. congruence.
Qed.

Example retry_delays :
  map retry_delay [1; 2; 3; 4; 5; 6; 7; 8; 9]%nat = [1; 2; 4; 8; 16; 32; 60; 60; 60].
Proof. reflexivity. Qed.

Lemma retry_delay_next k : Z.min (retry_delay (S k) * 2) 60 = retry_delay (S (S k)).
Proof.
  unfold retry_delay.
  replace (Z.of_nat (S (S k)) - 1) with (Z.succ (Z.of_nat (S k) - 1)) by lia.
  rewrite Z.pow_succ_r by lia. lia.
Qed.

Section Notifier.
Variable w : World.
Variable url : json.
Variable p : Payload.

Lemma callback_loop_success fuel k delay st :
  post_status w url k = Some 200 ->
  exists st', callback_loop w (S fuel) url p k delay st = (Ret tt, st')
              /\ trace st' = trace st ++ [HttpPost url p 10]
              /\ gh st' = gh st.
Proof.
  intros H. simpl. unfold bind, requests_post, emit, ret; simpl. rewrite H.
  eexists. split; [reflexivity |]. simpl. auto.
Qed.

Lemma callback_loop_retry fuel k delay st :
  post_status w url k <> Some 200 ->
  exists st1,
    callback_loop w (S fuel) url p k delay st
    = callback_loop w fuel url p (S k) (Z.min (delay * 2) 60) st1
    /\ trace st1 = trace st ++ [HttpPost url p 10; Sleep delay]
    /\ gh st1 = gh st.
Proof.
  intros H. apply is_200_false in H.
  cbn [callback_loop]. unfold bind at 1. unfold requests_post at 1.
  unfold bind at 1. simpl. rewrite H.
  destruct (post_status w url k) as [s |]; simpl;
    (eexists; split; [reflexivity | simpl; rewrite <- app_assoc; auto]).
Qed.

Lemma callback_loop_returns n : forall fuel k st,
  post_status w url (k + n) = Some 200 ->
  (forall j, (j < n)%nat -> post_status w url (k + j) <> Some 200) ->
  (n < fuel)%nat ->
  exists st', callback_loop w fuel url p k (retry_delay (S k)) st = (Ret tt, st')
              /\ trace st' = trace st ++ failed_attempts url p k n ++ [HttpPost url p 10]
              /\ gh st' = gh st.
Proof.
  induction n as [| n IH]; intros fuel k st H200 Hbefore Hfuel.
  - destruct fuel as [| fuel]; [lia |]. rewrite Nat.add_0_r in H200.
    now apply callback_loop_success.
  - destruct fuel as [| fuel]; [lia |].
    destruct (callback_loop_retry fuel k (retry_delay (S k)) st) as (st1 & E & Ht & Hg).
    { specialize (Hbefore O). rewrite Nat.add_0_r in Hbefore. apply Hbefore. lia. }
    rewrite E, retry_delay_next.
    destruct (IH fuel (S k) st1) as (st' & E' & Ht' & Hg').
    { now replace (S k + n)%nat with (k + S n)%nat by lia. }
    { intros j Hj. replace (S k + j)%nat with (k + S j)%nat by lia. apply Hbefore. lia. }
    { lia. }
    exists st'. split; [done |]. split; [| congruence].
    rewrite Ht', Ht. simpl. now rewrite <- app_assoc.
Qed.

Lemma callback_loop_diverges fuel : forall k st,
  (forall j, (j < fuel)%nat -> post_status w url (k + j) <> Some 200) ->
  exists st', callback_loop w fuel url p k (retry_delay (S k)) st = (Diverged, st')
              /\ trace st' = trace st ++ failed_attempts url p k fuel
              /\ gh st' = gh st.
Proof.
  induction fuel as [| fuel IH]; intros k st Hnever.
  - exists st. simpl. rewrite app_nil_r. auto.
  - destruct (callback_loop_retry fuel k (retry_delay (S k)) st) as (st1 & E & Ht & Hg).
    { specialize (Hnever O). rewrite Nat.add_0_r in Hnever. apply Hnever. lia. }
    rewrite E, retry_delay_next.
    destruct (IH (S k) st1) as (st' & E' & Ht' & Hg').
    { intros j Hj. replace (S k + j)%nat with (k + S j)%nat by lia. apply Hnever. lia. }
    exists st'. split; [done |]. split; [| congruence].
    rewrite Ht', Ht. simpl. now rewrite <- app_assoc.
Qed.

(** Among the first [n] attempts, either none answers 200 or there is a
    first one that does. *)
Lemma first_200 n :
  (forall j, (j < n)%nat -> post_status w url j <> Some 200)
  \/ exists m, (m < n)%nat /\ post_status w url m = Some 200
               /\ forall j, (j < m)%nat -> post_status w url j <> Some 200.
Proof.
  induction n as [| n [IH | (m & Hm & H200 & Hb)]].
  - left. intros j Hj. lia.
  - destruct (decide (post_status w url n = Some 200)) as [E | E].
    + right. exists n. auto.
    + left. intros j Hj. destruct (decide (j = n)) as [-> | ?]; [done |]. apply IH. lia.
  - right. exists m. split; [lia | auto].
Qed.

End Notifier.

(** C6.  The callback notifier POSTs the payload with a 10 second timeout
    per attempt and has no bound on the number of attempts.  If attempt [n]
    (counted from 0) is the first to answer 200, the loop returns after
    exactly [n] failed attempts, each a POST followed by a sleep of
    [retry_delay k = min(2^(k-1), 60)] seconds before retry [k]; if none of
    the first [fuel] attempts answers 200 the loop is still running after
    [fuel] attempts.  So it terminates if and only if some attempt answers
    200. *)
Theorem C6_callback_notifier w url p st :
  (forall n fuel,
      post_status w url n = Some 200 ->
      (forall j, (j < n)%nat -> post_status w url j <> Some 200) ->
      (n < fuel)%nat ->
      exists st', notify w fuel url p st = (Ret tt, st')
                  /\ trace st' = trace st ++ failed_attempts url p 0 n ++ [HttpPost url p 10])
  /\ (forall fuel,
         (forall j, (j < fuel)%nat -> post_status w url j <> Some 200) ->
         exists st', notify w fuel url p st = (Diverged, st')
                     /\ trace st' = trace st ++ failed_attempts url p 0 fuel)
  /\ ((exists fuel st', notify w fuel url p st = (Ret tt, st'))
      <-> exists n, post_status w url n = Some 200).
Proof.
  split; [| split].
  - intros n fuel H200 Hb Hf.
    destruct (callback_loop_returns w url p n fuel O st) as (st' & E & Ht & _); auto.
    exists st'. auto.
  - intros fuel Hnever.
    destruct (callback_loop_diverges w url p fuel O st) as (st' & E & Ht & _); auto.
    exists st'. auto.
  - split.
    + intros (fuel & st' & E).
      destruct (first_200 w url fuel) as [Hnever | (m & _ & H200 & _)]; [| eauto].
      destruct (callback_loop_diverges w url p fuel O st) as (st2 & E2 & _); auto.
      unfold notify in E. change 1 with (retry_delay 1) in E. congruence.
    + intros (n & H200).
      destruct (first_200 w url (S n)) as [Hnever | (m & Hm & H200' & Hb)].
      * exfalso. apply (Hnever n); [lia | done].
      * destruct (callback_loop_returns w url p m (S m) O st) as (st' & E & _); auto.
        exists (S m), st'. exact E.
Qed.

Section Poller.
Variable w : World.
Variable url : string.

Lemma elapsed_step k : 3000 <= elapsed w url (S k) - elapsed w url k.
Proof. simpl. unfold fetch_ms. lia. Qed.

Lemma elapsed_mono k n : elapsed w url k + 3000 * Z.of_nat n <= elapsed w url (k + n).
Proof.
  induction n as [| n IH]; [rewrite Nat.add_0_r; lia |].
  replace (k + S n)%nat with (S (k + n)) by lia.
  pose proof (elapsed_step (k + n)). lia.
Qed.

Variables start max_wait : Z.

Lemma poll_live fuel k st :
  now st - start < max_wait * 1000 ->
  fetch_status w url k = Some 200 ->
  exists st', pages_poll w (S fuel) url start max_wait k st = (Ret true, st')
              /\ trace st' = trace st ++ [HttpGet url 5]
              /\ gh st' = gh st.
Proof.
  intros Hb H. cbn [pages_poll]. unfold bind at 1. simpl.
  apply Z.ltb_lt in Hb. rewrite Hb.
  unfold bind at 1. unfold requests_get. unfold fetch_status in H.
  destruct (get_status w url k) as [r ms]. simpl in H. subst r.
  simpl. eexists. split; [reflexivity |]. simpl. auto.
Qed.

Lemma poll_retry fuel k st :
  now st - start < max_wait * 1000 ->
  fetch_status w url k <> Some 200 ->
  exists st1,
    pages_poll w (S fuel) url start max_wait k st
    = pages_poll w fuel url start max_wait (S k) st1
    /\ trace st1 = trace st ++ [HttpGet url 5; Sleep 3]
    /\ now st1 = now st + fetch_ms w url k + 3000
    /\ gh st1 = gh st.
Proof.
  intros Hb H. cbn [pages_poll]. unfold bind at 1. simpl.
  apply Z.ltb_lt in Hb. rewrite Hb.
  unfold bind at 1. unfold requests_get. unfold fetch_status, fetch_ms in *.
  destruct (get_status w url k) as [r ms]. simpl in H.
  apply is_200_false in H. simpl. rewrite H.
  eexists. split; [reflexivity |]. simpl. rewrite <- app_assoc. repeat split; lia.
Qed.

Lemma poll_timeout fuel k st :
  max_wait * 1000 <= now st - start ->
  exists st', pages_poll w (S fuel) url start max_wait k st = (Ret false, st')
              /\ trace st' = trace st /\ now st' = now st /\ gh st' = gh st.
Proof.
  intros Hb. cbn [pages_poll]. unfold bind at 1. simpl.
  apply Z.ltb_ge in Hb. rewrite Hb. simpl. eexists. split; [reflexivity |]. auto.
Qed.

Lemma pages_poll_success n : forall fuel k st,
  now st - start = elapsed w url k ->
  fetch_status w url (k + n) = Some 200 ->
  (forall j, (j < n)%nat -> fetch_status w url (k + j) <> Some 200) ->
  elapsed w url (k + n) < max_wait * 1000 ->
  (n < fuel)%nat ->
  exists st', pages_poll w fuel url start max_wait k st = (Ret true, st')
              /\ trace st' = trace st ++ poll_rounds url n ++ [HttpGet url 5]
              /\ gh st' = gh st.
Proof.
  induction n as [| n IH]; intros fuel k st Hnow H200 Hb Hin Hfuel;
    (destruct fuel as [| fuel]; [lia |]).
  - rewrite Nat.add_0_r in *. apply poll_live; [lia | done].
  - pose proof (elapsed_mono k (S n)).
    destruct (poll_retry fuel k st) as (st1 & E & Ht & Hn & Hg); [lia | |].
    { specialize (Hb O). rewrite Nat.add_0_r in Hb. apply Hb. lia. }
    rewrite E.
    destruct (IH fuel (S k) st1) as (st' & E' & Ht' & Hg').
    { simpl. lia. }
    { now replace (S k + n)%nat with (k + S n)%nat by lia. }
    { intros j Hj. replace (S k + j)%nat with (k + S j)%nat by lia. apply Hb. lia. }
    { now replace (S k + n)%nat with (k + S n)%nat by lia. }
    { lia. }
    exists st'. split; [done |]. split; [| congruence].
    rewrite Ht', Ht. simpl. now rewrite <- app_assoc.
Qed.

Lemma pages_poll_exhausted n : forall fuel k st,
  now st - start = elapsed w url k ->
  (forall j, (j < n)%nat ->
             fetch_status w url (k + j) <> Some 200 /\ elapsed w url (k + j) < max_wait * 1000) ->
  max_wait * 1000 <= elapsed w url (k + n) ->
  (n < fuel)%nat ->
  exists st', pages_poll w fuel url start max_wait k st = (Ret false, st')
              /\ trace st' = trace st ++ poll_rounds url n
              /\ now st' - start = elapsed w url (k + n)
              /\ gh st' = gh st.
Proof.
  induction n as [| n IH]; intros fuel k st Hnow Hb Hout Hfuel;
    (destruct fuel as [| fuel]; [lia |]).
  - rewrite Nat.add_0_r in *.
    destruct (poll_timeout fuel k st) as (st' & E & Ht & Hn & Hg); [lia |].
    exists st'. rewrite app_nil_r. repeat split; auto; lia.
  - destruct (Hb O) as [H0 H0']; [lia |]. rewrite Nat.add_0_r in H0, H0'.
    destruct (poll_retry fuel k st) as (st1 & E & Ht & Hn & Hg); [lia | done |].
    rewrite E.
    destruct (IH fuel (S k) st1) as (st' & E' & Ht' & Hn' & Hg').
    { simpl. lia. }
    { intros j Hj. replace (S k + j)%nat with (k + S j)%nat by lia. apply Hb. lia. }
    { now replace (S k + n)%nat with (k + S n)%nat by lia. }
    { lia. }
    exists st'. split; [done |].
    replace (k + S n)%nat with (S k + n)%nat by lia.
    repeat split; auto; try congruence.
    rewrite Ht', Ht. simpl. now rewrite <- app_assoc.
Qed.

(** Scanning the fetches in order, one of three things comes first: a
    200 within the budget, or the budget running out. *)
Lemma poll_outcome n :
  (exists m, (m < n)%nat /\ fetch_status w url m = Some 200
             /\ elapsed w url m < max_wait * 1000
             /\ forall j, (j < m)%nat -> fetch_status w url j <> Some 200)
  \/ (exists m, (m < n)%nat /\ max_wait * 1000 <= elapsed w url m
                /\ forall j, (j < m)%nat ->
                     fetch_status w url j <> Some 200 /\ elapsed w url j < max_wait * 1000)
  \/ (forall j, (j < n)%nat ->
        fetch_status w url j <> Some 200 /\ elapsed w url j < max_wait * 1000).
Proof.
  induction n as [| n [IH | [IH | IH]]].
  - right. right. intros j Hj. lia.
  - left. destruct IH as (m & Hm & H). exists m. split; [lia | done].
  - right. left. destruct IH as (m & Hm & H). exists m. split; [lia | done].
  - destruct (Z_lt_le_dec (elapsed w url n) (max_wait * 1000)) as [Hin | Hout].
    + destruct (decide (fetch_status w url n = Some 200)) as [E | E].
      * left. exists n. split; [lia |]. split; [done |]. split; [done |].
        intros j Hj. now apply IH.
      * right. right. intros j Hj.
        destruct (decide (j = n)) as [-> | ?]; [done |]. apply IH. lia.
    + right. left. exists n. split; [lia |]. split; [done |]. exact IH.
Qed.

Lemma in_budget_bound m :
  elapsed w url m < max_wait * 1000 -> (m < poll_bound max_wait - 1)%nat.
Proof.
  intros H. pose proof (elapsed_mono O m) as Hm. simpl in Hm.
  unfold poll_bound.
  assert (Z.of_nat m <= max_wait / 3).
  { apply Z.div_le_lower_bound; lia. }
  lia.
Qed.

End Poller.

(** The poll always returns. *)
Lemma wait_for_pages_ready_within_halts w url max_wait st :
  halts (wait_for_pages_ready_within w url max_wait) st.
Proof.
  set (st0 := mkSt (gh st) (disk st) (now st)
                   (console st ++ ["Waiting for GitHub Pages to go live at " +:+ url])
                   (trace st)).
  assert (Hrun : wait_for_pages_ready_within w url max_wait st
                 = pages_poll w (poll_bound max_wait) url (now st) max_wait O st0)
    by reflexivity.
  assert (Hstart : now st0 - now st = elapsed w url O) by (simpl; lia).
  unfold halts. rewrite Hrun.
  destruct (poll_outcome w url max_wait (poll_bound max_wait))
    as [(m & _ & H200 & Hin & Hb) | [(m & _ & Hout & Hb) | Hall]].
  - pose proof (in_budget_bound w url max_wait m Hin).
    destruct (pages_poll_success w url (now st) max_wait m (poll_bound max_wait) O st0)
      as (st' & E & _); auto; [lia |]. eauto.
  - assert (Hm : (m < poll_bound max_wait)%nat).
    { destruct m as [| m]; [unfold poll_bound; lia |].
      destruct (Hb m) as [_ Hin]; [lia |].
      pose proof (in_budget_bound w url max_wait m Hin). lia. }
    destruct (pages_poll_exhausted w url (now st) max_wait m (poll_bound max_wait) O st0)
      as (st' & E & _); auto. eauto.
  - exfalso. destruct (Hall (poll_bound max_wait - 1)%nat) as [_ Hin].
    { unfold poll_bound. lia. }
    apply in_budget_bound in Hin. lia.
Qed.

(** C7.  The readiness poll, given a URL and a maximum wait in seconds (60
    by default), fetches the URL and sleeps 3 seconds between fetches.  It
    returns [True] at the first fetch that answers 200 while the budget
    lasts; when no fetch within the budget answers 200 it returns [False],
    without raising, once the budget is exhausted; a fetch that raises a
    network exception counts as one that did not answer 200.  It always
    returns, [True] exactly when some fetch within the budget answers 200,
    and it leaves the hosting platform untouched. *)
Theorem C7_page_readiness_poller w url max_wait st :
  (forall n,
      fetch_status w url n = Some 200 ->
      (forall j, (j < n)%nat -> fetch_status w url j <> Some 200) ->
      elapsed w url n < max_wait * 1000 ->
      exists st', wait_for_pages_ready_within w url max_wait st = (Ret true, st')
                  /\ trace st' = trace st ++ poll_rounds url n ++ [HttpGet url 5])
  /\ ((forall n, fetch_status w url n = Some 200 -> max_wait * 1000 <= elapsed w url n) ->
      exists st' n, wait_for_pages_ready_within w url max_wait st = (Ret false, st')
                    /\ trace st' = trace st ++ poll_rounds url n
                    /\ max_wait * 1000 <= now st' - now st)
  /\ (exists r st', wait_for_pages_ready_within w url max_wait st = (Ret r, st')
                    /\ (r = true <-> exists n, fetch_status w url n = Some 200
                                               /\ elapsed w url n < max_wait * 1000)
                    /\ gh st' = gh st)
  /\ wait_for_pages_ready w url = wait_for_pages_ready_within w url 60.
Proof.
  set (st0 := mkSt (gh st) (disk st) (now st)
                   (console st ++ ["Waiting for GitHub Pages to go live at " +:+ url])
                   (trace st)).
  assert (Hrun : wait_for_pages_ready_within w url max_wait st
                 = pages_poll w (poll_bound max_wait) url (now st) max_wait O st0)
    by reflexivity.
  assert (Hstart : now st0 - now st = elapsed w url O) by (simpl; lia).
  assert (Hsucc : forall n,
      fetch_status w url n = Some 200 ->
      (forall j, (j < n)%nat -> fetch_status w url j <> Some 200) ->
      elapsed w url n < max_wait * 1000 ->
      exists st', wait_for_pages_ready_within w url max_wait st = (Ret true, st')
                  /\ trace st' = trace st ++ poll_rounds url n ++ [HttpGet url 5]
                  /\ gh st' = gh st).
  { intros n H200 Hb Hin. rewrite Hrun.
    pose proof (in_budget_bound w url max_wait n Hin).
    destruct (pages_poll_success w url (now st) max_wait n (poll_bound max_wait) O st0)
      as (st' & E & Ht & Hg); auto; [lia |].
    exists st'. auto. }
  assert (Hfail : forall m,
      max_wait * 1000 <= elapsed w url m ->
      (forall j, (j < m)%nat ->
         fetch_status w url j <> Some 200 /\ elapsed w url j < max_wait * 1000) ->
      exists st', wait_for_pages_ready_within w url max_wait st = (Ret false, st')
                  /\ trace st' = trace st ++ poll_rounds url m
                  /\ max_wait * 1000 <= now st' - now st
                  /\ gh st' = gh st).
  { intros m Hout Hb. rewrite Hrun.
    assert (Hm : (m < poll_bound max_wait)%nat).
    { destruct m as [| m]; [unfold poll_bound; lia |].
      destruct (Hb m) as [_ Hin]; [lia |].
      pose proof (in_budget_bound w url max_wait m Hin). lia. }
    destruct (pages_poll_exhausted w url (now st) max_wait m (poll_bound max_wait) O st0)
      as (st' & E & Ht & Hn & Hg); auto.
    exists st'. simpl in Hn. repeat split; auto. lia. }
  split; [| split; [| split]].
  - intros n H200 Hb Hin. destruct (Hsucc n H200 Hb Hin) as (st' & E & Ht & _). eauto.
  - intros Hnever.
    destruct (poll_outcome w url max_wait (poll_bound max_wait))
      as [(m & _ & H200 & Hin & _) | [(m & _ & Hout & Hb) | Hall]].
    + specialize (Hnever m H200). lia.
    + destruct (Hfail m Hout Hb) as (st' & E & Ht & Hn & _). eauto.
    + exfalso. destruct (Hall (poll_bound max_wait - 1)%nat) as [_ Hin].
      { unfold poll_bound. lia. }
      apply in_budget_bound in Hin. lia.
  - destruct (poll_outcome w url max_wait (poll_bound max_wait))
      as [(m & _ & H200 & Hin & Hb) | [(m & _ & Hout & Hb) | Hall]].
    + destruct (Hsucc m H200 Hb Hin) as (st' & E & _ & Hg).
      exists true, st'. split; [done |]. split; [| done]. split; eauto.
    + destruct (Hfail m Hout Hb) as (st' & E & _ & _ & Hg).
      exists false, st'. split; [done |]. split; [| done].
      split; [discriminate |]. intros (n & H200 & Hin). exfalso.
      destruct (Nat.lt_ge_cases n m) as [Hlt | Hge].
      * now destruct (Hb n Hlt).
      * pose proof (elapsed_mono w url m (n - m)) as Hmono.
        replace (m + (n - m))%nat with n in Hmono by lia. lia.
    + exfalso. destruct (Hall (poll_bound max_wait - 1)%nat) as [_ Hin].
      { unfold poll_bound. lia. }
      apply in_budget_bound in Hin. lia.
  - reflexivity.
Qed.

(* ===================================================================== *)
(** ** The Round 2 asset steps *)
(* ===================================================================== *)

Lemma refusal_is_github why : is_GithubException (GithubException (refusal_status why)) = true.
Proof. reflexivity. Qed.


Section PlatformRuns.

Variable w : World.
Variables (repo path : string) (r : Repo) (st : St).
Hypothesis Hrepo : gh st !! repo = Some r.

Lemma the_repo_run : the_repo repo st = (Ret r, st).
Proof. unfold the_repo, bind, get_gh. now rewrite Hrepo. Qed.

Lemma get_contents_run c :
  r_files r !! path = Some c ->
  get_contents repo path st = (Ret c, log (GhGetContents repo path) st).
Proof.
  intros Hc. unfold get_contents, bind, emit, the_repo, get_gh. cbn.
  rewrite Hrepo. cbn. now rewrite Hc.
Qed.

Lemma get_contents_missing :
  r_files r !! path = None ->
  get_contents repo path st
  = (Raised UnknownObjectException, log (GhGetContents repo path) st).
Proof.
  intros Hc. unfold get_contents, bind, emit, the_repo, get_gh. cbn.
  rewrite Hrepo. cbn. now rewrite Hc.
Qed.

Lemma update_file_run msg content :
  is_Some (r_files r !! path) ->
  update_refused w (trace st ++ [GhUpdateFile repo path msg content]) = None ->
  update_file w repo path msg content st
  = (Ret tt, with_gh (<[repo := committed r path msg content]> (gh st))
                     (log (GhUpdateFile repo path msg content) st)).
Proof.
  intros [c Hc] Ha.
  unfold update_file, bind, emit, the_repo, get_gh, get_trace, commit. cbn.
  rewrite Hrepo. cbn. rewrite Hc. cbn. now rewrite Ha.
Qed.

Lemma update_file_refused msg content why :
  is_Some (r_files r !! path) ->
  update_refused w (trace st ++ [GhUpdateFile repo path msg content]) = Some why ->
  update_file w repo path msg content st
  = (Raised (GithubException (refusal_status why)),
     log (GhUpdateFile repo path msg content) st).
Proof.
  intros [c Hc] Ha.
  unfold update_file, bind, emit, the_repo, get_gh, get_trace, commit. cbn.
  rewrite Hrepo. cbn. rewrite Hc. cbn. now rewrite Ha.
Qed.

Lemma create_file_run msg content :
  r_files r !! path = None ->
  create_file repo path msg content st
  = (Ret tt, with_gh (<[repo := committed r path msg content]> (gh st))
                     (log (GhCreateFile repo path msg content) st)).
Proof.
  intros Hc. unfold create_file, bind, emit, the_repo, get_gh, commit. cbn.
  rewrite Hrepo. cbn. now rewrite Hc.
Qed.

Lemma create_file_taken msg content :
  is_Some (r_files r !! path) ->
  create_file repo path msg content st
  = (Raised (GithubException 422), log (GhCreateFile repo path msg content) st).
Proof.
  intros [c Hc]. unfold create_file, bind, emit, the_repo, get_gh, commit. cbn.
  rewrite Hrepo. cbn. now rewrite Hc.
Qed.

End PlatformRuns.

(** The shape [update_file_safely] and the three [merge_*_update] share:
    read the file, update it, print; on a 404 run [h], re-raise any other
    [GithubException]. *)
Section GuardedUpdate.

Variable w : World.
Variables (repo path msg : string) (content : string -> string) (done_msg : string).
Variable h : M unit.

Let guarded : M unit :=
  try_except
    (let* old := get_contents repo path in
     update_file w repo path msg (content old) ;;;
     print done_msg)
    is_GithubException
    (fun e => if is_UnknownObjectException e then h else raise e).

Variables (r : Repo) (old : string).
Hypothesis Hold : r_files r !! path = Some old.

Lemma guarded_run st calls :
  gh st !! repo = Some r ->
  trace st ++ [GhGetContents repo path; GhUpdateFile repo path msg (content old)] = calls ->
  update_refused w calls = None ->
  exists st',
    guarded st = (Ret tt, st')
    /\ gh st' = <[repo := committed r path msg (content old)]> (gh st)
    /\ trace st' = calls.
Proof.
  intros Hrepo <- Ha. unfold guarded. eexists. split.
  - apply try_run.
    erewrite bind_run by (eapply get_contents_run; eauto).
    erewrite bind_run
      by (eapply update_file_run; [exact Hrepo | eauto |];
          simpl; rewrite <- app_assoc; exact Ha).
    reflexivity.
  - simpl. now rewrite <- app_assoc.
Qed.


End GuardedUpdate.

Section AssetRuns.

Variable w : World.
Variables task new_brief : string.
Variables (repo : string) (r : Repo).

Lemma llm_update_file_run st filename old role extension raw :
  llm_edit w role task new_brief old = Some raw ->
  llm_update_file w task new_brief filename old role extension st
  = (Ret (PyStr.strip
            (PyStr.replace
               (PyStr.replace (PyStr.strip raw) ("```" +:+ extension) EmptyString) "```" EmptyString)),
     log (LlmEdit role task new_brief old) st).
Proof.
  intros H. unfold llm_update_file, bind, emit. simpl. now rewrite H.
Qed.

Lemma update_file_safely_run st filename old content msg calls :
  gh st !! repo = Some r ->
  r_files r !! filename = Some old ->
  trace st ++ [GhGetContents repo filename; GhUpdateFile repo filename msg content] = calls ->
  update_refused w calls = None ->
  exists st',
    update_file_safely w repo filename content msg st = (Ret tt, st')
    /\ gh st' = <[repo := committed r filename msg content]> (gh st)
    /\ trace st' = calls.
Proof.
  intros Hrepo Hold Hcalls Ha.
  exact (guarded_run w repo filename msg (fun _ => content) _ _ r old Hold st calls
           Hrepo Hcalls Ha).
Qed.


(** The scripted fallback of an asset, run on a repository that has the
    asset: it commits unless the platform refuses. *)
Lemma asset_fallback_run a st old calls :
  gh st !! repo = Some r ->
  r_files r !! asset_path a = Some old ->
  let fb := fallback_commit task new_brief a old in
  trace st ++ [GhGetContents repo (asset_path a);
               GhUpdateFile repo (asset_path a) (fst fb) (snd fb)] = calls ->
  update_refused w calls = None ->
  exists st',
    asset_fallback w task new_brief a repo st = (Ret tt, st')
    /\ gh st' = <[repo := committed r (asset_path a) (fst fb) (snd fb)]> (gh st)
    /\ trace st' = calls.
Proof.
  intros Hrepo Hold fb Hcalls Ha. destruct a; simpl in *.
  - exact (guarded_run w repo "index.html" _ (merged_html new_brief) _ _ r old Hold
             st calls Hrepo Hcalls Ha).
  - exact (guarded_run w repo "style.css" _ (merged_css new_brief) _ _ r old Hold
             st calls Hrepo Hcalls Ha).
  - exact (guarded_run w repo "script.js" _ (merged_js new_brief) _ _ r old Hold
             st calls Hrepo Hcalls Ha).
Qed.


End AssetRuns.

(** The accept-or-fall-back commit of an asset step and the handler
    around it, for the asset [a] whose stored text is [old] and for which
    the model produced [updated]. *)
Section Attempt.

Variable w : World.
Variables task new_brief : string.
Variables (repo : string) (r : Repo).
Variable a : asset.
Variables old updated : string.
Hypothesis Hold : r_files r !! asset_path a = Some old.

Let c := first_commit task new_brief a old updated.
Let fb := fallback_commit task new_brief a old.

Lemma attempt_run st calls :
  gh st !! repo = Some r ->
  trace st ++ [GhGetContents repo (asset_path a);
               GhUpdateFile repo (asset_path a) (fst c) (snd c)] = calls ->
  update_refused w calls = None ->
  exists st',
    asset_attempt w task new_brief a repo old updated st = (Ret tt, st')
    /\ gh st' = <[repo := committed r (asset_path a) (fst c) (snd c)]> (gh st)
    /\ trace st' = calls.
Proof.
  intros Hrepo Hcalls Ha. unfold asset_attempt. subst c. unfold first_commit in *.
  destruct (llm_update_insufficient updated old).
  - destruct (asset_fallback_run w task new_brief repo r a
                (say (asset_warning a) st) old calls Hrepo Hold Hcalls Ha)
      as (st' & E & Hg & Ht).
    exists st'. split; [| split; [exact Hg | exact Ht]].
    unfold bind at 1. cbn [print]. exact E.
  - destruct a; simpl in *;
      eapply update_file_safely_run; eauto.
Qed.



End Attempt.

Section AssetSteps.

Variable w : World.
Variables task new_brief : string.
Variables (repo : string) (r : Repo).


(** [html_commit] is the LLM call followed by the attempt. *)
Lemma html_commit_attempt st old raw :
  llm_edit w "HTML" task new_brief old = Some raw ->
  html_commit w task new_brief repo old st
  = (asset_attempt w task new_brief IndexHtml repo old (cleaned "html" raw) ;;;
     ret (cleaned "html" raw)) (log (LlmEdit "HTML" task new_brief old) st).
Proof.
  intros Hraw. unfold html_commit.
  erewrite bind_run by (apply llm_update_file_run; exact Hraw). reflexivity.
Qed.

Lemma html_commit_run st old raw calls :
  gh st !! repo = Some r ->
  r_files r !! "index.html" = Some old ->
  llm_edit w "HTML" task new_brief old = Some raw ->
  let updated := cleaned "html" raw in
  let c := asset_commit updated old ("Guaranteed HTML update for " +:+ task)
                        (merged_html new_brief old) "Round 2: Updated HTML" in
  trace st ++ [LlmEdit "HTML" task new_brief old;
               GhGetContents repo "index.html";
               GhUpdateFile repo "index.html" (fst c) (snd c)] = calls ->
  update_refused w calls = None ->
  exists st',
    html_commit w task new_brief repo old st = (Ret updated, st')
    /\ gh st' = <[repo := committed r "index.html" (fst c) (snd c)]> (gh st)
    /\ trace st' = calls.
Proof.
  intros Hrepo Hold Hraw updated c Hcalls Ha.
  rewrite (html_commit_attempt st old raw Hraw).
  assert (Hc : c = first_commit task new_brief IndexHtml old updated).
  { unfold c, asset_commit, first_commit. now destruct (llm_update_insufficient _ _). }
  destruct (attempt_run w task new_brief repo r IndexHtml old updated Hold
              (log (LlmEdit "HTML" task new_brief old) st) calls Hrepo)
    as (st' & E & Hg & Ht); [| exact Ha |].
  { rewrite <- Hc, <- Hcalls. simpl. now rewrite <- app_assoc. }
  exists st'. split; [| split; [| exact Ht]].
  - erewrite bind_run by exact E. reflexivity.
  - rewrite Hg, Hc. reflexivity.
Qed.


End AssetSteps.




(* ===================================================================== *)
(** ** The events of a Round 2 request *)
(* ===================================================================== *)


Lemma item_run d k st a st' :
  item d k st = (Ret a, st') -> dict_lookup k d = Some a /\ st' = st.
Proof.
  unfold item. destruct (dict_lookup k d); [| discriminate]. now intros [= <- <-].
Qed.

Lemma lift_run {A} (r : exn + A) st a st' :
  lift r st = (Ret a, st') -> r = inr a /\ st' = st.
Proof. destruct r; [discriminate |]. now intros [= <- <-]. Qed.

Lemma as_str_run e v st a st' :
  as_str e v st = (Ret a, st') -> v = JStr a /\ st' = st.
Proof. destruct v; try discriminate. now intros [= <- <-]. Qed.

Lemma emits_save_attachments w l : emits is_write (save_attachments w l).
Proof.
  induction l as [| file l IH]; simpl; [apply emits_ret |].
  apply emits_bind; [| intros; exact IH].
  unfold save_attachment, write_file. emits_tac; exact I.
Qed.

Lemma generate_minimal_app_trace w brief checks atts st files st' :
  generate_minimal_app w brief checks atts st = (Ret files, st') ->
  trace st' = trace st ++ [LlmGenerate brief checks atts].
Proof.
  unfold generate_minimal_app. intros H.
  apply bind_Ret in H as (x & s1 & H1 & H). apply lift_run in H1 as [_ ->].
  apply bind_Ret in H as (y & s2 & H2 & H).
  assert (s2 = st) as ->.
  { destruct (py_truthy atts); [| now inversion H2].
    apply bind_Ret in H2 as (l & s3 & H3 & H2).
    apply lift_run in H3 as [_ ->]. now apply lift_run in H2 as [_ ->]. }
  apply bind_Ret in H as ([] & s3 & H3 & H). inversion H3. subst s3.
  destruct (llm_generate w brief checks atts); [| discriminate].
  now inversion H.
Qed.

Section Round2Events.

Variable w : World.
Variables task new_brief : string.
Let P := updater_event.

Lemma updater_sleep s : P (Sleep s).
Proof. exact I. Qed.

Ltac platform :=
  first [ apply emits_get_contents | apply emits_update_file
        | apply emits_create_file | apply emits_get_repo
        | apply emits_latest_commit_sha ]; exact I.

Ltac r2 := repeat first [ platform | emits_step ].

Lemma emits_llm_update_file f old role ext :
  emits P (llm_update_file w task new_brief f old role ext).
Proof. unfold llm_update_file. r2. exact I. Qed.

Lemma emits_update_file_safely repo f c msg :
  emits P (update_file_safely w repo f c msg).
Proof. unfold update_file_safely. r2. Qed.

Lemma emits_merge_html_update repo : emits P (merge_html_update w task new_brief repo).
Proof. unfold merge_html_update. r2. Qed.

Lemma emits_merge_css_update repo : emits P (merge_css_update w task new_brief repo).
Proof. unfold merge_css_update. r2. Qed.

Lemma emits_merge_js_update repo : emits P (merge_js_update w task new_brief repo).
Proof. unfold merge_js_update. r2. Qed.

Lemma emits_update_index_html repo : emits P (update_index_html w task new_brief repo).
Proof.
  unfold update_index_html, html_commit, html_check.
  apply emits_try; [| intros; apply emits_merge_html_update].
  apply emits_bind; [platform | intros old].
  apply emits_bind; [| intros; r2].
  apply emits_bind; [apply emits_llm_update_file | intros u].
  apply emits_bind; [| intros; apply emits_ret].
  destruct (llm_update_insufficient _ _).
  - apply emits_bind; [apply emits_print | intros; apply emits_merge_html_update].
  - apply emits_update_file_safely.
Qed.

Lemma emits_update_style_css repo : emits P (update_style_css w task new_brief repo).
Proof.
  unfold update_style_css.
  apply emits_try; [| intros; apply emits_merge_css_update].
  apply emits_bind; [platform | intros old].
  apply emits_bind; [apply emits_llm_update_file | intros u].
  destruct (llm_update_insufficient _ _).
  - apply emits_bind; [apply emits_print | intros; apply emits_merge_css_update].
  - apply emits_update_file_safely.
Qed.

Lemma emits_update_script_js repo : emits P (update_script_js w task new_brief repo).
Proof.
  unfold update_script_js.
  apply emits_try; [| intros; apply emits_merge_js_update].
  apply emits_bind; [platform | intros old].
  apply emits_bind; [apply emits_llm_update_file | intros u].
  destruct (llm_update_insufficient _ _).
  - apply emits_bind; [apply emits_print | intros; apply emits_merge_js_update].
  - apply emits_update_file_safely.
Qed.

Lemma emits_update_readme repo : emits P (update_readme w task new_brief repo).
Proof. unfold update_readme. r2. Qed.

Lemma emits_update_existing_repo : emits P (update_existing_repo w task new_brief).
Proof.
  unfold update_existing_repo.
  apply emits_bind; [platform | intros repo].
  apply emits_bind; [apply emits_update_index_html | intros _].
  apply emits_bind; [apply emits_update_style_css | intros _].
  apply emits_bind; [apply emits_update_script_js | intros _].
  apply emits_bind; [apply emits_update_readme | intros _].
  apply emits_bind;
    [apply emits_wait_for_pages_ready; [exact updater_sleep | exact I] | intros _].
  apply emits_bind; [platform | intros; apply emits_ret].
Qed.

End Round2Events.






Ltac inv_run H :=
  lazymatch type of H with
  | bind _ _ _ = (Ret _, _) =>
      let a := fresh "a" in
      let s := fresh "s" in
      let Hrun := fresh "Hrun" in
      apply bind_Ret in H as (a & s & Hrun & H); inv_run H
  | _ => idtac
  end.






Lemma is_200_true r : is_200 r = true -> r = Some 200.
Proof.
  destruct r as [s |]; cbn; [| discriminate].
  intros H. apply Z.eqb_eq in H. now subst.
Qed.

Lemma callback_loop_delivered w url p fuel : forall k delay st st',
  callback_loop w fuel url p k delay st = (Ret tt, st') ->
  exists evs n,
    trace st' = trace st ++ evs ++ [HttpPost url p 10]
    /\ post_status w url n = Some 200.
Proof.
  induction fuel as [| fuel IH]; intros k delay st st' H; [discriminate |].
  cbn [callback_loop] in H.
  unfold requests_post in H.
  unfold bind at 1 in H. unfold bind at 1 in H. cbn [emit ret] in H.
  destruct (is_200 (post_status w url k)) eqn:E.
  - inversion H. subst. exists [], k. split; [reflexivity | now apply is_200_true].
  - apply bind_Ret in H as ([] & s1 & H1 & H).
    apply bind_Ret in H as ([] & s2 & H2 & H).
    apply IH in H as (evs & n & Ht & Hn).
    assert (T1 : trace s1 = trace (log (HttpPost url p 10) st)).
    { unfold when in H1. destruct (negb _); inversion H1; reflexivity. }
    assert (T2 : trace s2 = trace s1 ++ [Sleep delay]).
    { unfold time_sleep, bind, emit, advance in H2. inversion H2. reflexivity. }
    exists ([HttpPost url p 10; Sleep delay] ++ evs), n. split; [| exact Hn].
    rewrite Ht, T2, T1. cbn. rewrite <- !app_assoc. reflexivity.
Qed.

Lemma trace_extends {A} (P : event -> Prop) (m : M A) st o st' :
  emits P m -> m st = (o, st') -> exists evs, trace st' = trace st ++ evs.
Proof.
  intros He H. destruct (He st) as (evs & Ht & _). rewrite H in Ht. eauto.
Qed.

(* ===================================================================== *)
(** ** The claims about the handler *)
(* ===================================================================== *)

(** C1.  A request whose secret differs from the configured one gets
    exactly the response [{"status": "error", "message": "Invalid secret"}],
    and the run changes nothing: the state after it (hosting platform,
    local files, clock, console, trace of outbound calls) is the state
    before it. *)
Theorem C1_invalid_secret_no_side_effect w S fuel d st :
  dict_get d "secret" <> of_env S ->
  build_app w S fuel (JObj d) st
  = (Ret (Some {| status := "error"; message := "Invalid secret" |}), st).
Proof. intros H. apply reject_run. now apply py_ne_env_spec. Qed.

Lemma C1_invalid_secret_witness :
  dict_get (demo_request "wrong" 1) "secret" <> of_env demo_secret
  /\ build_app demo_world demo_secret 5 (JObj (demo_request "wrong" 1)) empty_state
     = (Ret (Some {| status := "error"; message := "Invalid secret" |}), empty_state).
Proof.
  assert (H : dict_get (demo_request "wrong" 1) "secret" <> of_env demo_secret).
  { simpl. discriminate. }
  split; [exact H |].
  exact (C1_invalid_secret_no_side_effect demo_world demo_secret 5
           (demo_request "wrong" 1) empty_state H).
Defined.

(** C9.  The handler rejects a request, that is, answers with the
    invalid-secret response, if and only if the value of the body's secret
    field ([None] when the field is absent) differs from the configured
    secret ([None] when the environment variable is unset).  In particular,
    with the variable unset, a request without a secret field is not
    rejected: the handler runs the pipeline on it. *)
Theorem C9_rejects_iff_secret_differs w S fuel d st :
  (fst (build_app w S fuel (JObj d) st) = Ret (Some invalid_secret)
   <-> dict_get d "secret" <> of_env S)
  /\ (S = None -> dict_lookup "secret" d = None ->
      build_app w S fuel (JObj d) st = pipeline w fuel d st).
Proof.
  split.
  - split.
    + intros H. apply py_ne_env_spec. unfold build_app in H.
      destruct (py_ne_env (dict_get d "secret") S); [done |].
      destruct (pipeline w fuel d st) as [o st'] eqn:Hp. simpl in H. subst o.
      apply pipeline_responses in Hp as [Hp | [Hp | Hp]]; discriminate.
    + intros H. apply py_ne_env_spec in H. now rewrite reject_run.
  - intros -> H. unfold build_app, dict_get. now rewrite H.
Qed.

Lemma C9_rejects_iff_secret_differs_witness :
  dict_lookup "secret" [("round", JInt 3)] = None
  /\ build_app demo_world None 5 (JObj [("round", JInt 3)]) empty_state
     = pipeline demo_world 5 [("round", JInt 3)] empty_state.
Proof.
  split; [reflexivity |].
  exact (proj2 (C9_rejects_iff_secret_differs demo_world None 5 [("round", JInt 3)]
                  empty_state) eq_refl eq_refl).
Defined.



(* ===================================================================== *)
(** ** The claims about Round 2 *)
(* ===================================================================== *)




(** C10.  In the Round 2 index.html step the check made after the commit
    has no effect on the repository.  Whenever the commit of the step has
    returned, whatever it committed, the check returns and the step ends in
    the repository state the commit left (the committed content stays, no
    earlier version is written back), with the same trace and local files;
    the check only adds a warning line to the console when the new HTML
    lacks [<html].  And when the platform accepts the commit, the step runs
    the commit and then the check, and ends with that commit in the
    repository. *)
Theorem C10_html_check_only_warns w task new_brief repo r st old raw :
  gh st !! repo = Some r ->
  r_files r !! "index.html" = Some old ->
  llm_edit w "HTML" task new_brief old = Some raw ->
  let updated := cleaned "html" raw in
  let c := asset_commit updated old ("Guaranteed HTML update for " +:+ task)
                        (merged_html new_brief old) "Round 2: Updated HTML" in
  (forall st1,
      html_commit w task new_brief repo old (log (GhGetContents repo "index.html") st)
      = (Ret updated, st1) ->
      exists st2,
        html_check updated st1 = (Ret tt, st2)
        /\ update_index_html w task new_brief repo st = (Ret tt, st2)
        /\ gh st2 = gh st1 /\ trace st2 = trace st1 /\ disk st2 = disk st1
        /\ console st2
           = console st1 ++
             (if PyStr.contains "<html" (PyStr.lower updated) then []
              else ["Invalid HTML, restoring previous file."]))
  /\ (update_refused w (commit_calls st task new_brief repo IndexHtml old c) = None ->
      exists st1 st2,
        html_commit w task new_brief repo old (log (GhGetContents repo "index.html") st)
        = (Ret updated, st1)
        /\ html_check updated st1 = (Ret tt, st2)
        /\ update_index_html w task new_brief repo st = (Ret tt, st2)
        /\ gh st2 = gh st1 /\ trace st2 = trace st1 /\ disk st2 = disk st1
        /\ console st2
           = console st1 ++
             (if PyStr.contains "<html" (PyStr.lower updated) then []
              else ["Invalid HTML, restoring previous file."])
        /\ gh st2 = <[repo := committed r "index.html" (fst c) (snd c)]> (gh st)).
Proof.
  intros Hrepo Hold Hraw updated c.
  assert (Hcheck : forall st1,
    html_commit w task new_brief repo old (log (GhGetContents repo "index.html") st)
    = (Ret updated, st1) ->
    exists st2,
      html_check updated st1 = (Ret tt, st2)
      /\ update_index_html w task new_brief repo st = (Ret tt, st2)
      /\ gh st2 = gh st1 /\ trace st2 = trace st1 /\ disk st2 = disk st1
      /\ console st2
         = console st1 ++
           (if PyStr.contains "<html" (PyStr.lower updated) then []
            else ["Invalid HTML, restoring previous file."])).
  { intros st1 Hrun1.
    exists (snd (html_check updated st1)).
    assert (Hrun2 : html_check updated st1 = (Ret tt, snd (html_check updated st1))).
    { unfold html_check. now destruct (negb _). }
    split; [done |]. split.
    { unfold update_index_html. apply try_run.
      erewrite bind_run by (eapply get_contents_run; eauto).
      erewrite bind_run by (exact Hrun1). exact Hrun2. }
    clear Hrun2. unfold html_check.
    destruct (PyStr.contains "<html" (PyStr.lower updated)); simpl;
      rewrite ?app_nil_r; auto 10. }
  split; [exact Hcheck |].
  intros Ha.
  destruct (html_commit_run w task new_brief repo r
              (log (GhGetContents repo "index.html") st) old raw
              (commit_calls st task new_brief repo IndexHtml old c) Hrepo Hold Hraw)
    as (st1 & Hrun1 & Hg1 & _); [| exact Ha |].
  { unfold commit_calls. simpl. now rewrite <- app_assoc. }
  fold updated in Hrun1. fold updated c in Hg1.
  destruct (Hcheck st1 Hrun1) as (st2 & Hc & Hu & Hg & Ht & Hd & Hco).
  exists st1, st2. repeat (split; [assumption |]). now rewrite Hg.
Qed.

Lemma C10_html_check_only_warns_witness :
  gh demo_state !! "demo" = Some demo_repo
  /\ r_files demo_repo !! "index.html" = Some padded_html
  /\ exists st1 st2,
       html_commit demo_world "demo" "more" "demo" padded_html
                   (log (GhGetContents "demo" "index.html") demo_state)
       = (Ret (cleaned "html" "<p>xy</p>"), st1)
       /\ update_index_html demo_world "demo" "more" "demo" demo_state = (Ret tt, st2)
       /\ gh st2 = gh st1.
Proof.
  assert (H1 : gh demo_state !! "demo" = Some demo_repo) by (vm_compute; reflexivity).
  assert (H2 : r_files demo_repo !! "index.html" = Some padded_html)
    by (vm_compute; reflexivity).
  split; [exact H1 |]. split; [exact H2 |].
  destruct (proj2 (C10_html_check_only_warns demo_world "demo" "more" "demo" demo_repo
                     demo_state padded_html "<p>xy</p>" H1 H2 eq_refl) eq_refl)
    as (st1 & st2 & Ha & _ & Hb & Hc & _).
  exists st1, st2. auto.
Defined.




(* ===================================================================== *)
(** ** The claims about Round 1 *)
(* ===================================================================== *)

(** C5.  In a Round 1 build the file set handed to the upload loop (the
    generated files after the LICENSE entry is removed and the workflow
    files are patched) has no key [LICENSE]; every write to the path LICENSE that the build issues
    carries the fixed MIT text of [get_mit_license]; and when the build
    returns, the LICENSE of the repository is that text, whatever the model
    produced under that key. *)
Theorem C5_license_is_the_mit_template w task app_code brief st :
  let mit := get_mit_license (user_name w) in
  (forall s0 d s1 files s2,
      strip_license app_code s0 = (Ret d, s1) ->
      fix_common_ci_errors d s1 = (Ret files, s2) ->
      dict_lookup "LICENSE" files = None)
  /\ emits (license_event mit) (create_and_deploy_repo w task app_code brief JNull)
  /\ (forall res st',
         create_and_deploy_repo w task app_code brief JNull st = (Ret res, st') ->
         has_license mit (safe_task task) st').
Proof.
  intros mit. split; [| split].
  - intros s0 d s1 files s2 Hs Hf.
    apply (same_keys_lookup_None "LICENSE" d files).
    + exact (fix_common_ci_errors_keys d s1 files s2 Hf).
    + exact (strip_license_lookup app_code s0 d s1 Hs).
  - apply emits_create_and_deploy_repo.
  - intros res st' H. now apply create_and_deploy_repo_license in H.
Qed.

Lemma C5_license_is_the_mit_template_witness :
  llm_generate demo_world (JStr "more") (JArr []) demo_attachments
  = Some (JObj [("index.html", JStr "<html>hi</html>");
                ("LICENSE", JStr "All rights reserved")])
  /\ exists res st',
       create_and_deploy_repo demo_world "demo"
         (JObj [("index.html", JStr "<html>hi</html>");
                ("LICENSE", JStr "All rights reserved")])
         "more" JNull empty_state = (Ret res, st')
       /\ has_license (get_mit_license "Alice") "demo" st'.
Proof.
  split; [reflexivity |].
  destruct (create_and_deploy_repo demo_world "demo"
              (JObj [("index.html", JStr "<html>hi</html>");
                     ("LICENSE", JStr "All rights reserved")])
              "more" JNull empty_state) as [[res | e |] st'] eqn:Hrun;
    [| vm_compute in Hrun; discriminate ..].
  exists res, st'. split; [reflexivity |].
  exact (proj2 (proj2 (C5_license_is_the_mit_template demo_world "demo" _ "more"
                         empty_state)) res st' Hrun).
Defined.

(** C3 (the code misses it).  The handler calls [create_and_deploy_repo]
    without its [attachments] argument, so the attachment upload never
    runs: after this Round 1 build, whose request carries the data-URI
    attachment notes.txt, the new repository has index.html but no
    notes.txt, although [process_attachments] on the same attachments would
    have uploaded it. *)
Theorem C3_attachments_not_uploaded :
  let run := build_app demo_world demo_secret 5 (JObj (demo_request "s3cret" 1))
                       empty_state in
  fst run = Ret (Some round1_complete)
  /\ has_file "demo" "index.html" (snd run) = true
  /\ has_file "demo" "notes.txt" (snd run) = false
  /\ has_file "demo" "notes.txt"
       (snd (process_attachments demo_world demo_attachments "demo" (snd run))) = true.
Proof. vm_compute. repeat split; reflexivity. Qed.

(* ===================================================================== *)
(** ** The loops on the concrete world *)
(* ===================================================================== *)

Lemma C6_callback_notifier_witness :
  post_status demo_world (JStr "u") 2 = Some 200
  /\ exists st',
       notify demo_world 5 (JStr "u") demo_payload empty_state = (Ret tt, st')
       /\ trace st'
          = [HttpPost (JStr "u") demo_payload 10; Sleep 1;
             HttpPost (JStr "u") demo_payload 10; Sleep 2;
             HttpPost (JStr "u") demo_payload 10].
Proof.
  split; [reflexivity |].
  refine (proj1 (C6_callback_notifier demo_world (JStr "u") demo_payload empty_state)
            2%nat 5%nat eq_refl _ _).
  - intros j Hj. destruct j as [| [| j]]; [discriminate | discriminate | lia].
  - lia.
Defined.

Lemma C7_page_readiness_poller_witness :
  fetch_status demo_world "https://alice.github.io/demo/" 3 = Some 200
  /\ elapsed demo_world "https://alice.github.io/demo/" 3 < 60 * 1000
  /\ exists st',
       wait_for_pages_ready_within demo_world "https://alice.github.io/demo/" 60 empty_state
       = (Ret true, st')
       /\ trace st'
          = trace empty_state ++ poll_rounds "https://alice.github.io/demo/" 3
            ++ [HttpGet "https://alice.github.io/demo/" 5].
Proof.
  assert (Hin : elapsed demo_world "https://alice.github.io/demo/" 3 < 60 * 1000)
    by (vm_compute; reflexivity).
  split; [reflexivity |]. split; [exact Hin |].
  refine (proj1 (C7_page_readiness_poller demo_world "https://alice.github.io/demo/" 60
                   empty_state) 3%nat eq_refl _ Hin).
  intros j Hj. destruct j as [| [| [| j]]]; [discriminate | discriminate | discriminate | lia].
Defined.

(* ===================================================================== *)
(** ** Further properties of the program *)
(* ===================================================================== *)

Lemma append_nil_l s : EmptyString +:+ s = s.
Proof. reflexivity. Qed.

Lemma append_cons c r s : String c r +:+ s = String c (r +:+ s).
Proof. reflexivity. Qed.

Lemma append_nil_r s : s +:+ EmptyString = s.
Proof. induction s as [| c r IH]; [done |]. now rewrite append_cons, IH. Qed.

Lemma append_assoc (a b c : string) : (a +:+ b) +:+ c = a +:+ (b +:+ c).
Proof. induction a as [| x r IH]; [done |]. now rewrite !append_cons, IH. Qed.

Lemma lstrip_all_space s : all_chars PyStr.isspace s = true -> PyStr.lstrip s = EmptyString.
Proof.
  induction s as [| c r IH]; simpl; [done |].
  intros H. apply andb_true_iff in H as [Hc Hr]. rewrite Hc. auto.
Qed.

Lemma lstrip_app s x c :
  PyStr.isspace c = false ->
  PyStr.lstrip (s +:+ String c x) = PyStr.lstrip s +:+ String c x.
Proof.
  intros Hc. induction s as [| a r IH].
  - rewrite append_nil_l. simpl. now rewrite Hc.
  - rewrite append_cons. simpl. destruct (PyStr.isspace a); [exact IH | reflexivity].
Qed.

Lemma rstrip_nonspace c x :
  PyStr.isspace c = false ->
  PyStr.rstrip (String c x) = String c (PyStr.rstrip x).
Proof.
  intros Hc. simpl. destruct (PyStr.rstrip x); [now rewrite Hc | reflexivity].
Qed.

Lemma rstrip_app s x c :
  PyStr.isspace c = false ->
  PyStr.rstrip (s +:+ String c x) = s +:+ String c (PyStr.rstrip x).
Proof.
  intros Hc. induction s as [| a r IH].
  - rewrite !append_nil_l. now apply rstrip_nonspace.
  - rewrite !append_cons. simpl PyStr.rstrip. rewrite IH.
    destruct r; reflexivity.
Qed.

Lemma rstrip_idem s : PyStr.rstrip (PyStr.rstrip s) = PyStr.rstrip s.
Proof.
  induction s as [| c r IH]; [reflexivity |].
  simpl. destruct (PyStr.rstrip r) as [| c' r'] eqn:Hr.
  - destruct (PyStr.isspace c) eqn:Hc; [reflexivity |]. simpl. now rewrite Hc.
  - simpl in IH |- *. now rewrite IH.
Qed.

Lemma lstrip_idem s : PyStr.lstrip (PyStr.lstrip s) = PyStr.lstrip s.
Proof.
  induction s as [| c r IH]; [reflexivity |].
  simpl. destruct (PyStr.isspace c) eqn:Hc; [exact IH |]. simpl. now rewrite Hc.
Qed.

(** A string is blanks followed by nothing, or by a non-blank and a rest. *)
Lemma lstrip_cases s :
  (all_chars PyStr.isspace s = true /\ PyStr.lstrip s = EmptyString)
  \/ exists sp c r, s = sp +:+ String c r /\ all_chars PyStr.isspace sp = true
                    /\ PyStr.isspace c = false /\ PyStr.lstrip s = String c r.
Proof.
  induction s as [| a r IH]; [left; done |].
  simpl. destruct (PyStr.isspace a) eqn:Ha.
  - destruct IH as [[H1 H2] | (sp & c & x & -> & Hsp & Hc & Hl)].
    + left. simpl. auto.
    + right. exists (String a sp), c, x. rewrite append_cons. simpl. rewrite Ha. auto.
  - right. exists EmptyString, a, r. auto.
Qed.

Lemma rstrip_all_space s : all_chars PyStr.isspace s = true -> PyStr.rstrip s = EmptyString.
Proof.
  induction s as [| c r IH]; simpl; [done |].
  intros H. apply andb_true_iff in H as [Hc Hr]. rewrite (IH Hr). now rewrite Hc.
Qed.

Lemma lstrip_rstrip s : PyStr.lstrip (PyStr.rstrip s) = PyStr.rstrip (PyStr.lstrip s).
Proof.
  destruct (lstrip_cases s) as [[Hs Hl] | (sp & c & r & -> & Hsp & Hc & Hl)].
  - rewrite Hl. now rewrite (rstrip_all_space s Hs).
  - rewrite Hl. rewrite (rstrip_app sp r c Hc), (rstrip_nonspace c r Hc).
    rewrite (lstrip_app sp (PyStr.rstrip r) c Hc).
    now rewrite (lstrip_all_space sp Hsp).
Qed.

Lemma strip_lstrip s : PyStr.strip (PyStr.lstrip s) = PyStr.strip s.
Proof. unfold PyStr.strip. now rewrite lstrip_idem. Qed.

Lemma strip_rstrip s : PyStr.strip (PyStr.rstrip s) = PyStr.strip s.
Proof. unfold PyStr.strip. now rewrite lstrip_rstrip, rstrip_idem. Qed.

Lemma strip_idem s : PyStr.strip (PyStr.strip s) = PyStr.strip s.
Proof. unfold PyStr.strip at 2. now rewrite strip_rstrip, strip_lstrip. Qed.

Lemma split_first_app sep a b :
  all_chars (not_eq_char sep) a = true ->
  split_first sep (a +:+ String sep b) = Some (a, b).
Proof.
  induction a as [| c r IH].
  - intros _. rewrite append_nil_l. simpl.
    destruct (ascii_dec sep sep); [reflexivity | congruence].
  - rewrite append_cons. simpl. unfold not_eq_char at 1.
    destruct (ascii_dec c sep); [discriminate |].
    intros H. simpl in H. now rewrite (IH H).
Qed.

Lemma split_first_Some sep s h t :
  split_first sep s = Some (h, t) ->
  s = h +:+ String sep t /\ all_chars (not_eq_char sep) h = true.
Proof.
  revert h. induction s as [| c r IH]; simpl; intros h; [discriminate |].
  destruct (ascii_dec c sep) as [-> | Hne].
  - intros [= <- <-]. auto.
  - destruct (split_first sep r) as [[h' t'] |]; [| discriminate].
    intros [= <- <-]. destruct (IH h' eq_refl) as [-> Hh].
    split; [reflexivity |]. simpl. unfold not_eq_char at 1.
    destruct (ascii_dec c sep); [contradiction | exact Hh].
Qed.

Lemma all_chars_lstrip f s : all_chars f s = true -> all_chars f (PyStr.lstrip s) = true.
Proof.
  induction s as [| c r IH]; simpl; [done |].
  intros H. destruct (PyStr.isspace c); [| exact H].
  apply andb_true_iff in H as [_ H]. auto.
Qed.

Lemma eq_is_not_space : PyStr.isspace "="%char = false.
Proof. reflexivity. Qed.

(** The stripped form of a line with an [=]. *)
Lemma strip_around_eq a b :
  PyStr.strip (a +:+ String "="%char b) = PyStr.lstrip a +:+ String "="%char (PyStr.rstrip b).
Proof.
  unfold PyStr.strip. rewrite (lstrip_app a b _ eq_is_not_space).
  apply (rstrip_app _ b _ eq_is_not_space).
Qed.

Lemma all_chars_rstrip f s : all_chars f s = true -> all_chars f (PyStr.rstrip s) = true.
Proof.
  induction s as [| c r IH]; simpl; [done |].
  intros H. apply andb_true_iff in H as [Hc Hr]. specialize (IH Hr).
  destruct (PyStr.rstrip r) as [| c' r'].
  - destruct (PyStr.isspace c); simpl; [done | now rewrite Hc].
  - simpl in *. now rewrite Hc.
Qed.

Lemma all_chars_strip f s : all_chars f s = true -> all_chars f (PyStr.strip s) = true.
Proof. intros H. unfold PyStr.strip. now apply all_chars_rstrip, all_chars_lstrip. Qed.

Lemma split_first_None sep s :
  all_chars (not_eq_char sep) s = true -> split_first sep s = None.
Proof.
  induction s as [| c r IH]; simpl; [done |].
  unfold not_eq_char at 1. destruct (ascii_dec c sep); [discriminate |].
  intros H. simpl in H. now rewrite (IH H).
Qed.

Lemma startswith_nil s : PyStr.startswith s EmptyString = true.
Proof. now destruct s. Qed.

Lemma startswith_cons c r (p : ascii) :
  PyStr.startswith (String c r) (String p EmptyString) = if ascii_dec p c then true else false.
Proof. simpl. destruct (ascii_dec p c); [apply startswith_nil | reflexivity]. Qed.

Lemma startswith_app_hash s x :
  PyStr.startswith (s +:+ String "="%char x) "#" = PyStr.startswith s "#".
Proof.
  destruct s as [| c r]; [reflexivity |].
  rewrite append_cons. now rewrite !startswith_cons.
Qed.

Lemma secret_line_no_eq line :
  all_chars (not_eq_char "="%char) line = true -> secret_line line = None.
Proof.
  intros H. unfold secret_line.
  rewrite (split_first_None _ _ (all_chars_strip _ _ H)).
  now destruct (_ || _).
Qed.

Lemma secret_line_eq a b :
  all_chars (not_eq_char "="%char) a = true ->
  secret_line (a +:+ String "="%char b)
  = if PyStr.startswith (PyStr.lstrip a) "#" then None
    else Some (PyStr.strip a, PyStr.strip b).
Proof.
  intros H. unfold secret_line. rewrite strip_around_eq, startswith_app_hash.
  assert (Hne : String.eqb (PyStr.lstrip a +:+ String "="%char (PyStr.rstrip b)) EmptyString
                = false).
  { destruct (PyStr.lstrip a); reflexivity. }
  rewrite Hne. simpl orb.
  destruct (PyStr.startswith (PyStr.lstrip a) "#"); [reflexivity |].
  rewrite (split_first_app _ _ _ (all_chars_lstrip _ _ H)).
  now rewrite strip_lstrip, strip_rstrip.
Qed.

Lemma secret_line_stripped line k v :
  secret_line line = Some (k, v) -> PyStr.strip k = k /\ PyStr.strip v = v.
Proof.
  unfold secret_line. destruct (_ || _); [discriminate |].
  destruct (split_first _ _) as [[key value] |]; [| discriminate].
  intros [= <- <-]. split; apply strip_idem.
Qed.

Lemma defines_dec k line : {defines k line} + {~ defines k line}.
Proof.
  unfold defines. destruct (secret_line line) as [[k' v] |].
  - destruct (decide (k' = k)) as [-> | Hne].
    + left. eauto.
    + right. intros [v' H]. congruence.
  - right. intros [v' H]. discriminate.
Qed.

Lemma load_lines_lookup lines : forall secrets k v,
  load_lines lines secrets !! k = Some v
  <-> (exists l1 line l2,
          lines = l1 ++ line :: l2 /\ secret_line line = Some (k, v)
          /\ Forall (fun l => ~ defines k l) l2)
      \/ (secrets !! k = Some v /\ Forall (fun l => ~ defines k l) lines).
Proof.
  induction lines as [| line rest IH]; intros secrets k v; simpl.
  - split.
    + intros H. right. auto.
    + intros [(l1 & l & l2 & Hl & _) | [H _]]; [| done].
      destruct l1; discriminate.
  - rewrite IH. split.
    + intros [(l1 & l & l2 & -> & Hl & Hl2) | [Hs Hrest]].
      * left. exists (line :: l1), l, l2. auto.
      * destruct (secret_line line) as [[k' v'] |] eqn:Hline.
        -- destruct (decide (k' = k)) as [-> | Hne].
           ++ rewrite lookup_insert_eq in Hs. injection Hs as ->.
              left. exists [], line, rest. auto.
           ++ rewrite lookup_insert_ne in Hs by done.
              right. split; [done |]. constructor; [| done].
              intros [v'' H]. congruence.
        -- right. split; [done |]. constructor; [| done].
           intros [v'' H]. congruence.
    + intros [(l1 & l & l2 & Hl & Hline & Hl2) | [Hs Hall]].
      * destruct l1 as [| x l1]; simpl in Hl; injection Hl as -> ->.
        -- right. rewrite Hline, lookup_insert_eq. auto.
        -- left. exists l1, l, l2. auto.
      * right. inversion Hall as [| ? ? Hline Hrest]; subst.
        split; [| done].
        destruct (secret_line line) as [[k' v'] |] eqn:Hl; [| done].
        rewrite lookup_insert_ne; [done |].
        intros ->. apply Hline. exists v'. exact Hl.
Qed.

(** X1.  [load_secrets] raises [FileNotFoundError] for a missing file;
    otherwise the value it returns for a key is the one of the last line of
    the file that defines that key, and a key no line defines is absent. *)
Theorem load_secrets_last_definition file_path lines k v :
  (exists secrets, load_secrets file_path (Some lines) = inr secrets
     /\ (secrets !! k = Some v
         <-> exists l1 line l2,
               lines = l1 ++ line :: l2 /\ secret_line line = Some (k, v)
               /\ Forall (fun l => ~ defines k l) l2))
  /\ load_secrets file_path None = inl (FileNotFoundError file_path).
Proof.
  split; [| reflexivity].
  exists (load_lines lines ∅). split; [reflexivity |].
  rewrite load_lines_lookup. split.
  - intros [H | [H _]]; [exact H |]. rewrite lookup_empty in H. discriminate.
  - intros H. left. exact H.
Qed.

Lemma strip_head_nonspace s c r :
  PyStr.strip s = String c r -> PyStr.isspace c = false.
Proof.
  unfold PyStr.strip.
  destruct (lstrip_cases s) as [[_ ->] | (sp & c' & r' & _ & _ & Hc & ->)]; [discriminate |].
  rewrite (rstrip_nonspace c' r' Hc). now intros [= <- _].
Qed.

Lemma secret_line_key_not_comment line k v :
  secret_line line = Some (k, v) -> PyStr.startswith k "#" = false.
Proof.
  unfold secret_line.
  destruct (String.eqb (PyStr.strip line) EmptyString) eqn:Hne; [discriminate |].
  destruct (PyStr.startswith (PyStr.strip line) "#") eqn:Hc; [discriminate |]. simpl.
  destruct (split_first _ _) as [[key value] |] eqn:Hs; [| discriminate].
  intros [= <- <-]. apply split_first_Some in Hs as [Hline _].
  destruct key as [| c r]; [reflexivity |].
  rewrite Hline, append_cons in Hc.
  pose proof (strip_head_nonspace line c _ Hline) as Hsp.
  unfold PyStr.strip. simpl PyStr.lstrip. rewrite Hsp.
  rewrite (rstrip_nonspace c r Hsp). now rewrite startswith_cons in *.
Qed.

(** X2.  Every entry of the dict [load_secrets] returns has a key and a
    value without surrounding whitespace, and no key starts with the comment
    mark. *)
Theorem load_secrets_entries_stripped file_path lines secrets k v :
  load_secrets file_path (Some lines) = inr secrets ->
  secrets !! k = Some v ->
  PyStr.strip k = k /\ PyStr.strip v = v /\ PyStr.startswith k "#" = false.
Proof.
  intros [= <-] H. apply load_lines_lookup in H as [(l1 & line & l2 & _ & Hl & _) | [H _]].
  - destruct (secret_line_stripped line k v Hl) as [Hk Hv].
    split; [done |]. split; [done |]. exact (secret_line_key_not_comment line k v Hl).
  - rewrite lookup_empty in H. discriminate.
Qed.

(** X3.  How [load_secrets] reads one line: a line without an equals
    sign is skipped; a line is split at its first equals sign, so the value
    keeps any later one, and both parts are trimmed; a line whose first
    character after the indentation is the comment mark is skipped. *)
Theorem secret_line_parses a b :
  all_chars (not_eq_char "="%char) a = true ->
  secret_line a = None
  /\ secret_line (a +:+ String "="%char b)
     = if PyStr.startswith (PyStr.lstrip a) "#" then None
       else Some (PyStr.strip a, PyStr.strip b).
Proof.
  intros H. split; [now apply secret_line_no_eq | now apply secret_line_eq].
Qed.

Lemma secret_line_parses_witness :
  all_chars (not_eq_char "="%char) "  API_KEY " = true
  /\ secret_line "  API_KEY " = None
  /\ secret_line ("  API_KEY " +:+ String "="%char " abc=d ")
     = Some ("API_KEY", "abc=d").
Proof.
  assert (H : all_chars (not_eq_char "="%char) "  API_KEY " = true) by reflexivity.
  split; [exact H |].
  exact (secret_line_parses "  API_KEY " " abc=d " H).
Defined.

Lemma digits_to_end_dash x y : digits_to_end (x +:+ String "-"%char y) = None.
Proof.
  induction x as [| c r IH].
  - rewrite append_nil_l. simpl. destruct y; reflexivity.
  - rewrite append_cons. simpl. destruct (is_digit c); [exact IH |].
    destruct (Ascii.eqb c "010"); [| reflexivity].
    destruct r; reflexivity.
Qed.

Lemma numeric_suffix_dash x y : x <> EmptyString ->
  numeric_suffix (x +:+ String "-"%char y) = None.
Proof.
  destruct x as [| c r]; [done |]. intros _. rewrite append_cons.
  destruct r as [| d r].
  - rewrite append_nil_l. simpl. destruct (ascii_dec c "-"); reflexivity.
  - rewrite append_cons. simpl. destruct (ascii_dec c "-"); [| reflexivity].
    destruct (is_digit d); [| reflexivity]. apply digits_to_end_dash.
Qed.

Lemma digits_to_end_digits ds :
  all_chars is_digit ds = true -> digits_to_end ds = Some EmptyString.
Proof.
  induction ds as [| c r IH]; simpl; [done |].
  intros H. apply andb_true_iff in H as [Hc Hr]. rewrite Hc. auto.
Qed.

Lemma strip_numeric_suffix_app task ds :
  ds <> EmptyString -> all_chars is_digit ds = true ->
  strip_numeric_suffix (task +:+ String "-"%char ds) = task.
Proof.
  intros Hne Hd. induction task as [| c r IH].
  - rewrite append_nil_l. destruct ds as [| d ds]; [done |].
    simpl in Hd. apply andb_true_iff in Hd as [Hd Hds].
    simpl. rewrite Hd. now rewrite (digits_to_end_digits ds Hds).
  - rewrite append_cons.
    change (match numeric_suffix (String c r +:+ String "-"%char ds) with
            | Some rest => rest
            | None => String c (strip_numeric_suffix (r +:+ String "-"%char ds))
            end = String c r).
    rewrite numeric_suffix_dash by done. now rewrite IH.
Qed.

Lemma strip_numeric_suffix_length s :
  (String.length (strip_numeric_suffix s) <= String.length s)%nat.
Proof.
  induction s as [| c r IH]; [simpl; lia |].
  change (String.length (match numeric_suffix (String c r) with
                         | Some rest => rest
                         | None => String c (strip_numeric_suffix r)
                         end) <= S (String.length r))%nat.
  destruct (numeric_suffix (String c r)) as [rest |] eqn:Hn; [| simpl; lia].
  assert (Hrest : forall x rest', digits_to_end x = Some rest' ->
                                  (String.length rest' <= String.length x)%nat).
  { clear. induction x as [| a x IHx]; simpl; intros rest'.
    - intros [= <-]. simpl. lia.
    - destruct (is_digit a).
      + intros H. apply IHx in H. lia.
      + destruct (Ascii.eqb a "010"); [| discriminate].
        destruct x; [| discriminate]. intros [= <-]. simpl. lia. }
  simpl in Hn. destruct r as [| d r]; [discriminate |].
  destruct (ascii_dec c "-"); [| discriminate].
  destruct (is_digit d); [| discriminate].
  apply Hrest in Hn. simpl. lia.
Qed.

(** The matches of [-\d+$]: what [strip_numeric_suffix] removes. *)
Lemma digits_to_end_Some x rest :
  digits_to_end x = Some rest ->
  exists ds, all_chars is_digit ds = true /\ x = ds +:+ rest
             /\ (rest = EmptyString \/ rest = nl).
Proof.
  revert rest. induction x as [| a x IH]; simpl; intros rest.
  - intros [= <-]. exists EmptyString. auto.
  - destruct (is_digit a) eqn:Ha.
    + intros H. destruct (IH rest H) as (ds & Hds & -> & Hr).
      exists (String a ds). simpl. rewrite Ha. auto.
    + destruct (Ascii.eqb_spec a "010"); [| discriminate].
      destruct x; [| discriminate]. intros [= <-]. subst.
      exists EmptyString. auto.
Qed.

Lemma strip_numeric_suffix_cases s :
  strip_numeric_suffix s = s
  \/ exists base ds rest,
       s = base +:+ String "-"%char (ds +:+ rest)
       /\ ds <> EmptyString /\ all_chars is_digit ds = true
       /\ (rest = EmptyString \/ rest = nl)
       /\ strip_numeric_suffix s = base +:+ rest.
Proof.
  induction s as [| c r IH]; [left; reflexivity |].
  change (strip_numeric_suffix (String c r))
    with (match numeric_suffix (String c r) with
          | Some rest => rest
          | None => String c (strip_numeric_suffix r)
          end).
  destruct (numeric_suffix (String c r)) as [rest |] eqn:Hn.
  - right. simpl in Hn. destruct r as [| d r]; [discriminate |].
    destruct (ascii_dec c "-") as [-> |]; [| discriminate].
    destruct (is_digit d) eqn:Hd; [| discriminate].
    destruct (digits_to_end_Some r rest Hn) as (ds & Hds & -> & Hr).
    exists EmptyString, (String d ds), rest.
    rewrite !append_nil_l, append_cons. simpl. rewrite Hd. auto 10.
  - destruct IH as [-> | (base & ds & rest & -> & Hne & Hds & Hr & ->)]; [now left |].
    right. exists (String c base), ds, rest. rewrite !append_cons. auto 10.
Qed.

Lemma length_append (a b : string) :
  String.length (a +:+ b) = (String.length a + String.length b)%nat.
Proof. induction a as [| c r IH]; [done |]. rewrite append_cons. simpl. now rewrite IH. Qed.

(** X4.  [repo_belongs_to_task] accepts the task name followed by a
    dash and digits, and then does not accept that numbered name as its own
    task. *)
Theorem repo_belongs_to_task_numbered task ds :
  ds <> EmptyString -> all_chars is_digit ds = true ->
  repo_belongs_to_task (task +:+ String "-"%char ds) task = true
  /\ repo_belongs_to_task (task +:+ String "-"%char ds) (task +:+ String "-"%char ds) = false.
Proof.
  intros Hne Hd. unfold repo_belongs_to_task.
  rewrite (strip_numeric_suffix_app task ds Hne Hd). split.
  - apply String.eqb_refl.
  - apply String.eqb_neq. intros H.
    apply (f_equal String.length) in H. rewrite length_append in H. simpl in H. lia.
Qed.

Lemma repo_belongs_to_task_numbered_witness :
  repo_belongs_to_task ("my-task" +:+ String "-"%char "17") "my-task" = true
  /\ repo_belongs_to_task ("my-task" +:+ String "-"%char "17")
                          ("my-task" +:+ String "-"%char "17") = false.
Proof.
  apply (repo_belongs_to_task_numbered "my-task" "17"); [discriminate | reflexivity].
Defined.

(** X5.  [repo_belongs_to_task] accepts nothing but the task name itself
    and the task name with one dash-and-digits group removed from its end
    (or from before a final newline). *)
Theorem repo_belongs_to_task_sound repo_name task :
  repo_belongs_to_task repo_name task = true ->
  repo_name = task
  \/ exists base ds rest,
       repo_name = base +:+ String "-"%char (ds +:+ rest)
       /\ task = base +:+ rest
       /\ ds <> EmptyString /\ all_chars is_digit ds = true
       /\ (rest = EmptyString \/ rest = nl).
Proof.
  unfold repo_belongs_to_task. intros H. apply String.eqb_eq in H. subst task.
  destruct (strip_numeric_suffix_cases repo_name)
    as [-> | (base & ds & rest & -> & Hne & Hds & Hr & ->)]; [now left |].
  right. exists base, ds, rest. auto 10.
Qed.

Lemma repo_belongs_to_task_sound_witness :
  repo_belongs_to_task "quiz-2024" "quiz" = true
  /\ ("quiz-2024" = "quiz"
      \/ exists base ds rest,
           "quiz-2024" = base +:+ String "-"%char (ds +:+ rest)
           /\ "quiz" = base +:+ rest
           /\ ds <> EmptyString /\ all_chars is_digit ds = true
           /\ (rest = EmptyString \/ rest = nl)).
Proof.
  assert (H : repo_belongs_to_task "quiz-2024" "quiz" = true) by reflexivity.
  split; [exact H |]. exact (repo_belongs_to_task_sound "quiz-2024" "quiz" H).
Defined.

Lemma replace_char s c d :
  PyStr.replace s (String c EmptyString) (String d EmptyString)
  = map_chars (subst_char c d) s.
Proof.
  unfold PyStr.replace. induction s as [| x r IH]; [reflexivity |].
  simpl. unfold subst_char at 1. destruct (ascii_dec c x).
  - rewrite startswith_nil. rewrite append_cons, append_nil_l. now rewrite IH.
  - now rewrite IH.
Qed.

Lemma length_map_chars f s : String.length (map_chars f s) = String.length s.
Proof. induction s; simpl; congruence. Qed.

Lemma all_chars_map_chars (p : ascii -> bool) f s :
  (forall c, p (f c) = true) -> all_chars p (map_chars f s) = true.
Proof. intros H. induction s; simpl; [done |]. now rewrite H. Qed.

Lemma map_chars_id f s :
  all_chars (fun c => if ascii_dec (f c) c then true else false) s = true ->
  map_chars f s = s.
Proof.
  induction s as [| c r IH]; simpl; [done |].
  destruct (ascii_dec (f c) c) as [-> |]; [| discriminate].
  simpl. intros H. now rewrite IH.
Qed.

Lemma safe_task_map task :
  safe_task task = map_chars (subst_char "/" "-") (map_chars (subst_char " " "-") task).
Proof. unfold safe_task. now rewrite !replace_char. Qed.

(** X6.  The repository name made from a task has no space and no
    slash, is as long as the task, is the task itself when the task has
    neither, and making it again changes nothing. *)
Theorem safe_task_name task :
  all_chars name_char (safe_task task) = true
  /\ String.length (safe_task task) = String.length task
  /\ (all_chars name_char task = true -> safe_task task = task)
  /\ safe_task (safe_task task) = safe_task task.
Proof.
  assert (Hclean : forall t, all_chars name_char t = true -> safe_task t = t).
  { intros t. rewrite safe_task_map. induction t as [| c r IH]; simpl; [done |].
    intros H. apply andb_true_iff in H as [Hc Hr]. rewrite (IH Hr).
    f_equal. unfold name_char in Hc. unfold subst_char.
    destruct (ascii_dec " " c) as [<- |]; [discriminate |].
    destruct (ascii_dec "/" c) as [<- |]; [discriminate | reflexivity]. }
  assert (Hname : all_chars name_char (safe_task task) = true).
  { rewrite safe_task_map. induction task as [| c r IH]; simpl; [done |].
    rewrite IH, andb_true_r. unfold subst_char, name_char.
    destruct (ascii_dec " " c) as [<- |]; [reflexivity |].
    destruct (ascii_dec "/" c) as [<- |]; [reflexivity |].
    destruct (Ascii.eqb_spec c " "); [congruence |].
    destruct (Ascii.eqb_spec c "/"); [congruence | reflexivity]. }
  split; [exact Hname |]. split.
  - rewrite safe_task_map. now rewrite !length_map_chars.
  - split; [apply Hclean | now apply Hclean].
Qed.

Lemma safe_task_name_witness :
  all_chars name_char "a-b" = true /\ safe_task "a-b" = "a-b".
Proof.
  assert (H : all_chars name_char "a-b" = true) by reflexivity.
  split; [exact H |].
  exact (proj1 (proj2 (proj2 (safe_task_name "a-b"))) H).
Defined.

Lemma all_chars_filter f s : all_chars f (PyStr.filter f s) = true.
Proof.
  induction s as [| c r IH]; simpl; [done |].
  destruct (f c) eqn:Hc; simpl; [now rewrite Hc | exact IH].
Qed.

Lemma all_chars_take f n s : all_chars f s = true -> all_chars f (PyStr.take n s) = true.
Proof.
  revert n. induction s as [| c r IH]; intros [| n]; simpl; try done.
  intros H. apply andb_true_iff in H as [Hc Hr]. now rewrite Hc, IH.
Qed.

Lemma length_take n s : (String.length (PyStr.take n s) <= n)%nat.
Proof.
  revert s. induction n as [| n IH]; intros [| c r]; simpl; try lia.
  specialize (IH r). lia.
Qed.

Lemma printable_not_control s (c : ascii) :
  PyStr.isprintable c = false ->
  all_chars PyStr.isprintable s = true ->
  map_chars (subst_char c " ") s = s.
Proof.
  intros Hc. induction s as [| x r IH]; simpl; [done |].
  intros H. apply andb_true_iff in H as [Hx Hr]. rewrite (IH Hr).
  unfold subst_char. destruct (ascii_dec c x) as [-> |]; [congruence | reflexivity].
Qed.

(** X7.  The repository description made from a brief is the first 350
    characters of the printable characters of the brief, trimmed (the two
    replacements of line breaks never fire, line breaks not being
    printable): at most 350 characters, all printable, no leading
    whitespace. *)
Theorem clean_description_bounds brief :
  clean_description brief
  = PyStr.take 350 (PyStr.strip (PyStr.filter PyStr.isprintable brief))
  /\ (String.length (clean_description brief) <= 350)%nat
  /\ all_chars PyStr.isprintable (clean_description brief) = true
  /\ PyStr.lstrip (clean_description brief) = clean_description brief.
Proof.
  assert (Heq : clean_description brief
                = PyStr.take 350 (PyStr.strip (PyStr.filter PyStr.isprintable brief))).
  { unfold clean_description, nl, cr. rewrite !replace_char.
    rewrite (printable_not_control _ "010"%char eq_refl (all_chars_filter _ brief)).
    now rewrite (printable_not_control _ "013"%char eq_refl (all_chars_filter _ brief)). }
  split; [exact Heq |]. rewrite Heq. split; [apply length_take |]. split.
  - apply all_chars_take, all_chars_strip, all_chars_filter.
  - destruct (PyStr.strip (PyStr.filter PyStr.isprintable brief)) as [| c r] eqn:Hs;
      [reflexivity |].
    apply strip_head_nonspace in Hs. simpl. now rewrite Hs.
Qed.

Section GhInv.

Context {A B : Type}.
Variable J : gmap string Repo -> Prop.

Lemma gh_inv_keeps (m : M A) : keeps_gh m -> gh_inv J m.
Proof. intros Hk st H. now rewrite Hk. Qed.

Lemma gh_inv_bind (m : M A) (f : A -> M B) :
gh_inv J m -> (forall a, gh_inv J (f a)) -> gh_inv J (bind m f).
Proof.
intros Hm Hf st H. unfold bind. specialize (Hm st H).
destruct (m st) as [[a | e |] st1]; simpl in *; auto. now apply Hf.
Qed.

Lemma gh_inv_bind_r (Q : A -> Prop) (m : M A) (f : A -> M B) :
returns Q m -> gh_inv J m -> (forall a, Q a -> gh_inv J (f a)) -> gh_inv J (bind m f).
Proof.
intros HQ Hm Hf st H. unfold bind. specialize (Hm st H).
destruct (m st) as [[a | e |] st1] eqn:Hrun; simpl in *; auto.
apply Hf; [exact (HQ _ _ _ Hrun) | done].
Qed.

Lemma gh_inv_try (m : M A) c h :
gh_inv J m -> (forall e, gh_inv J (h e)) -> gh_inv J (try_except m c h).
Proof.
intros Hm Hh st H. unfold try_except. specialize (Hm st H).
destruct (m st) as [[a | e |] st1]; simpl in *; auto.
destruct (c e); simpl; auto. now apply Hh.
Qed.

Lemma gh_inv_run (m : M A) st o st' :
gh_inv J m -> m st = (o, st') -> J (gh st) -> J (gh st').
Proof. intros Hm Hrun H. specialize (Hm st H). now rewrite Hrun in Hm. Qed.

End GhInv.

Section GhInvPlatform.

Variable J : gmap string Repo -> Prop.

Lemma gh_inv_the_repo repo : gh_inv J (the_repo repo).
Proof. apply gh_inv_keeps, keeps_the_repo. Qed.

Lemma gh_inv_get_repo name : gh_inv J (get_repo name).
Proof. apply gh_inv_keeps. unfold get_repo. keeps_tac. Qed.

Lemma gh_inv_get_contents repo path : gh_inv J (get_contents repo path).
Proof. apply gh_inv_keeps. unfold get_contents, the_repo. keeps_tac. Qed.

Lemma the_repo_returns repo st r st' :
the_repo repo st = (Ret r, st') -> gh st !! repo = Some r /\ st' = st.
Proof.
unfold the_repo, bind, get_gh. destruct (gh st !! repo); [| discriminate].
now intros [= <- <-].
Qed.

Lemma gh_inv_create_file repo path msg c :
(forall g r, J g -> g !! repo = Some r -> r_files r !! path = None ->
             J (<[repo := committed r path msg c]> g)) ->
gh_inv J (create_file repo path msg c).
Proof.
intros HJ st H. unfold create_file, bind, emit, the_repo, get_gh, commit. cbn.
destruct (gh st !! repo) as [r |] eqn:Hr; cbn; [| done].
destruct (r_files r !! path) eqn:Hp; cbn; [done |]. now apply HJ.
Qed.

Lemma gh_inv_update_file w repo path msg c :
(forall g r, J g -> g !! repo = Some r -> is_Some (r_files r !! path) ->
             J (<[repo := committed r path msg c]> g)) ->
gh_inv J (update_file w repo path msg c).
Proof.
intros HJ st H.
unfold update_file, bind, emit, the_repo, get_gh, get_trace, commit. cbn.
destruct (gh st !! repo) as [r |] eqn:Hr; cbn; [| done].
destruct (r_files r !! path) eqn:Hp; cbn; [| done].
destruct (update_refused w _); cbn; [done |]. apply HJ; eauto.
Qed.

Lemma gh_inv_repo_delete repo : gh_inv J (repo_delete repo).
Proof. apply gh_inv_keeps. unfold repo_delete, the_repo. keeps_tac. Qed.

Lemma gh_inv_deletion_shows w repo k :
(forall g, J g -> J (delete repo g)) -> gh_inv J (deletion_shows w repo k).
Proof.
intros HJ st H. unfold deletion_shows, bind, get_gh, when, set_gh. cbn.
destruct (delete_lag w repo <=? k)%nat; cbn; [now apply HJ | done].
Qed.

Lemma gh_inv_create_repo w name desc :
(forall g, J g -> g !! name = None ->
   J (<[name := mkRepo desc {["LICENSE" := github_mit_license w]}
                   [mkCommit "LICENSE" "Initial commit" (github_mit_license w)]]> g)) ->
gh_inv J (create_repo w name desc).
Proof.
intros HJ st H. unfold create_repo, bind, emit, get_gh. cbn.
destruct (gh st !! name) as [r |] eqn:Hr; cbn; [done |]. now apply HJ.
Qed.

Lemma keeps_callback_loop w url p fuel : forall k delay,
keeps_gh (callback_loop w fuel url p k delay).
Proof.
induction fuel as [| fuel IH]; intros k delay; simpl; [now intros st |].
apply keeps_bind; [unfold requests_post; keeps_tac | intros r].
destruct (is_200 r); [apply keeps_ret |].
apply keeps_bind; [keeps_tac | intros _].
apply keeps_bind; [apply keeps_sleep | intros _; apply IH].
Qed.

Lemma keeps_report w fuel email task round_ nonce url result :
keeps_gh (report w fuel email task round_ nonce url result).
Proof. destruct result as [[a b] c]. apply keeps_callback_loop. Qed.

Lemma keeps_save_attachments w l : keeps_gh (save_attachments w l).
Proof. apply local_save_attachments. Qed.

Lemma keeps_generate w b c a : keeps_gh (generate_minimal_app w b c a).
Proof. apply local_generate. Qed.

End GhInvPlatform.

(** Steps on one repository under an invariant that every commit to that
    repository, its creation and its deletion keep. *)
Ltac inv_step :=
  first
    [ apply gh_inv_keeps;
      first [ apply keeps_ret | apply keeps_raise | apply keeps_print | apply keeps_lift
            | apply keeps_as_str | apply keeps_emit | apply keeps_get_gh
            | apply keeps_time_time | apply keeps_advance | apply keeps_sleep
            | apply keeps_the_repo | apply keeps_enable_pages
            | apply keeps_latest_commit_sha | apply keeps_wait_for_pages_ready
            | apply keeps_report | apply keeps_save_attachments | apply keeps_generate ]
    | apply gh_inv_get_repo | apply gh_inv_get_contents
    | apply gh_inv_bind; [| intros ?]
    | apply gh_inv_try; [| intros ?]
    | match goal with
      | |- gh_inv _ (when ?b _) => destruct b; simpl when
      | |- gh_inv _ (if ?b then _ else _) => destruct b
      | |- gh_inv _ (match ?x with _ => _ end) => destruct x
      end ].

Ltac inv_tac := repeat inv_step.

Section CommitClosed.

Variable w : World.
Variable J : gmap string Repo -> Prop.
Variable repo : string.
Hypothesis HJ : commit_closed J repo.

Lemma cc_create_file path msg c : gh_inv J (create_file repo path msg c).
Proof. apply gh_inv_create_file. intros g r Hg Hr _. now apply HJ. Qed.

Lemma cc_update_file path msg c : gh_inv J (update_file w repo path msg c).
Proof. apply gh_inv_update_file. intros g r Hg Hr _. now apply HJ. Qed.

Ltac cc := repeat first [ apply cc_create_file | apply cc_update_file | inv_step ].

Lemma cc_update_file_safely f c msg : gh_inv J (update_file_safely w repo f c msg).
Proof. unfold update_file_safely. cc. Qed.

Lemma cc_llm_update_file task nb f old role ext :
gh_inv J (llm_update_file w task nb f old role ext).
Proof. apply gh_inv_keeps. unfold llm_update_file. keeps_tac. Qed.

Lemma cc_merge_html_update task nb : gh_inv J (merge_html_update w task nb repo).
Proof. unfold merge_html_update. cc. Qed.

Lemma cc_merge_css_update task nb : gh_inv J (merge_css_update w task nb repo).
Proof. unfold merge_css_update. cc. Qed.

Lemma cc_merge_js_update task nb : gh_inv J (merge_js_update w task nb repo).
Proof. unfold merge_js_update. cc. Qed.

Lemma cc_update_index_html task nb : gh_inv J (update_index_html w task nb repo).
Proof.
unfold update_index_html, html_commit, html_check.
apply gh_inv_try; [| intros; apply cc_merge_html_update].
apply gh_inv_bind; [apply gh_inv_get_contents | intros old].
apply gh_inv_bind; [| intros; cc].
apply gh_inv_bind; [apply cc_llm_update_file | intros u].
apply gh_inv_bind; [| intros; cc].
destruct (llm_update_insufficient _ _).
- apply gh_inv_bind; [cc | intros; apply cc_merge_html_update].
- apply cc_update_file_safely.
Qed.

Lemma cc_update_style_css task nb : gh_inv J (update_style_css w task nb repo).
Proof.
unfold update_style_css.
apply gh_inv_try; [| intros; apply cc_merge_css_update].
apply gh_inv_bind; [apply gh_inv_get_contents | intros old].
apply gh_inv_bind; [apply cc_llm_update_file | intros u].
destruct (llm_update_insufficient _ _).
- apply gh_inv_bind; [cc | intros; apply cc_merge_css_update].
- apply cc_update_file_safely.
Qed.

Lemma cc_update_script_js task nb : gh_inv J (update_script_js w task nb repo).
Proof.
unfold update_script_js.
apply gh_inv_try; [| intros; apply cc_merge_js_update].
apply gh_inv_bind; [apply gh_inv_get_contents | intros old].
apply gh_inv_bind; [apply cc_llm_update_file | intros u].
destruct (llm_update_insufficient _ _).
- apply gh_inv_bind; [cc | intros; apply cc_merge_js_update].
- apply cc_update_file_safely.
Qed.

Lemma cc_update_readme task nb : gh_inv J (update_readme w task nb repo).
Proof. unfold update_readme. cc. Qed.

Lemma cc_process_attachments atts : gh_inv J (process_attachments w atts repo).
Proof.
unfold process_attachments.
apply gh_inv_bind; [cc | intros l].
induction l as [| att l IH]; simpl; [cc |].
apply gh_inv_bind; [| intros; exact IH].
unfold process_attachment. cc.
Qed.

Lemma cc_upload_all d : forall seen, gh_inv J (upload_all repo seen d).
Proof.
induction d as [| [filename content] d IH]; intros seen; simpl; [cc |].
apply gh_inv_bind; [| intros; apply IH].
unfold upload_one. cc.
Qed.

Lemma cc_write_license : gh_inv J (write_license w repo).
Proof. unfold write_license. cc. Qed.

End CommitClosed.

Lemma get_repo_returns name : returns (fun repo => repo = name) (get_repo name).
Proof.
  intros st a st'. unfold get_repo, bind, emit, get_gh. cbn.
  destruct (gh st !! name); cbn; [| discriminate]. now intros [= <- _].
Qed.

Lemma gh_inv_update_existing_repo w J task nb :
  commit_closed J (safe_task task) ->
  gh_inv J (update_existing_repo w task nb).
Proof.
  intros HJ. unfold update_existing_repo.
  eapply gh_inv_bind_r; [apply get_repo_returns | apply gh_inv_get_repo | intros repo ->].
  apply gh_inv_bind; [now apply cc_update_index_html | intros _].
  apply gh_inv_bind; [now apply cc_update_style_css | intros _].
  apply gh_inv_bind; [now apply cc_update_script_js | intros _].
  apply gh_inv_bind; [now apply cc_update_readme | intros _].
  inv_tac.
Qed.

Lemma gh_inv_fix_common_ci_errors J d : gh_inv J (fix_common_ci_errors d).
Proof.
  induction d as [| [fname content] d IH]; simpl; [inv_tac |].
  apply gh_inv_bind; [unfold fix_entry; inv_tac | intros c].
  apply gh_inv_bind; [exact IH | intros; inv_tac].
Qed.

Lemma gh_inv_strip_license J app_code : gh_inv J (strip_license app_code).
Proof. unfold strip_license. inv_tac. Qed.

Lemma gh_inv_deletion_wait w J name n :
  (forall g, J g -> J (delete name g)) ->
  forall k, gh_inv J (deletion_wait w n k name).
Proof.
  intros HJ. induction n as [| n IH]; intros k; simpl; [inv_tac |].
  apply gh_inv_bind; [inv_tac | intros _].
  apply gh_inv_bind; [now apply gh_inv_deletion_shows | intros _].
  apply gh_inv_bind; [inv_tac | intros gone].
  destruct gone; [inv_tac |]. apply gh_inv_bind; [inv_tac | intros; apply IH].
Qed.

Lemma gh_inv_delete_repo_if_exists w J name :
  (forall g, J g -> J (delete name g)) -> gh_inv J (delete_repo_if_exists w name).
Proof.
  intros HJ. unfold delete_repo_if_exists.
  apply gh_inv_try; [| intros; inv_tac].
  eapply gh_inv_bind_r; [apply get_repo_returns | apply gh_inv_get_repo | intros repo ->].
  apply gh_inv_bind; [apply gh_inv_repo_delete | intros _].
  apply gh_inv_bind; [inv_tac | intros _; now apply gh_inv_deletion_wait].
Qed.

Lemma gh_inv_create_and_deploy_repo w J task app_code brief atts :
  repo_closed J (safe_task task) ->
  gh_inv J (create_and_deploy_repo w task app_code brief atts).
Proof.
  intros (Hc & Hd & Hn). unfold create_and_deploy_repo.
  apply gh_inv_bind.
  { apply gh_inv_try; [| intros; inv_tac].
    eapply gh_inv_bind_r; [apply get_repo_returns | apply gh_inv_get_repo | intros repo ->].
    now apply gh_inv_delete_repo_if_exists. }
  intros _. apply gh_inv_bind; [inv_tac | intros _].
  eapply gh_inv_bind_r; [apply create_repo_returns | | intros repo ->].
  { apply gh_inv_create_repo. intros g Hg _. now apply Hn. }
  apply gh_inv_bind; [apply gh_inv_strip_license | intros d].
  apply gh_inv_bind; [apply gh_inv_fix_common_ci_errors | intros d'].
  apply gh_inv_bind; [now apply cc_upload_all | intros _].
  apply gh_inv_bind.
  { destruct (py_truthy atts); simpl when; [now apply cc_process_attachments | inv_tac]. }
  intros _. apply gh_inv_bind; [inv_tac | intros _].
  apply gh_inv_bind; [inv_tac | intros r].
  apply gh_inv_bind; [inv_tac | intros _].
  apply gh_inv_bind; [now apply cc_write_license | intros _].
  inv_tac.
Qed.

Lemma item_returns d k : returns (fun a => dict_lookup k d = Some a) (item d k).
Proof. intros st a st' H. now apply item_run in H as [H _]. Qed.

Lemma as_str_returns e v : returns (fun a => v = JStr a) (as_str e v).
Proof. intros st a st' H. now apply as_str_run in H as [H _]. Qed.

Lemma untouched_repo_closed other (x : option Repo) repo :
  other <> repo -> repo_closed (fun g => g !! other = x) repo.
Proof.
  intros Hne. split; [| split].
  - intros g r path msg c Hg _. now rewrite lookup_insert_ne.
  - intros g Hg. now rewrite lookup_delete_ne.
  - intros g r Hg. now rewrite lookup_insert_ne.
Qed.

Lemma gh_inv_pipeline w fuel d J :
  (forall t, dict_lookup "task" d = Some (JStr t) -> repo_closed J (safe_task t)) ->
  gh_inv J (pipeline w fuel d).
Proof.
  intros HJ. unfold pipeline.
  apply gh_inv_bind; [unfold item; inv_tac | intros email].
  eapply gh_inv_bind_r; [apply item_returns | unfold item; inv_tac | intros task Htask].
  do 4 (apply gh_inv_bind; [unfold item; inv_tac | intros ?]).
  apply gh_inv_bind; [inv_tac | intros files].
  apply gh_inv_bind; [inv_tac | intros _].
  apply gh_inv_bind; [inv_tac | intros app_code].
  destruct (py_eq_int _ 1); [| destruct (py_eq_int _ 2)]; [| | inv_tac].
  - eapply gh_inv_bind_r; [apply as_str_returns | inv_tac | intros t ->].
    apply gh_inv_bind; [inv_tac | intros b].
    apply gh_inv_bind; [| intros; inv_tac].
    apply gh_inv_create_and_deploy_repo. now apply HJ.
  - eapply gh_inv_bind_r; [apply as_str_returns | inv_tac | intros t ->].
    apply gh_inv_bind; [inv_tac | intros b].
    apply gh_inv_bind; [| intros; inv_tac].
    apply gh_inv_update_existing_repo. now apply HJ.
Qed.

(** X8.  A request leaves every repository other than the one named after its
    task as it was, whatever the outcome. *)
Theorem build_app_touches_only_its_repo w S fuel data st other :
  (forall d t, data = JObj d -> dict_lookup "task" d = Some (JStr t) ->
               other <> safe_task t) ->
  gh (snd (build_app w S fuel data st)) !! other = gh st !! other.
Proof.
  intros Hother. destruct data as [| | | | | d]; try reflexivity.
  unfold build_app. destruct (py_ne_env _ _); [reflexivity |].
  apply (gh_inv_pipeline w fuel d (fun g => g !! other = gh st !! other)); [| reflexivity].
  intros t Ht. apply untouched_repo_closed. now apply (Hother d t).
Qed.

Lemma build_app_touches_only_its_repo_witness :
  gh (snd (build_app demo_world demo_secret 5 (JObj (demo_request "s3cret" 1)) demo_state))
     !! "other" = gh demo_state !! "other".
Proof.
  apply (build_app_touches_only_its_repo demo_world demo_secret 5
           (JObj (demo_request "s3cret" 1)) demo_state "other").
  intros d t [= <-] [= <-]. discriminate.
Defined.

Lemma extends_repo_commit_closed repo r : commit_closed (extends_repo repo r) repo.
Proof.
  intros g r1 path msg c (r' & Hr' & Hd & Hf & Hc) Hr1.
  rewrite Hr' in Hr1. injection Hr1 as <-.
  exists (committed r' path msg c). rewrite lookup_insert_eq.
  split; [done |]. split; [done |]. split.
  - intros p Hp. simpl. destruct (decide (path = p)) as [-> | Hne].
    + rewrite lookup_insert_eq. eauto.
    + rewrite lookup_insert_ne by done. auto.
  - simpl. now apply suffix_cons_r.
Qed.

(** X9.  Round 2 only adds commits: the repository stays, with its description,
    every file it had, and its history below the new commits. *)
Theorem update_existing_repo_only_adds w task new_brief st r :
  gh st !! safe_task task = Some r ->
  extends_repo (safe_task task) r (gh (snd (update_existing_repo w task new_brief st))).
Proof.
  intros Hr.
  apply (gh_inv_update_existing_repo w (extends_repo (safe_task task) r) task new_brief).
  - apply extends_repo_commit_closed.
  - exists r. repeat split; [done | auto |]. reflexivity.
Qed.

Lemma update_existing_repo_only_adds_witness :
  gh demo_state !! safe_task "demo" = Some demo_repo
  /\ extends_repo (safe_task "demo") demo_repo
       (gh (snd (update_existing_repo demo_world "demo" "more" demo_state))).
Proof.
  assert (H : gh demo_state !! safe_task "demo" = Some demo_repo) by (vm_compute; reflexivity).
  split; [exact H |].
  exact (update_existing_repo_only_adds demo_world "demo" "more" demo_state demo_repo H).
Defined.

Lemma get_repo_missing name st :
  gh st !! name = None ->
  get_repo name st = (Raised UnknownObjectException, log (GhGetRepo name) st).
Proof. intros H. unfold get_repo, bind, emit, get_gh. cbn. now rewrite H. Qed.


(** X10.  Round 2 on a task that has no repository: the lookup raises, nothing
    else happens. *)
Theorem update_existing_repo_missing w task new_brief st :
  gh st !! safe_task task = None ->
  update_existing_repo w task new_brief st
  = (Raised UnknownObjectException, log (GhGetRepo (safe_task task)) st).
Proof.
  intros H. unfold update_existing_repo. apply bind_raised. now apply get_repo_missing.
Qed.

Lemma update_existing_repo_missing_witness :
  gh empty_state !! safe_task "demo" = None
  /\ update_existing_repo demo_world "demo" "more" empty_state
     = (Raised UnknownObjectException, log (GhGetRepo (safe_task "demo")) empty_state).
Proof.
  assert (H : gh empty_state !! safe_task "demo" = None) by (vm_compute; reflexivity).
  split; [exact H |].
  exact (update_existing_repo_missing demo_world "demo" "more" empty_state H).
Defined.

Section MissingAsset.

Variable w : World.
Variables task new_brief repo : string.
Variable r : Repo.

Lemma merge_html_update_missing st :
gh st !! repo = Some r -> r_files r !! "index.html" = None ->
exists st',
  merge_html_update w task new_brief repo st = (Ret tt, st')
  /\ gh st' = <[repo := committed r "index.html" "Initial HTML" "<h1>Hello World</h1>"]> (gh st)
  /\ trace st' = trace st ++ [GhGetContents repo "index.html";
                              GhCreateFile repo "index.html" "Initial HTML"
                                           "<h1>Hello World</h1>"].
Proof.
intros Hr Hf. unfold merge_html_update. eexists. split.
- etransitivity;
    [apply try_caught;
     [apply bind_raised; now apply (get_contents_missing repo _ r) | reflexivity] |].
  cbv beta. change (is_UnknownObjectException UnknownObjectException) with true.
  cbv iota.
  erewrite bind_run by (apply (create_file_run repo _ r); [exact Hr | exact Hf]).
  reflexivity.
- simpl. now rewrite <- app_assoc.
Qed.

Lemma merge_css_update_missing st :
gh st !! repo = Some r -> r_files r !! "style.css" = None ->
exists st',
  merge_css_update w task new_brief repo st = (Ret tt, st')
  /\ gh st' = <[repo := committed r "style.css" "Add CSS"
                          "body { font-family: sans-serif; }"]> (gh st)
  /\ trace st' = trace st ++ [GhGetContents repo "style.css";
                              GhCreateFile repo "style.css" "Add CSS"
                                           "body { font-family: sans-serif; }"].
Proof.
intros Hr Hf. unfold merge_css_update. eexists. split.
- etransitivity;
    [apply try_caught;
     [apply bind_raised; now apply (get_contents_missing repo _ r) | reflexivity] |].
  cbv beta. change (is_UnknownObjectException UnknownObjectException) with true.
  cbv iota.
  erewrite bind_run by (apply (create_file_run repo _ r); [exact Hr | exact Hf]).
  reflexivity.
- simpl. now rewrite <- app_assoc.
Qed.

Lemma merge_js_update_missing st :
gh st !! repo = Some r -> r_files r !! "script.js" = None ->
exists st',
  merge_js_update w task new_brief repo st = (Ret tt, st')
  /\ gh st' = <[repo := committed r "script.js" "Add JS"
                          "console.log('Initial script');"]> (gh st)
  /\ trace st' = trace st ++ [GhGetContents repo "script.js";
                              GhCreateFile repo "script.js" "Add JS"
                                           "console.log('Initial script');"].
Proof.
intros Hr Hf. unfold merge_js_update. eexists. split.
- etransitivity;
    [apply try_caught;
     [apply bind_raised; now apply (get_contents_missing repo _ r) | reflexivity] |].
  cbv beta. change (is_UnknownObjectException UnknownObjectException) with true.
  cbv iota.
  erewrite bind_run by (apply (create_file_run repo _ r); [exact Hr | exact Hf]).
  reflexivity.
- simpl. now rewrite <- app_assoc.
Qed.

End MissingAsset.

(** X11.  A Round 2 asset step on a repository without the asset creates the
    fixed default file, whatever the brief says, and does not call the
    model. *)
Theorem asset_step_creates_default w task new_brief repo r st a :
  gh st !! repo = Some r ->
  r_files r !! asset_path a = None ->
  exists st',
    asset_step w task new_brief a repo st = (Ret tt, st')
    /\ gh st' = <[repo := committed r (asset_path a) (fst (default_commit a))
                            (snd (default_commit a))]> (gh st)
    /\ trace st' = trace st ++
         [GhGetContents repo (asset_path a); GhGetContents repo (asset_path a);
          GhCreateFile repo (asset_path a) (fst (default_commit a)) (snd (default_commit a))].
Proof.
  intros Hr Hf.
  set (st0 := log (GhGetContents repo (asset_path a)) st).
  assert (Hr0 : gh st0 !! repo = Some r) by exact Hr.
  destruct a; simpl in *.
  - destruct (merge_html_update_missing w task new_brief repo r st0 Hr0 Hf) as (st' & E & Hg & Ht).
    exists st'. split; [| split; [exact Hg | rewrite Ht; simpl; now rewrite <- app_assoc]].
    unfold update_index_html.
    etransitivity;
      [apply try_caught;
       [apply bind_raised; now apply (get_contents_missing repo _ r) | reflexivity] |].
    exact E.
  - destruct (merge_css_update_missing w task new_brief repo r st0 Hr0 Hf) as (st' & E & Hg & Ht).
    exists st'. split; [| split; [exact Hg | rewrite Ht; simpl; now rewrite <- app_assoc]].
    unfold update_style_css.
    etransitivity;
      [apply try_caught;
       [apply bind_raised; now apply (get_contents_missing repo _ r) | reflexivity] |].
    exact E.
  - destruct (merge_js_update_missing w task new_brief repo r st0 Hr0 Hf) as (st' & E & Hg & Ht).
    exists st'. split; [| split; [exact Hg | rewrite Ht; simpl; now rewrite <- app_assoc]].
    unfold update_script_js.
    etransitivity;
      [apply try_caught;
       [apply bind_raised; now apply (get_contents_missing repo _ r) | reflexivity] |].
    exact E.
Qed.

Lemma asset_step_creates_default_witness :
  gh demo_state !! "demo" = Some demo_repo
  /\ r_files demo_repo !! asset_path StyleCss = None
  /\ exists st',
       asset_step demo_world "demo" "make it dark" StyleCss "demo" demo_state = (Ret tt, st')
       /\ gh st' = <[ "demo" := committed demo_repo "style.css" "Add CSS"
                                 "body { font-family: sans-serif; }"]> (gh demo_state)
       /\ trace st' = trace demo_state ++
            [GhGetContents "demo" "style.css"; GhGetContents "demo" "style.css";
             GhCreateFile "demo" "style.css" "Add CSS" "body { font-family: sans-serif; }"].
Proof.
  assert (H1 : gh demo_state !! "demo" = Some demo_repo) by (vm_compute; reflexivity).
  assert (H2 : r_files demo_repo !! asset_path StyleCss = None) by (vm_compute; reflexivity).
  split; [exact H1 |]. split; [exact H2 |].
  exact (asset_step_creates_default demo_world "demo" "make it dark" "demo" demo_repo
           demo_state StyleCss H1 H2).
Defined.

(** X12.  [update_readme] commits the README: the title and the brief
    when there was none, and the Round 2 text over an existing file when
    the platform accepts the update.  When the platform refuses the update,
    the handler tries to create the file, which exists: the step raises the
    422 of that creation and the repository stays as it was. *)
Theorem update_readme_rewrites w task new_brief repo r st :
  gh st !! repo = Some r ->
  let c := readme_commit task new_brief (bool_decide (is_Some (r_files r !! "README.md"))) in
  let update := trace st ++ [GhGetContents repo "README.md";
                             GhUpdateFile repo "README.md" (fst c) (snd c)] in
  (r_files r !! "README.md" = None \/ update_refused w update = None ->
   exists st',
     update_readme w task new_brief repo st = (Ret tt, st')
     /\ gh st' = <[repo := committed r "README.md" (fst c) (snd c)]> (gh st))
  /\ (is_Some (r_files r !! "README.md") -> update_refused w update <> None ->
      exists st',
        update_readme w task new_brief repo st = (Raised (GithubException 422), st')
        /\ gh st' = gh st).
Proof.
  intros Hr c update. unfold update_readme. subst update c.
  destruct (r_files r !! "README.md") as [old |] eqn:Hf.
  - rewrite bool_decide_eq_true_2 by eauto. cbn [readme_commit fst snd].
    split.
    + intros [H | Ha]; [discriminate |]. eexists. split.
      * apply try_run.
        erewrite bind_run by (apply (get_contents_run repo _ r); eauto).
        apply (update_file_run w repo _ r); [exact Hr | eauto |].
        simpl. rewrite <- app_assoc. exact Ha.
      * reflexivity.
    + intros _ Ha.
      destruct (update_refused w _) as [why |] eqn:E; [| now contradiction Ha].
      eexists. split.
      * etransitivity.
        -- apply try_caught; [| apply (refusal_is_github why)].
           erewrite bind_run by (apply (get_contents_run repo _ r); eauto).
           apply (update_file_refused w repo _ r); [exact Hr | eauto |].
           simpl. rewrite <- app_assoc. exact E.
        -- cbv beta. apply (create_file_taken repo _ r); [exact Hr | eauto].
      * reflexivity.
  - rewrite bool_decide_eq_false_2 by (intros [? ?]; discriminate).
    split; [| intros [? ?]; discriminate].
    intros _. eexists. split.
    + etransitivity;
        [apply try_caught;
         [apply bind_raised; now apply (get_contents_missing repo _ r) | reflexivity] |].
      apply (create_file_run repo _ r); [exact Hr | exact Hf].
    + reflexivity.
Qed.

Lemma update_readme_rewrites_witness :
  gh demo_state !! "demo" = Some demo_repo
  /\ r_files demo_repo !! "README.md" = None
  /\ exists st',
       update_readme demo_world "demo" "more" "demo" demo_state = (Ret tt, st')
       /\ gh st' = <[ "demo" := committed demo_repo "README.md" "Add README"
                                 ("# demo" +:+ nl +:+ nl +:+ "more")]> (gh demo_state).
Proof.
  assert (H1 : gh demo_state !! "demo" = Some demo_repo) by (vm_compute; reflexivity).
  assert (H2 : r_files demo_repo !! "README.md" = None) by (vm_compute; reflexivity).
  split; [exact H1 |]. split; [exact H2 |].
  exact (proj1 (update_readme_rewrites demo_world "demo" "more" "demo" demo_repo
                  demo_state H1) (or_introl H2)).
Defined.


Section DeletionWait.

Variable w : World.
Variable name : string.




End DeletionWait.


Lemma enable_pages_returns w repo :
  returns (fun p => p = if pages_ok w then Some (pages_url_of w repo) else None)
          (enable_pages w repo).
Proof.
  intros st p st'. unfold enable_pages, try_except, bind, emit, pages_ok. cbn.
  destruct (pages_enable_status w) as [s |]; cbn.
  - destruct ((s =? 200) || (s =? 201)); cbn; now intros [= <- _].
  - now intros [= <- _].
Qed.

Lemma latest_commit_sha_returns w repo st sha st' :
  latest_commit_sha w repo st = (Ret sha, st') ->
  exists r, gh st' !! repo = Some r /\ sha = sha_of w (r_commits r).
Proof.
  unfold latest_commit_sha, bind, emit, the_repo, get_gh. cbn.
  destruct (gh st !! repo) as [r |] eqn:Hr; cbn; [| discriminate].
  destruct (r_commits r) eqn:Hc; cbn; [discriminate |].
  intros [= <- <-]. exists r. cbn. rewrite Hc. auto.
Qed.

Lemma enable_pages_run w repo st :
  exists st',
    enable_pages w repo st
    = (Ret (if pages_ok w then Some (pages_url_of w repo) else None), st')
    /\ gh st' = gh st.
Proof.
  unfold enable_pages, try_except, bind, emit, pages_ok. cbn.
  destruct (pages_enable_status w) as [s |]; cbn.
  - destruct ((s =? 200) || (s =? 201)); cbn; eauto.
  - eauto.
Qed.

Lemma halts_bind_congr {A B} (m : M A) (f g : A -> M B) st :
  (forall a s, halts (f a) s <-> halts (g a) s) ->
  halts (bind m f) st <-> halts (bind m g) st.
Proof.
  intros H. unfold halts, bind in *.
  destruct (m st) as [[a | e |] s]; [apply H | |];
    split; intros (b & s' & E); discriminate.
Qed.

Lemma latest_commit_sha_halts w repo st :
  halts (latest_commit_sha w repo) st
  <-> exists r c cs, gh st !! repo = Some r /\ r_commits r = c :: cs.
Proof.
  unfold halts, latest_commit_sha, bind, emit, the_repo, get_gh. cbn.
  destruct (gh st !! repo) as [r |]; cbn.
  - destruct (r_commits r) as [| c cs] eqn:Hc; cbn.
    + split; [intros (a & s' & E); discriminate | intros (r' & c & cs & [= <-] & H)].
      congruence.
    + split; [intros _; eauto | intros _; eauto].
  - split; [intros (a & s' & E); discriminate | intros (r' & c & cs & H & _)].
    discriminate.
Qed.

(** The end of [create_and_deploy_repo], from the request that enables
    Pages on: it returns as soon as the repository has a commit. *)
Lemma publish_tail_halts w repo st :
  halts (let* pages_url := enable_pages w repo in
         let* commit_sha := latest_commit_sha w repo in
         print ("Repo ready: " +:+ html_url w repo) ;;;
         print ("Pages: " +:+ match pages_url with Some u => u | None => "Not enabled" end) ;;;
         match pages_url with
         | Some u => (if String.eqb u EmptyString then ret tt
                      else wait_for_pages_ready w u ;;; ret tt)
         | None => ret tt
         end ;;;
         ret (html_url w repo, commit_sha, pages_url)) st
  <-> exists r c cs, gh st !! repo = Some r /\ r_commits r = c :: cs.
Proof.
  destruct (enable_pages_run w repo st) as (s1 & E1 & Hg1).
  rewrite <- Hg1, <- latest_commit_sha_halts.
  unfold halts at 1. erewrite bind_run by exact E1. split.
  - intros (a & s' & E). apply bind_Ret in E as (sha & s2 & Hl & _).
    unfold halts. eauto.
  - intros (sha & s2 & Hl). erewrite bind_run by exact Hl.
    unfold bind at 1. cbn [print]. unfold bind at 1. cbn [print].
    match goal with
    | |- exists a s', bind ?m _ ?s = _ =>
        assert (Hw : halts m s)
    end.
    { destruct (if pages_ok w then _ else _) as [u |]; [| unfold halts, ret; eauto].
      destruct (String.eqb u EmptyString); [unfold halts, ret; eauto |].
      destruct (wait_for_pages_ready_within_halts w u 60
                  (say ("Pages: " +:+ u) (say ("Repo ready: " +:+ html_url w repo) s2)))
        as (b & s' & E).
      unfold halts. unfold wait_for_pages_ready. erewrite bind_run by exact E.
      unfold ret. eauto. }
    destruct Hw as ([] & s' & E). erewrite bind_run by exact E. unfold ret. eauto.
Qed.

(** X14.  Enabling Pages never raises: it gives the Pages URL when the
    request is answered 200 or 201 and [None] otherwise, and leaves the
    platform as it was.  So whether the publisher returns does not depend on
    the answer to that request; and when it returns, it returns the
    repository URL, the sha of the latest commit of the repository, and that
    Pages URL or [None]. *)
Theorem create_and_deploy_repo_result w task app_code brief atts st :
  let repo := safe_task task in
  let pages := if pages_ok w then Some (pages_url_of w repo) else None in
  (forall s, exists s', enable_pages w repo s = (Ret pages, s') /\ gh s' = gh s)
  /\ (forall status,
        halts (create_and_deploy_repo (with_pages_status status w) task app_code brief atts) st
        <-> halts (create_and_deploy_repo w task app_code brief atts) st)
  /\ (forall res st',
        create_and_deploy_repo w task app_code brief atts st = (Ret res, st') ->
        exists r,
          gh st' !! repo = Some r
          /\ res = (html_url w repo, sha_of w (r_commits r), pages)).
Proof.
  intros repo pages. split; [| split].
  - intros s. apply enable_pages_run.
  - intros status. unfold create_and_deploy_repo.
    do 11 (apply halts_bind_congr; intros ? ?).
    etransitivity; [apply publish_tail_halts |].
    symmetry. apply publish_tail_halts.
  - intros res st' H. unfold create_and_deploy_repo in H. inv_bind H.
    inversion H. subst. clear H.
    repeat match goal with u : unit |- _ => destruct u end.
    match goal with
    | H : create_repo _ _ _ _ = _ |- _ => apply create_repo_returns in H; subst
    end.
    match goal with
    | H : enable_pages _ _ _ = _ |- _ => apply enable_pages_returns in H; subst
    end.
    match goal with
    | H : latest_commit_sha _ _ _ = _ |- _ =>
        apply latest_commit_sha_returns in H as (r & Hr & ->)
    end.
    assert (Hwait : forall (pages_url : option string) x o x',
               match pages_url with
               | Some u => if String.eqb u EmptyString then ret tt
                           else wait_for_pages_ready w u ;;; ret tt
               | None => ret tt
               end x = (o, x') -> gh x' = gh x).
    { intros pages_url x o x' Hm. refine (keeps_run _ _ _ _ _ Hm).
      destruct pages_url as [u |]; [| apply keeps_ret].
      destruct (String.eqb u EmptyString); [apply keeps_ret |].
      apply keeps_bind; [apply keeps_wait_for_pages_ready | intros; apply keeps_ret]. }
    repeat match goal with
           | H : print _ _ = _ |- _ =>
               apply (keeps_run _ _ _ _ (keeps_print _)) in H
           | H : match _ with Some _ => _ | None => _ end _ = _ |- _ =>
               apply Hwait in H
           end.
    exists r. split; [| reflexivity]. rewrite <- Hr. f_equal. congruence.
Qed.

(** X15.  What the updater returns: the Pages URL is reported whether or not
    the poll saw the site live. *)
Theorem update_existing_repo_result w task new_brief st res st' :
  update_existing_repo w task new_brief st = (Ret res, st') ->
  exists r,
    gh st' !! safe_task task = Some r
    /\ res = (html_url w (safe_task task), sha_of w (r_commits r),
              Some (pages_url_of w (safe_task task))).
Proof.
  intros H. unfold update_existing_repo in H. inv_bind H.
  inversion H. subst. clear H.
  match goal with
  | H : get_repo _ _ = _ |- _ => apply get_repo_returns in H; subst
  end.
  match goal with
  | H : latest_commit_sha _ _ _ = _ |- _ =>
      apply latest_commit_sha_returns in H as (r & Hr & ->)
  end.
  exists r. auto.
Qed.

Lemma dict_mem_lookup k d : dict_mem k d = false -> dict_lookup k d = None.
Proof.
  unfold dict_mem. destruct (dict_lookup k d); [discriminate | reflexivity].
Qed.

Lemma dict_mem_lookup_true k d :
  dict_mem k d = true -> exists v, dict_lookup k d = Some v.
Proof.
  unfold dict_mem. destruct (dict_lookup k d); [eauto | discriminate].
Qed.

Lemma item_missing d k st :
  dict_mem k d = false -> item d k st = (Raised (KeyError k), st).
Proof. intros H. unfold item. now rewrite (dict_mem_lookup _ _ H). Qed.

Lemma item_present d k :
  dict_mem k d = true -> exists v, forall st, item d k st = (Ret v, st).
Proof.
  intros H. destruct (dict_mem_lookup_true _ _ H) as [v Hv].
  exists v. intros st. unfold item. now rewrite Hv.
Qed.

Ltac field_step Hk d k :=
  let E := fresh "Hmem" in
  destruct (dict_mem k d) eqn:E; cbn [negb] in Hk; cbv iota in Hk;
  [ let v := fresh "v" in
    let Hv := fresh "Hv" in
    destruct (item_present d k E) as [v Hv];
    erewrite bind_run by apply Hv
  | injection Hk as <-;
    first [ apply bind_raised; now apply item_missing
          | now apply item_missing ] ].

(** X16.  A request that passes the secret check but lacks one of the six
    fields read with [data[...]] makes the handler raise [KeyError] for the
    first missing one, in the order email, task, brief, round, nonce,
    evaluation_url, before anything else happens. *)
Theorem build_app_missing_field w S fuel d k st :
  authenticated S d ->
  first_missing d = Some k ->
  build_app w S fuel (JObj d) st = (Raised (KeyError k), st).
Proof.
  intros Ha Hk. unfold build_app. unfold authenticated in Ha. rewrite Ha.
  unfold pipeline. unfold first_missing, required_fields in Hk. cbn in Hk.
  field_step Hk d "email". cbv beta.
  field_step Hk d "task". cbv beta.
  field_step Hk d "brief". cbv beta.
  field_step Hk d "round". cbv beta.
  field_step Hk d "nonce". cbv beta.
  field_step Hk d "evaluation_url".
  discriminate.
Qed.

Lemma build_app_missing_field_witness :
  build_app demo_world demo_secret 5
    (JObj [("secret", JStr "s3cret"); ("email", JStr "a@b.c"); ("task", JStr "demo");
           ("round", JInt 1)])
    demo_state
  = (Raised (KeyError "brief"), demo_state).
Proof.
  apply (build_app_missing_field demo_world demo_secret 5
           [("secret", JStr "s3cret"); ("email", JStr "a@b.c"); ("task", JStr "demo");
            ("round", JInt 1)] "brief" demo_state); reflexivity.
Defined.

Lemma report_delivered w fuel email task round_ nonce url result st st' :
  report w fuel email task round_ nonce url result st = (Ret tt, st') ->
  exists evs p n,
    trace st' = trace st ++ evs ++ [HttpPost url p 10]
    /\ post_status w url n = Some 200
    /\ p_email p = email /\ p_task p = task /\ p_round p = round_ /\ p_nonce p = nonce.
Proof.
  destruct result as [[repo_url sha] pg]. unfold report, notify. intros H.
  apply callback_loop_delivered in H as (evs & n & Ht & Hn).
  eexists evs, _, n. split; [exact Ht |]. split; [exact Hn |]. cbn. auto.
Qed.

(** X17.  A response with status ok means the evaluation callback was
    delivered: the last outbound call of the request is a POST to the
    request's evaluation_url that was answered 200, and its body carries the
    request's email, task, round and nonce. *)
Theorem build_app_ok_after_callback w S fuel d st r st' :
  build_app w S fuel (JObj d) st = (Ret (Some r), st') ->
  status r = "ok" ->
  exists evs url p n,
    dict_lookup "evaluation_url" d = Some url
    /\ trace st' = trace st ++ evs ++ [HttpPost url p 10]
    /\ post_status w url n = Some 200
    /\ dict_lookup "email" d = Some (p_email p)
    /\ dict_lookup "task" d = Some (p_task p)
    /\ dict_lookup "round" d = Some (p_round p)
    /\ dict_lookup "nonce" d = Some (p_nonce p).
Proof.
  intros H Hok. unfold build_app in H.
  destruct (py_ne_env _ _); [inversion H; subst; discriminate |].
  unfold pipeline in H.
  apply bind_Ret in H as (email & s1 & He & H). apply item_run in He as [He ->].
  apply bind_Ret in H as (task & s1 & Hta & H). apply item_run in Hta as [Hta ->].
  apply bind_Ret in H as (brief & s1 & Hb & H). apply item_run in Hb as [Hb ->].
  apply bind_Ret in H as (round_ & s1 & Hr & H). apply item_run in Hr as [Hr ->].
  apply bind_Ret in H as (nonce & s1 & Hn & H). apply item_run in Hn as [Hn ->].
  apply bind_Ret in H as (url & s1 & Hu & H). apply item_run in Hu as [Hu ->].
  apply bind_Ret in H as (files & s1 & Hf & H). apply lift_run in Hf as [Hf ->].
  apply bind_Ret in H as ([] & s1 & Hs & H).
  apply bind_Ret in H as (app_code & s2 & Hg & H).
  apply (trace_extends _ _ _ _ _ (emits_save_attachments w files)) in Hs
    as (ev1 & T1).
  assert (exists ev2, trace s2 = trace s1 ++ ev2) as (ev2 & T2).
  { apply generate_minimal_app_trace in Hg. eauto. }
  assert (Hbr : forall (m : M (string * string * option string)) (P : event -> Prop) resp s,
             emits P m ->
             (let* result := m in
              report w fuel email task round_ nonce url result ;;; ret (Some resp)) s
             = (Ret (Some r), st') ->
             exists evs p n,
               trace st' = trace s ++ evs ++ [HttpPost url p 10]
               /\ post_status w url n = Some 200
               /\ p_email p = email /\ p_task p = task /\ p_round p = round_
               /\ p_nonce p = nonce).
  { intros m P resp s Hm Hrun.
    apply bind_Ret in Hrun as (result & s3 & Hm' & Hrun).
    apply bind_Ret in Hrun as ([] & s4 & Hrep & Hrun).
    inversion Hrun. subst.
    apply (trace_extends _ _ _ _ _ Hm) in Hm' as (ev3 & T3).
    apply report_delivered in Hrep as (evs & p & n & Ht & Hrest).
    exists (ev3 ++ evs), p, n. split; [| exact Hrest].
    rewrite Ht, T3, <- !app_assoc. reflexivity. }
  assert (Hfin : exists evs p n,
             trace st' = trace s2 ++ evs ++ [HttpPost url p 10]
             /\ post_status w url n = Some 200
             /\ p_email p = email /\ p_task p = task /\ p_round p = round_
             /\ p_nonce p = nonce).
  { destruct (py_eq_int round_ 1).
    - apply bind_Ret in H as (t & s3 & Ht & H). apply as_str_run in Ht as [Ht ->].
      apply bind_Ret in H as (b & s3 & Hb' & H). apply as_str_run in Hb' as [Hb' ->].
      eapply Hbr; [| exact H].
      apply emits_create_and_deploy_repo.
    - destruct (py_eq_int round_ 2).
      + apply bind_Ret in H as (t & s3 & Ht & H). apply as_str_run in Ht as [Ht ->].
        apply bind_Ret in H as (b & s3 & Hb' & H). apply as_str_run in Hb' as [Hb' ->].
        eapply Hbr; [| exact H].
        apply emits_update_existing_repo.
      + inversion H. }
  destruct Hfin as (evs & p & n & Ht & Hp & <- & <- & <- & <-).
  exists (ev1 ++ ev2 ++ evs), url, p, n.
  repeat split; auto.
  rewrite Ht, T2, T1, <- !app_assoc. reflexivity.
Qed.

Lemma bind_establishes_later {A B} (J : gmap string Repo -> Prop)
    (m : M A) (f : A -> M B) :
  (forall a s b s', f a s = (Ret b, s') -> J (gh s')) ->
  forall st b st', bind m f st = (Ret b, st') -> J (gh st').
Proof.
  intros Hf st b st' H. apply bind_Ret in H as (a & s & _ & H). eauto.
Qed.

Lemma bind_establishes {A B} (J : gmap string Repo -> Prop) (Q : A -> Prop)
    (m : M A) (f : A -> M B) :
  returns Q m ->
  (forall st a st', m st = (Ret a, st') -> J (gh st')) ->
  (forall a, Q a -> gh_inv J (f a)) ->
  forall st b st', bind m f st = (Ret b, st') -> J (gh st').
Proof.
  intros HQ Hm Hf st b st' H. apply bind_Ret in H as (a & s & Hrun & H).
  eapply gh_inv_run; [apply Hf; exact (HQ _ _ _ Hrun) | exact H | eauto].
Qed.

Lemma create_repo_fresh w name desc st a st' :
  create_repo w name desc st = (Ret a, st') -> fresh_inv w name desc (gh st').
Proof.
  unfold create_repo, bind, emit, get_gh, set_gh. cbn.
  destruct (gh st !! name); cbn; [discriminate |].
  intros [= <- <-]. cbn. eexists. rewrite lookup_insert_eq.
  split; [reflexivity |]. split; reflexivity.
Qed.

Lemma fresh_inv_commit_closed w repo desc : commit_closed (fresh_inv w repo desc) repo.
Proof.
  intros g r path msg c (r' & Hr' & Hd & Hl) Hr.
  rewrite Hr' in Hr. injection Hr as <-.
  exists (committed r' path msg c). rewrite lookup_insert_eq.
  split; [done |]. split; [exact Hd |].
  cbn. destruct (r_commits r') as [| c0 cs] eqn:E; [discriminate | exact Hl].
Qed.

(** X18.  Round 1 starts the repository afresh: whatever a repository of that
    name held before, on return its description is the cleaned brief and its
    history begins with the platform's initial commit. *)
Theorem create_and_deploy_repo_starts_fresh w task app_code brief atts st res st' :
  create_and_deploy_repo w task app_code brief atts st = (Ret res, st') ->
  exists r,
    gh st' !! safe_task task = Some r
    /\ started_fresh w (clean_description brief) r.
Proof.
  change (create_and_deploy_repo w task app_code brief atts st = (Ret res, st') ->
          fresh_inv w (safe_task task) (clean_description brief) (gh st')).
  revert st res st'. unfold create_and_deploy_repo.
  apply (bind_establishes_later (fresh_inv w (safe_task task) (clean_description brief))).
  intros _.
  apply (bind_establishes_later (fresh_inv w (safe_task task) (clean_description brief))).
  intros _.
  pose proof (fresh_inv_commit_closed w (safe_task task) (clean_description brief)) as Hc.
  eapply bind_establishes;
    [apply create_repo_returns | intros st a st'; apply create_repo_fresh | intros repo ->].
  apply gh_inv_bind; [apply gh_inv_strip_license | intros d].
  apply gh_inv_bind; [apply gh_inv_fix_common_ci_errors | intros d'].
  apply gh_inv_bind; [now apply cc_upload_all | intros _].
  apply gh_inv_bind.
  { destruct (py_truthy atts); simpl when; [now apply cc_process_attachments | inv_tac]. }
  intros _. apply gh_inv_bind; [inv_tac | intros _].
  apply gh_inv_bind; [inv_tac | intros r].
  apply gh_inv_bind; [inv_tac | intros _].
  apply gh_inv_bind; [now apply cc_write_license | intros _].
  inv_tac.
Qed.

Lemma keeps_files_refl repo r g : g !! repo = Some r -> keeps_files repo r g.
Proof. intros H. exists r. auto. Qed.

Lemma keeps_files_create_file repo r path msg c :
  gh_inv (keeps_files repo r) (create_file repo path msg c).
Proof.
  apply gh_inv_create_file.
  intros g r1 (r' & Hr' & Hf) Hr1 Hnone.
  rewrite Hr' in Hr1. injection Hr1 as <-.
  exists (committed r' path msg c). rewrite lookup_insert_eq. split; [done |].
  intros p x Hp. cbn. rewrite lookup_insert_ne; [now apply Hf |].
  intros ->. apply Hf in Hp. congruence.
Qed.

Lemma try_all_returns (m : M unit) (h : exn -> M unit) st :
  fst (m st) <> Diverged ->
  (forall e s, exists s', h e s = (Ret tt, s') /\ gh s' = gh s) ->
  exists st', try_except m is_Exception h st = (Ret tt, st')
              /\ gh st' = gh (snd (m st)).
Proof.
  intros Hf Hh. unfold try_except.
  destruct (m st) as [[[] | e |] s]; cbn in *; [eauto | | congruence].
  destruct (Hh e s) as (s' & -> & Hg). eauto.
Qed.

Lemma finishes_create_file repo path msg c : finishes (create_file repo path msg c).
Proof.
  intros st. unfold create_file, commit, the_repo, bind, emit, get_gh, set_gh. cbn.
  destruct (gh st !! repo) as [r |]; cbn; [| discriminate].
  destruct (r_files r !! path); cbn; discriminate.
Qed.

Lemma process_attachment_robust w repo att r st :
  readable_attachment att ->
  keeps_files repo r (gh st) ->
  exists st', process_attachment w repo att st = (Ret tt, st')
              /\ keeps_files repo r (gh st').
Proof.
  intros Hatt HJ. destruct att as [| | | | | d]; try contradiction.
  unfold process_attachment. cbn [py_get lift]. rewrite !bind_ret_l.
  cbn in Hatt.
  destruct (py_truthy (dict_get d "name") && py_truthy (dict_get d "url")) eqn:Ht;
    cbn [negb]; [| eauto].
  destruct (Hatt eq_refl) as [u Hu]. rewrite Hu. cbn [as_str]. rewrite bind_ret_l.
  destruct (PyStr.startswith u "data:"); cbn [negb]; [| eauto].
  match goal with
  | |- exists st', try_except ?m _ ?h st = _ /\ _ =>
      destruct (try_all_returns m h st) as (st' & Hrun & Hg)
  end.
  - destruct (PyStr.split_comma u) as [[header encoded] |]; [| discriminate].
    destruct (b64decode w encoded); [| discriminate].
    apply finishes_bind; [apply finishes_as_str | intros n].
    apply finishes_bind; [apply finishes_create_file | intros; apply finishes_print].
  - intros e s. eexists. split; reflexivity.
  - exists st'. split; [exact Hrun |]. rewrite Hg.
    match goal with
    | |- keeps_files _ _ (gh (snd (?m st))) =>
        assert (Hinv : gh_inv (keeps_files repo r) m); [| now apply Hinv]
    end.
    destruct (PyStr.split_comma u) as [[header encoded] |]; [| inv_tac].
    destruct (b64decode w encoded); [| inv_tac].
    apply gh_inv_bind; [inv_tac | intros n].
    apply gh_inv_bind; [apply keeps_files_create_file | intros; inv_tac].
Qed.

(** X19.  [process_attachments] is robust: over a list of attachment objects
    whose url, where name and url are both set, is text, it never raises,
    whatever the platform answers, and it overwrites no file of the
    repository. *)
Theorem process_attachments_robust w l repo r st :
  Forall readable_attachment l ->
  gh st !! repo = Some r ->
  exists st',
    process_attachments w (JArr l) repo st = (Ret tt, st')
    /\ keeps_files repo r (gh st').
Proof.
  intros Hl Hr. apply (keeps_files_refl repo r) in Hr.
  unfold process_attachments. cbn [py_iter lift]. rewrite bind_ret_l.
  revert st Hr. induction Hl as [| att l Hatt _ IH]; intros st Hr; cbn [process_each].
  - eauto.
  - destruct (process_attachment_robust w repo att r st Hatt Hr) as (s1 & Hrun & H1).
    destruct (IH s1 H1) as (st' & Hrest & H2).
    exists st'. split; [| exact H2].
    erewrite bind_run by exact Hrun. exact Hrest.
Qed.

Lemma load_secrets_entries_stripped_witness :
  load_secrets "secrets.txt" (Some ["# keys"; "  API_KEY = abc  "; "no entry here"])
  = inr (load_lines ["# keys"; "  API_KEY = abc  "; "no entry here"] ∅)
  /\ load_lines ["# keys"; "  API_KEY = abc  "; "no entry here"] ∅ !! "API_KEY" = Some "abc"
  /\ PyStr.strip "API_KEY" = "API_KEY" /\ PyStr.strip "abc" = "abc"
  /\ PyStr.startswith "API_KEY" "#" = false.
Proof.
  assert (H : load_lines ["# keys"; "  API_KEY = abc  "; "no entry here"] ∅ !! "API_KEY"
              = Some "abc") by (vm_compute; reflexivity).
  split; [reflexivity |]. split; [exact H |].
  exact (load_secrets_entries_stripped "secrets.txt"
           ["# keys"; "  API_KEY = abc  "; "no entry here"] _ "API_KEY" "abc" eq_refl H).
Defined.

Lemma create_and_deploy_repo_result_witness :
  pages_ok (with_pages_status (Some 404) demo_world) = false
  /\ exists res st' r,
       create_and_deploy_repo (with_pages_status (Some 404) demo_world) "demo"
         (JObj [("index.html", JStr "<html>hi</html>")]) "more" JNull empty_state
       = (Ret res, st')
       /\ gh st' !! safe_task "demo" = Some r
       /\ res = (html_url demo_world (safe_task "demo"), sha_of demo_world (r_commits r),
                 None).
Proof.
  split; [reflexivity |].
  destruct (create_and_deploy_repo (with_pages_status (Some 404) demo_world) "demo"
              (JObj [("index.html", JStr "<html>hi</html>")]) "more" JNull empty_state)
    as [[res | e |] st'] eqn:Hrun; [| vm_compute in Hrun; discriminate ..].
  destruct (proj2 (proj2 (create_and_deploy_repo_result
                            (with_pages_status (Some 404) demo_world) "demo"
                            (JObj [("index.html", JStr "<html>hi</html>")]) "more" JNull
                            empty_state)) res st' Hrun) as (r & Hr & Hres).
  exists res, st', r. split; [reflexivity |]. split; [exact Hr | exact Hres].
Defined.

Lemma update_existing_repo_result_witness :
  exists res st' r,
    update_existing_repo demo_world "demo" "more" demo_state = (Ret res, st')
    /\ gh st' !! safe_task "demo" = Some r
    /\ res = (html_url demo_world (safe_task "demo"), sha_of demo_world (r_commits r),
              Some (pages_url_of demo_world (safe_task "demo"))).
Proof.
  destruct (update_existing_repo demo_world "demo" "more" demo_state)
    as [[res | e |] st'] eqn:Hrun; [| vm_compute in Hrun; discriminate ..].
  destruct (update_existing_repo_result demo_world "demo" "more" demo_state
              res st' Hrun) as (r & Hr & Hres).
  exists res, st', r. split; [reflexivity |]. split; [exact Hr | exact Hres].
Defined.

Lemma build_app_ok_after_callback_witness :
  build_app demo_world demo_secret 5 (JObj (demo_request "s3cret" 2)) demo_state
  = (Ret (Some round2_complete),
     snd (build_app demo_world demo_secret 5 (JObj (demo_request "s3cret" 2)) demo_state))
  /\ status round2_complete = "ok"
  /\ exists evs url p n,
       dict_lookup "evaluation_url" (demo_request "s3cret" 2) = Some url
       /\ trace (snd (build_app demo_world demo_secret 5 (JObj (demo_request "s3cret" 2))
                        demo_state))
          = trace demo_state ++ evs ++ [HttpPost url p 10]
       /\ post_status demo_world url n = Some 200
       /\ dict_lookup "email" (demo_request "s3cret" 2) = Some (p_email p)
       /\ dict_lookup "task" (demo_request "s3cret" 2) = Some (p_task p)
       /\ dict_lookup "round" (demo_request "s3cret" 2) = Some (p_round p)
       /\ dict_lookup "nonce" (demo_request "s3cret" 2) = Some (p_nonce p).
Proof.
  assert (Hrun :
    build_app demo_world demo_secret 5 (JObj (demo_request "s3cret" 2)) demo_state
    = (Ret (Some round2_complete),
       snd (build_app demo_world demo_secret 5 (JObj (demo_request "s3cret" 2)) demo_state)))
    by (vm_compute; reflexivity).
  split; [exact Hrun |]. split; [reflexivity |].
  exact (build_app_ok_after_callback demo_world demo_secret 5 (demo_request "s3cret" 2)
           demo_state round2_complete _ Hrun eq_refl).
Defined.

Lemma create_and_deploy_repo_starts_fresh_witness :
  exists res st' r,
    create_and_deploy_repo demo_world "demo" (JObj [("index.html", JStr "<html>hi</html>")])
      "more" JNull demo_state = (Ret res, st')
    /\ gh st' !! safe_task "demo" = Some r
    /\ started_fresh demo_world (clean_description "more") r.
Proof.
  destruct (create_and_deploy_repo demo_world "demo"
              (JObj [("index.html", JStr "<html>hi</html>")]) "more" JNull demo_state)
    as [[res | e |] st'] eqn:Hrun; [| vm_compute in Hrun; discriminate ..].
  destruct (create_and_deploy_repo_starts_fresh demo_world "demo" _ "more" JNull demo_state
              res st' Hrun) as (r & Hr & Hf).
  exists res, st', r. split; [reflexivity |]. split; [exact Hr | exact Hf].
Defined.

Lemma process_attachments_robust_witness :
  Forall readable_attachment
    [JObj [("name", JStr "notes.txt"); ("url", JStr "data:text/plain;base64,aGVsbG8=")];
     JObj [("name", JStr "index.html"); ("url", JStr "data:text/html;base64,eA==")];
     JObj [("name", JStr "logo.png")]]
  /\ gh demo_state !! "demo" = Some demo_repo
  /\ exists st',
       process_attachments demo_world
         (JArr [JObj [("name", JStr "notes.txt");
                      ("url", JStr "data:text/plain;base64,aGVsbG8=")];
                JObj [("name", JStr "index.html"); ("url", JStr "data:text/html;base64,eA==")];
                JObj [("name", JStr "logo.png")]])
         "demo" demo_state = (Ret tt, st')
       /\ keeps_files "demo" demo_repo (gh st').
Proof.
  assert (Hl : Forall readable_attachment
    [JObj [("name", JStr "notes.txt"); ("url", JStr "data:text/plain;base64,aGVsbG8=")];
     JObj [("name", JStr "index.html"); ("url", JStr "data:text/html;base64,eA==")];
     JObj [("name", JStr "logo.png")]]).
  { repeat constructor; cbn; intros; first [discriminate | eexists; reflexivity]. }
  assert (Hr : gh demo_state !! "demo" = Some demo_repo) by (vm_compute; reflexivity).
  split; [exact Hl |]. split; [exact Hr |].
  exact (process_attachments_robust demo_world _ "demo" demo_repo demo_state Hl Hr).
Defined.

Lemma upload_event_cons repo kv d e :
  upload_event repo d e -> upload_event repo (kv :: d) e.
Proof.
  destruct e; try contradiction.
  intros (H1 & H2 & H3 & H4 & v & Hin & Hc).
  repeat split; auto. exists v. split; [now right | exact Hc].
Qed.

Lemma bind_raise_l {A B} e (f : A -> M B) : bind (raise e) f = raise e.
Proof. reflexivity. Qed.

Lemma emits_upload_one repo seen filename content d :
  emits (upload_event repo ((filename, content) :: d))
        (upload_one repo seen filename content).
Proof.
  unfold upload_one.
  destruct (PyStr.startswith filename "```") eqn:Hs; cbn [orb]; [apply emits_ret |].
  destruct (String.eqb (PyStr.strip filename) EmptyString) eqn:Hb; [apply emits_ret |].
  apply String.eqb_neq in Hb.
  destruct content as [| | | v | |]; cbn [py_replace lift];
    try (rewrite bind_raise_l; apply emits_raise).
  do 3 (cbn [py_replace lift as_str]; rewrite bind_ret_l).
  do 4 (apply emits_bind; [apply emits_when, emits_print | intros _]).
  apply emits_bind; [| intros; emits_tac].
  apply emits_create_file. cbn.
  repeat split; auto. exists v. split; [now left | reflexivity].
Qed.

(** X20.  The upload loop of Round 1 writes only entries of the generated
    [app_code]: each file it creates is committed under the entry's own
    name (not the trimmed one), with the message Add <name>, its text with
    code fences removed and whitespace trimmed; entries whose name starts
    with a fence or is blank are never written. *)
Theorem upload_all_writes_entries repo app_code : forall seen,
  emits (upload_event repo app_code) (upload_all repo seen app_code).
Proof.
  induction app_code as [| [filename content] d IH]; intros seen; cbn [upload_all].
  - apply emits_ret.
  - apply emits_bind; [apply emits_upload_one | intros seen'].
    eapply emits_weaken; [| apply IH]. intros e. apply upload_event_cons.
Qed.

Lemma fix_entry_run fname content st c st' :
  fix_entry fname content st = (Ret c, st') ->
  gh st' = gh st /\ trace st' = trace st
  /\ (is_workflow fname = false \/ no_ruff_call content -> c = content).
Proof.
  unfold fix_entry, is_workflow.
  destruct (PyStr.endswith fname ".yml" || PyStr.endswith fname ".yaml") eqn:Hw.
  - intros H.
    destruct content as [| | | s | l | d0]; try discriminate.
    + cbn [py_in_str lift] in H. rewrite !bind_ret_l in H.
      destruct (PyStr.contains "ruff ." s) eqn:Ha.
      * cbn [py_in_str lift] in H. rewrite !bind_ret_l in H.
        destruct (PyStr.contains "ruff check ." s) eqn:Hb; cbn [andb negb] in H.
        -- rewrite bind_ret_l in H. cbn [py_in_str lift] in H. rewrite bind_ret_l in H.
           destruct (PyStr.contains "ruff --fix ." s) eqn:Hc.
           ++ cbn [py_in_str lift] in H. rewrite bind_ret_l in H.
              destruct (PyStr.contains "ruff check . --fix" s);
                cbn in H; inversion H; subst;
                (split; [done |]; split; [done |]);
                intros [? | (s0 & [= <-] & ? & ?)]; congruence.
           ++ rewrite bind_ret_l in H. cbn in H. inversion H. subst. auto.
        -- unfold bind at 1 in H. unfold bind at 1 in H. cbn [print py_replace lift ret] in H.
           cbn [py_in_str lift] in H. rewrite bind_ret_l in H.
           match type of H with
           | context [if ?b then _ else _] => destruct b
           end;
           [ cbn [py_in_str lift] in H; rewrite bind_ret_l in H;
             match type of H with
             | context [if ?b then _ else _] => destruct b
             end
           | rewrite bind_ret_l in H ];
           cbn in H; inversion H; subst;
           (split; [done |]; split; [done |]);
           intros [? | (s0 & [= <-] & ? & ?)]; congruence.
      * rewrite !bind_ret_l in H. cbn [andb] in H. rewrite bind_ret_l in H.
        cbn [py_in_str lift] in H. rewrite bind_ret_l in H.
        destruct (PyStr.contains "ruff --fix ." s) eqn:Hc.
        -- cbn [py_in_str lift] in H. rewrite bind_ret_l in H.
           destruct (PyStr.contains "ruff check . --fix" s);
             cbn in H; inversion H; subst;
             (split; [done |]; split; [done |]);
             intros [? | (s0 & [= <-] & ? & ?)]; congruence.
        -- rewrite bind_ret_l in H. cbn in H. inversion H. subst. auto.
    + inv_bind H.
      repeat match goal with
             | X : lift _ _ = (Ret _, _) |- _ => apply lift_run in X as [? ->]
             | X : (if ?b then _ else _) _ = (Ret _, _) |- _ => destruct b
             | X : ret _ _ = (Ret _, _) |- _ => inversion X; subst; clear X
             | X : bind _ _ _ = (Ret _, _) |- _ => inv_bind X
             | X : print _ _ = (Ret _, _) |- _ => inversion X; subst; clear X
             | X : py_replace (JArr _) _ _ = inr _ |- _ => discriminate X
             end;
      (split; [done |]; split; [done |]);
      intros [? | (s0 & ? & _)]; congruence.
    + inv_bind H.
      repeat match goal with
             | X : lift _ _ = (Ret _, _) |- _ => apply lift_run in X as [? ->]
             | X : (if ?b then _ else _) _ = (Ret _, _) |- _ => destruct b
             | X : ret _ _ = (Ret _, _) |- _ => inversion X; subst; clear X
             | X : bind _ _ _ = (Ret _, _) |- _ => inv_bind X
             | X : print _ _ = (Ret _, _) |- _ => inversion X; subst; clear X
             | X : py_replace (JObj _) _ _ = inr _ |- _ => discriminate X
             end;
      (split; [done |]; split; [done |]);
      intros [? | (s0 & ? & _)]; congruence.
  - intros [= <- <-]. auto.
Qed.

(** X21.  [fix_common_ci_errors] touches workflow files only, and nothing
    outside [app_code]: it keeps the names and their order, keeps the
    content of every file that is not .yml or .yaml, and of a workflow whose
    text has neither Ruff call; it reaches neither the platform nor the
    network. *)
Theorem fix_common_ci_errors_scope app_code st fixed st' :
  fix_common_ci_errors app_code st = (Ret fixed, st') ->
  Forall2 entry_kept app_code fixed /\ gh st' = gh st /\ trace st' = trace st.
Proof.
  revert st fixed st'.
  induction app_code as [| [fname content] d IH]; intros st fixed st' H;
    cbn [fix_common_ci_errors] in H.
  - inversion H. subst. auto.
  - apply bind_Ret in H as (c & s1 & Hc & H).
    apply bind_Ret in H as (r' & s2 & Hr & H).
    inversion H. subst. clear H.
    apply fix_entry_run in Hc as (Hg1 & Ht1 & Hkeep).
    apply IH in Hr as (Hall & Hg2 & Ht2).
    split; [| split; congruence].
    constructor; [| exact Hall]. split; [reflexivity | exact Hkeep].
Qed.

Lemma fix_common_ci_errors_scope_witness :
  exists fixed st',
    fix_common_ci_errors
      [("index.html", JStr "run ruff . here"); ("ci.yml", JStr "run: ruff .")]
      empty_state = (Ret fixed, st')
    /\ Forall2 entry_kept
         [("index.html", JStr "run ruff . here"); ("ci.yml", JStr "run: ruff .")] fixed
    /\ gh st' = gh empty_state /\ trace st' = trace empty_state.
Proof.
  destruct (fix_common_ci_errors
              [("index.html", JStr "run ruff . here"); ("ci.yml", JStr "run: ruff .")]
              empty_state) as [[fixed | e |] st'] eqn:Hrun;
    [| vm_compute in Hrun; discriminate ..].
  exists fixed, st'. split; [reflexivity |].
  exact (fix_common_ci_errors_scope _ empty_state fixed st' Hrun).
Defined.
